(** * Genetic scheduling engine: a shallow embedding of [Scheduler.cpp]

    The development models the population-based scheduler of
    [src/cxx/src/Scheduler.cpp]:

    - a schedule is a Kokkos 2-D view [schedule(slot, room)] of [unsigned]
      identifiers, modelled as a list of rows (one row per timeslot);
    - ratings and weights are [double]s, idealised here as exact rationals:
      comparisons and the differences [x - x] are as in the code, while a
      sum or a difference that the code rounds is exact here, so that a
      statement which depends on the last bits of one holds of the model
      only;
    - the views live in host memory, where [best_indices_] is allocated and
      the code reads them: a mirror view made by
      [Kokkos::create_mirror_view] then is the view itself;
    - the random generators ([pool_], [rng_]) are modelled by a tape of draws
      read through a cursor, threaded by a small state-and-failure monad;
    - [while] loops whose exit depends on data or on the draws take a fuel
      argument; [OutOfFuel] is an execution that needs more iterations, and
      [Undefined] is C++ undefined behaviour (an access outside a view, a
      remainder by zero);
    - the reports ([record], [print_schedule]) are modelled by the list of
      the pieces of text they write.

    The rating of a mapping of lectures to sessions, of
    [src/cxx/include/Mapper.hpp], is modelled in the module [Mapper]. *)

From stdpp Require Import base list.
From Stdlib Require Import QArith Lia.

Open Scope nat_scope.

(** ** Views *)

(** [Kokkos::View<unsigned**>]: extent 0 is the timeslot, extent 1 the room. *)
Abbreviation Grid := (list (list nat)).

(** [view(i, j)] as an rvalue. *)
Definition at2 (g : Grid) (i j : nat) : nat :=
  match g !! i with
  | Some row => default 0 (row !! j)
  | None => 0
  end.

(** [view(i, j) = x]. *)
Definition set2 (g : Grid) (i j x : nat) : Grid :=
  alter (λ row, <[j := x]> row) i g.

(** The three-statement exchange used by the repair pass and the mutator:
    [temp = v(a); v(a) = v(b); v(b) = temp]. *)
Definition swap_cells (g : Grid) (i1 j1 i2 j2 : nat) : Grid :=
  let temp := at2 g i1 j1 in
  let g1 := set2 g i1 j1 (at2 g i2 j2) in
  set2 g1 i2 j2 temp.

(** [std::swap(a[i], a[j])] on a 1-D array. *)
Definition swap_list {A} (l : list A) (i j : nat) : list A :=
  match l !! i, l !! j with
  | Some x, Some y => <[j := x]> (<[i := y]> l)
  | _, _ => l
  end.

(** [for (i = lo; i < hi; i++) body(i)] on a state [s]. *)
Definition for_loop {St} (lo hi : nat) (body : nat → St → St) (s : St) : St :=
  foldl (λ s i, body i s) s (seq lo (hi - lo)).

(** A view of extents [ns × nr]. *)
Definition shape (ns nr : nat) (g : Grid) : Prop :=
  length g = ns ∧ Forall (λ row, length row = nr) g.

(** ** Doubles *)

(** [double] values are exact rationals here; [Qltb] is [<] on them. *)

Definition Qltb (x y : Q) : bool := negb (Qle_bool y x).

Definition Qsum (l : list Q) : Q := foldl Qplus 0%Q l.

(** [*Kokkos::Experimental::min_element(ratings_)]. *)
Definition min_element (l : list Q) : Q :=
  match l with
  | [] => 0%Q
  | x :: l' => foldl (λ m y, if Qltb y m then y else m) x l'
  end.

(** The largest rating of a population (the quantity the driver reports). *)
Definition max_element (l : list Q) : Q :=
  match l with
  | [] => 0%Q
  | x :: l' => foldl (λ m y, if Qltb m y then y else m) x l'
  end.

(** [unsigned(-1)]. *)
Definition UINT_MAX : N := 4294967295%N.

(** ** Collaborators and construction parameters of [Scheduler] *)

Class Collaborators : Type := {
  (** [mini_.size()] *)
  mini_size : nat;
  (** [mini_.breaks_ordering(a, b)] *)
  breaks_ordering : nat → nat → bool;
  (** [mini_[a].higher_priority(mini_[b])] *)
  higher_priority : nat → nat → bool;
  (** [mini_.rate_schedule(schedule, ...)], penalties dropped *)
  rate_schedule : Grid → Q;
  (** [rooms_.size()] *)
  rooms_size : nat;
  (** [ntimeslots_] *)
  ntimeslots_ : nat
}.

(** ** Outcomes, the random tape and the monad *)

Inductive Res (A : Type) : Type :=
| Done (a : A)
| Undefined
| OutOfFuel.
Arguments Done {A} a.
Arguments Undefined {A}.
Arguments OutOfFuel {A}.

#[export] Instance Res_ret : MRet Res := λ A a, Done a.

#[export] Instance Res_bind : MBind Res := λ A B f r,
  match r with
  | Done a => f a
  | Undefined => Undefined
  | OutOfFuel => OutOfFuel
  end.

(** One answer of a generator: what [drand()] returns and the raw integer
    that [rand(n)] reduces modulo [n]. *)
Record Draw : Type := { as_double : Q; as_uint : nat }.

Definition Tape : Type := nat → Draw.

(** A computation reads the tape from a cursor and returns the new cursor. *)
Definition M (A : Type) : Type := Tape → nat → Res (A * nat).

#[export] Instance M_ret : MRet M := λ A a _ k, Done (a, k).

#[export] Instance M_bind : MBind M := λ A B f m t k,
  match m t k with
  | Done (a, k') => f a t k'
  | Undefined => Undefined
  | OutOfFuel => OutOfFuel
  end.

Definition undefined {A} : M A := λ _ _, Undefined.
Definition out_of_fuel {A} : M A := λ _ _, OutOfFuel.

(** A step that cannot fail or draw, run inside [M]. *)
Definition lift {A} (r : Res A) : M A :=
  λ _ k, match r with
         | Done a => Done (a, k)
         | Undefined => Undefined
         | OutOfFuel => OutOfFuel
         end.

(** [for (i = lo; i < hi; i++)] with an effectful body. *)
Definition for_loopM {F : Type → Type} `{MBind F, MRet F} {St}
    (lo hi : nat) (body : nat → St → F St) (s : St) : F St :=
  foldl (λ m i, s ← m ; body i s) (mret s) (seq lo (hi - lo)).

(** [gen.drand()]. *)
Definition drand : M Q := λ t k, Done (as_double (t k), S k).

(** [gen.rand(n)]: a value in [[0, n)]. *)
Definition rand (n : nat) : M nat :=
  λ t k, if n =? 0 then Undefined
         else Done (as_uint (t k) `mod` n, S k).

(** Draws as the generators produce them: [drand()] lies in [[0, 1)]. *)
Definition valid_tape (t : Tape) : Prop :=
  ∀ k, (0 <= as_double (t k))%Q ∧ (as_double (t k) < 1)%Q.

(** ** The population store *)

Record Scheduler : Type := {
  current_schedules_ : list Grid;
  next_schedules_ : list Grid;
  ratings_ : list Q;
  weights_ : list Q;
  best_indices_ : list nat
}.

(** [genetic::find(view, value, index)] *)

Fixpoint find_in_row (row : list nat) (value j : nat) : option nat :=
  match row with
  | [] => None
  | x :: row' => if x =? value then Some j else find_in_row row' value (S j)
  end.

Fixpoint find_from (view : Grid) (value i : nat) : option (nat * nat) :=
  match view with
  | [] => None
  | row :: view' =>
      match find_in_row row value 0 with
      | Some j => Some (i, j)
      | None => find_from view' value (S i)
      end
  end.

(** Modelled from the spec: [genetic::find] of [Utility.hpp], which is not
    among the sources. The crossover "looks up the cell position in parent A
    where that duplicate value resides": [find view value] is the position of
    [value] in [view] (the first one in row-major order), or [None] when the
    value does not occur. *)
Definition find (view : Grid) (value : nat) : option (nat * nat) :=
  find_from view value 0.

Section Model.
Context `{Collaborators}.

(** [nslots()] is [current_schedules_.extent(1)], [nrooms()] is
    [current_schedules_.extent(2)]; both are fixed by [initialize_schedules]. *)
Definition nslots : nat := ntimeslots_.
Definition nrooms : nat := rooms_size.

Definition nschedules (s : Scheduler) : nat := length (current_schedules_ s).

(** *** [initialize_schedules] *)

(** [std::shuffle(first, last, rng_)], as the exchange loop
    [for (i = n-1; i > 0; --i) swap(a[i], a[uniform(0, i)])]. *)
Definition shuffle (numbers : list nat) : M (list nat) :=
  foldl (λ m i, a ← m ; k ← rand (i + 1) ; mret (swap_list a i k))
        (mret numbers) (reverse (seq 1 (length numbers - 1))).

(** The copy loop [h_schedules(sc, sl, r) = numbers[ind]; ind++]. *)
Definition fill_schedule (numbers : list nat) (g : Grid) : Grid :=
  fst (for_loop 0 nslots (λ sl,
         for_loop 0 nrooms (λ r '(g, ind),
           (set2 g sl r (default 0 (numbers !! ind)), ind + 1)))
       (g, 0)).

(** A freshly allocated (zero-initialised) schedule. *)
Definition zero_schedule : Grid := replicate nslots (replicate nrooms 0).

Definition initialize_schedules (n : nat) : M Scheduler :=
  let numbers := seq 0 (nrooms * nslots) in
  '(_, h_schedules) ←
    for_loopM 0 n (λ sc '(numbers, h),
      numbers ← shuffle numbers ;
      mret (numbers, alter (fill_schedule numbers) sc h))
      (numbers, replicate n zero_schedule) ;
  mret {| current_schedules_ := h_schedules;
         next_schedules_ := replicate n zero_schedule;
         ratings_ := replicate n 0%Q;
         weights_ := replicate n 0%Q;
         best_indices_ := replicate n 0 |}.

(** *** [fix_schedules] *)

Definition order_cell (sl1 r1 sl2 r2 : nat) (g : Grid) : Grid :=
  if mini_size <=? at2 g sl2 r2 then g
  else if breaks_ordering (at2 g sl1 r1) (at2 g sl2 r2)
       then swap_cells g sl1 r1 sl2 r2
       else g.

Definition order_from (sl1 r1 : nat) (g : Grid) : Grid :=
  if mini_size <=? at2 g sl1 r1 then g
  else for_loop (sl1 + 1) nslots (λ sl2,
         for_loop 0 nrooms (λ r2, order_cell sl1 r1 sl2 r2)) g.

Definition ordering_pass (g : Grid) : Grid :=
  for_loop 0 nslots (λ sl1, for_loop 0 nrooms (λ r1, order_from sl1 r1)) g.

Definition priority_cell (sl j : nat) (g : Grid) : Grid :=
  let m1 := at2 g sl j in
  let m2 := at2 g sl (j + 1) in
  if mini_size <=? m2 then g
  else if (mini_size <=? m1) || higher_priority m2 m1
       then swap_cells g sl j sl (j + 1)
       else g.

Definition priority_pass (g : Grid) : Grid :=
  for_loop 0 nslots (λ sl,
    for_loop 1 nrooms (λ i,
      for_loop 0 (nrooms - i) (λ j, priority_cell sl j))) g.

(** The body of the parallel loop of [fix_schedules] for one schedule. *)
Definition fix_schedule (g : Grid) : Grid := priority_pass (ordering_pass g).

Definition fix_schedules (s : Scheduler) : Scheduler :=
  {| current_schedules_ := map fix_schedule (current_schedules_ s);
     next_schedules_ := next_schedules_ s;
     ratings_ := ratings_ s;
     weights_ := weights_ s;
     best_indices_ := best_indices_ s |}.

(** *** [rate_schedules] and [sort_on_ratings] *)

(** One compare-and-exchange of the ranking loop, on [best_indices_] and the
    host mirror [h_ratings] of the ratings. *)
Definition sort_cell (j : nat) (st : list nat * list Q) : list nat * list Q :=
  let '(bi, h) := st in
  match h !! j, h !! (j + 1) with
  | Some a, Some b =>
      if Qltb a b then (swap_list bi j (j + 1), swap_list h j (j + 1)) else st
  | _, _ => st
  end.

Definition sort_loops (n : nat) (st : list nat * list Q) : list nat * list Q :=
  for_loop 0 n (λ i, for_loop 0 (n - i - 1) sort_cell) st.

(** [sort_on_ratings]: the new [best_indices_] and the returned value
    [h_ratings[n-1]] (an access outside the view when [n = 0]). *)
Definition sort_on_ratings (s : Scheduler) : Res (list nat * Q) :=
  let n := length (best_indices_ s) in
  let '(bi, h) := sort_loops n (seq 0 n, ratings_ s) in
  if n =? 0 then Undefined
  else match h !! (n - 1) with
       | Some x => Done (bi, x)
       | None => Undefined
       end.

(** [h_ratings] when [sort_on_ratings] returns. It is
    [Kokkos::create_mirror_view(ratings_)], which for a view in host memory
    (where [best_indices_] lives, and where the ranking loop reads it) is
    [ratings_] itself: the exchanges of the ranking loop sort [ratings_] in
    place. *)
Definition sorted_ratings (s : Scheduler) : list Q :=
  let n := length (best_indices_ s) in
  (sort_loops n (seq 0 n, ratings_ s)).2.

(** [rate_schedules]: the kernel writes [ratings_[sc]] for every schedule,
    then [sort_on_ratings] ranks the candidates and leaves [ratings_]
    sorted. *)
Definition rate_schedules (s : Scheduler) : Res (Q * Scheduler) :=
  let s1 := {| current_schedules_ := current_schedules_ s;
               next_schedules_ := next_schedules_ s;
               ratings_ := map rate_schedule (current_schedules_ s);
               weights_ := weights_ s;
               best_indices_ := best_indices_ s |} in
  '(bi, best) ← sort_on_ratings s1 ;
  mret (best, {| current_schedules_ := current_schedules_ s1;
                 next_schedules_ := next_schedules_ s1;
                 ratings_ := sorted_ratings s1;
                 weights_ := weights_ s1;
                 best_indices_ := bi |}).

(** *** [compute_weights] *)

(** The three kernels of [compute_weights]. The last one evaluates
    [weights_[i] / weight_sum] and drops the quotient. The differences are
    exact here and rounded in the code; both are 0 for a rating equal to the
    minimum and positive otherwise. *)
Definition weights_of (ratings : list Q) : list Q :=
  let worst_score := min_element ratings in
  let weights := map (λ r, (r - worst_score)%Q) ratings in
  let weight_sum := Qsum weights in
  for_loop 0 (length ratings)
    (λ i w, let _ := (default 0%Q (w !! i) / weight_sum)%Q in w) weights.

Definition compute_weights (s : Scheduler) : Scheduler :=
  {| current_schedules_ := current_schedules_ s;
     next_schedules_ := next_schedules_ s;
     ratings_ := ratings_ s;
     weights_ := weights_of (ratings_ s);
     best_indices_ := best_indices_ s |}.

(** *** [get_parent] *)

(** The roulette walk for a draw [r]: [weights] is [weights_] (of extent
    [nschedules()]) from index [sc] on, [sum] the running sum so far; the
    result is the initial [unsigned(-1)] when the loop ends without a
    [break]. The running sum is exact here; the code rounds every partial
    sum to a [double]. *)
Fixpoint get_parent_from (r sum : Q) (sc : nat) (weights : list Q) : N :=
  match weights with
  | [] => UINT_MAX
  | w :: weights' =>
      let sum := (sum + w)%Q in
      if Qltb r sum then N.of_nat sc
      else get_parent_from r sum (S sc) weights'
  end.

Definition get_parent_at (r : Q) (weights : list Q) : N :=
  get_parent_from r 0%Q 0 weights.

Definition get_parent (s : Scheduler) : M N :=
  r ← drand ; mret (get_parent_at r (weights_ s)).

(** *** [breed] *)

(** [Kokkos::subview(mom, Kokkos::ALL(), pair(0, end_index))]. *)
Definition mom_genes_of (mom : Grid) (end_index : nat) : Grid :=
  map (take end_index) mom.

(** [while (find(mom_genes, dad(current_index), new_index))
       current_index = new_index;] *)
Fixpoint chase (fuel : nat) (mom_genes dad : Grid) (current_index : nat * nat)
  : Res (nat * nat) :=
  match fuel with
  | 0 => OutOfFuel
  | S fuel' =>
      match find mom_genes (at2 dad current_index.1 current_index.2) with
      | Some new_index => chase fuel' mom_genes dad new_index
      | None => Done current_index
      end
  end.

(** The first pair of loops of [breed]: [child(i, j) = mom(i, j)], with
    [mom_genes.extent(0)] the timeslot count. *)
Definition copy_mom (mom : Grid) (end_index : nat) (child : Grid) : Grid :=
  for_loop 0 nslots (λ i,
    for_loop 0 end_index (λ j child, set2 child i j (at2 mom i j))) child.

(** One iteration of the second pair of loops of [breed]. *)
Definition fill_cell (fuel : nat) (mom_genes dad : Grid) (r c : nat)
    (child : Grid) : Res Grid :=
  current_index ← chase fuel mom_genes dad (r, c) ;
  mret (set2 child r c (at2 dad current_index.1 current_index.2)).

(** The second pair of loops: [child.extent(0)] is the timeslot count and
    [child.extent(1)] the room count. *)
Definition fill_dad (fuel : nat) (mom dad : Grid) (end_index : nat)
    (child : Grid) : Res Grid :=
  let mom_genes := mom_genes_of mom end_index in
  for_loopM 0 nslots (λ r,
    for_loopM end_index nrooms (λ c, fill_cell fuel mom_genes dad r c))
    child.

(** [breed] once [end_index] has been drawn: [child] is the previous content
    of the slot of [next_schedules_] that is overwritten. *)
Definition breed_at (fuel : nat) (mom dad : Grid) (end_index : nat)
    (child : Grid) : Res Grid :=
  fill_dad fuel mom dad end_index (copy_mom mom end_index child).

(** A read of [view[i]] for an [unsigned] index. *)
Definition read {A} (l : list A) (i : N) : M A :=
  if (i <? N.of_nat (length l))%N
  then match l !! N.to_nat i with Some a => mret a | None => undefined end
  else undefined.

Definition set_next (s : Scheduler) (next : list Grid) : Scheduler :=
  {| current_schedules_ := current_schedules_ s;
     next_schedules_ := next;
     ratings_ := ratings_ s;
     weights_ := weights_ s;
     best_indices_ := best_indices_ s |}.

(** [breed(mom_index, dad_index, child_index)]. The local [nslots] of the
    source is [current_schedules_.extent(2)], the room count. *)
Definition breed (fuel : nat) (mom_index dad_index : N) (child_index : nat)
    (s : Scheduler) : M Scheduler :=
  mom ← read (current_schedules_ s) mom_index ;
  dad ← read (current_schedules_ s) dad_index ;
  child ← read (next_schedules_ s) (N.of_nat child_index) ;
  let nslots := nrooms in
  end_index ← rand nslots ;
  child ← lift (breed_at fuel mom dad end_index child) ;
  mret (set_next s (<[child_index := child]> (next_schedules_ s))).

(** *** [breed_population] *)

(** [while (pid2 == pid1) pid2 = get_parent();] *)
Fixpoint redraw_parent (fuel : nat) (s : Scheduler) (pid1 pid2 : N) : M N :=
  if (pid2 =? pid1)%N then
    match fuel with
    | 0 => out_of_fuel
    | S fuel' => pid2 ← get_parent s ; redraw_parent fuel' s pid1 pid2
    end
  else mret pid2.

(** The elite copy loop. *)
Definition copy_elite (i : nat) (s : Scheduler) : M Scheduler :=
  index ← read (best_indices_ s) (N.of_nat i) ;
  src ← read (current_schedules_ s) (N.of_nat index) ;
  _ ← read (next_schedules_ s) (N.of_nat i) ;
  mret (set_next s (<[i := src]> (next_schedules_ s))).

(** The body of the "Breeding" kernel. *)
Definition breed_child (fuel : nat) (i : nat) (s : Scheduler) : M Scheduler :=
  pid1 ← get_parent s ;
  pid2 ← redraw_parent fuel s pid1 pid1 ;
  breed fuel pid1 pid2 i s.

Definition breed_population (fuel : nat) (eliteSize : nat) (s : Scheduler)
  : M Scheduler :=
  s ← for_loopM 0 eliteSize copy_elite s ;
  for_loopM eliteSize (nschedules s) (breed_child fuel) s.

(** *** [mutate_population] *)

(** [while (sl2 == sl) sl2 = gen.rand(nslots());] *)
Fixpoint redraw_slot (fuel : nat) (sl sl2 : nat) : M nat :=
  if sl2 =? sl then
    match fuel with
    | 0 => out_of_fuel
    | S fuel' => sl2 ← rand nslots ; redraw_slot fuel' sl sl2
    end
  else mret sl2.

Definition mutate_cell (fuel : nat) (mutationRate : Q) (sl r : nat) (g : Grid)
  : M Grid :=
  d ← drand ;
  if Qltb d mutationRate then
    sl2 ← redraw_slot fuel sl sl ;
    mret (swap_cells g sl r sl2 r)
  else mret g.

Definition mutate_schedule (fuel : nat) (mutationRate : Q) (g : Grid) : M Grid :=
  for_loopM 0 nslots (λ sl,
    for_loopM 0 nrooms (λ r, mutate_cell fuel mutationRate sl r)) g.

(** The body of the "Mutations" kernel for schedule [sc]. *)
Definition mutate_one (fuel : nat) (mutationRate : Q) (sc : nat)
    (s : Scheduler) : M Scheduler :=
  if sc =? 0 then mret s
  else
    g ← read (next_schedules_ s) (N.of_nat sc) ;
    g ← mutate_schedule fuel mutationRate g ;
    mret (set_next s (<[sc := g]> (next_schedules_ s))).

Definition mutate_population (fuel : nat) (mutationRate : Q) (s : Scheduler)
  : M Scheduler :=
  for_loopM 0 (nschedules s) (mutate_one fuel mutationRate) s.

(** *** [run_genetic] *)

(** [std::swap(current_schedules_, next_schedules_)]. *)
Definition swap_generations (s : Scheduler) : Scheduler :=
  {| current_schedules_ := next_schedules_ s;
     next_schedules_ := current_schedules_ s;
     ratings_ := ratings_ s;
     weights_ := weights_ s;
     best_indices_ := best_indices_ s |}.

(** One iteration of the driver loop; the flag is [false] on [break]. *)
Definition generation (fuel eliteSize : nat) (mutationRate : Q) (s : Scheduler)
  : M (bool * Scheduler) :=
  '(best_rating, s) ← lift (rate_schedules s) ;
  if Qeq_bool best_rating 1 then mret (false, s)
  else
    let s := compute_weights s in
    s ← breed_population fuel eliteSize s ;
    s ← mutate_population fuel mutationRate s ;
    let s := swap_generations s in
    mret (true, fix_schedules s).

Fixpoint generations_loop (fuel eliteSize : nat) (mutationRate : Q)
    (generations : nat) (s : Scheduler) : M Scheduler :=
  match generations with
  | 0 => mret s
  | S generations' =>
      '(continue, s) ← generation fuel eliteSize mutationRate s ;
      if continue : bool
      then generations_loop fuel eliteSize mutationRate generations' s
      else mret s
  end.

Definition run_genetic (fuel popSize eliteSize : nat) (mutationRate : Q)
    (generations : nat) : M Scheduler :=
  s ← initialize_schedules popSize ;
  generations_loop fuel eliteSize mutationRate generations (fix_schedules s).

End Model.

(** ** Reporting *)

(** [DBL_MAX], the largest finite [double]. *)
Definition DBL_MAX : Q := inject_Z (2 ^ 1024 - 2 ^ 971).

(** [Kokkos::MaxLoc<double,unsigned>::value_type]. *)
Record maxloc_type : Type := { val : Q; loc : N }.

(** What [record] and [print_schedule] write to their stream, one
    constructor per piece of text; the titles, themes, priorities and room
    names come from the collaborators and are referred to by identifier. *)
Inductive Line : Type :=
| ScoreLine (score : Q)
| SlotHeader (slot : nat)
| SessionRow (mid room : nat)
| BlankLine
| SlotLine (slot : nat)
| SessionLine (mid : nat).

(** The sessions a report lists, in the order of the text. *)
Definition session_of (line : Line) : option nat :=
  match line with
  | SessionRow mid _ | SessionLine mid => Some mid
  | _ => None
  end.

Definition sessions (out : list Line) : list nat := omap session_of out.

(** The timeslots a report announces, in the order of the text. *)
Definition slot_of_header (line : Line) : option nat :=
  match line with
  | SlotHeader slot | SlotLine slot => Some slot
  | _ => None
  end.

Definition slot_headers (out : list Line) : list nat :=
  omap slot_of_header out.

Section Reporting.
Context `{Collaborators}.

(** The lambda of the three "Finding best schedule" reductions. *)
Definition maxloc_step (s : Scheduler) (i : nat) (lmaxloc : maxloc_type)
  : Res maxloc_type :=
  match ratings_ s !! i with
  | Some x =>
      if Qltb (val lmaxloc) x
      then mret {| val := x; loc := N.of_nat i |}
      else mret lmaxloc
  | None => Undefined
  end.

(** [Kokkos::parallel_reduce(nschedules(), lambda, MaxLoc(maxloc))], run
    in index order from the identity of the reducer: the value [-DBL_MAX]
    and the location [unsigned(-1)]. *)
Definition find_best_schedule (s : Scheduler) : Res maxloc_type :=
  for_loopM 0 (nschedules s) (maxloc_step s)
    {| val := - DBL_MAX; loc := UINT_MAX |}.

(** [print_best_schedule]: the score it prints. *)
Definition print_best_schedule (s : Scheduler) : Res Q :=
  maxloc ← find_best_schedule s ; mret (val maxloc).

(** [get_best_schedule]: the subview at [maxloc.loc]. *)
Definition get_best_schedule (s : Scheduler) : M Grid :=
  maxloc ← lift (find_best_schedule s) ;
  read (current_schedules_ s) (loc maxloc).

(** [record(filename)]: the text written to the file. *)
Definition record (s : Scheduler) : M (list Line) :=
  maxloc ← lift (find_best_schedule s) ;
  let sc := loc maxloc in
  let fout := [ScoreLine (val maxloc)] in
  for_loopM 0 nslots (λ slot fout,
    let fout := fout ++ [SlotHeader slot] in
    fout ← for_loopM 0 nrooms (λ room fout,
              h_current_schedules ← read (current_schedules_ s) sc ;
              let mid := at2 h_current_schedules slot room in
              if mid <? mini_size
              then mret (fout ++ [SessionRow mid room])
              else mret fout) fout ;
    mret (fout ++ [BlankLine])) fout.

(** [print_schedule(sc)]: the text written to [std::cout]. *)
Definition print_schedule (sc : N) (s : Scheduler) : M (list Line) :=
  for_loopM 0 nslots (λ slot cout,
    let cout := cout ++ [SlotLine slot] in
    for_loopM 0 nrooms (λ room cout,
      h_current_schedules ← read (current_schedules_ s) sc ;
      let mid := at2 h_current_schedules slot room in
      if mid <? mini_size
      then mret (cout ++ [SessionLine mid])
      else mret cout) cout) [].

End Reporting.

(** * [Mapper.hpp]: rating a mapping of lectures to sessions *)

Module Mapper.

(** The collaborators of [Mapper]: [lectures_] and [minisymposia_]. *)
Class Conference : Type := {
  (** [minisymposia_.size()] *)
  minisymposia_size : nat;
  (** [lectures_.size()] *)
  lectures_size : nat;
  (** [lectures_.topic_cohesion_score(minisymposia_, i, lid)] *)
  mini_cohesion : nat → nat → Q;
  (** [lectures_.topic_cohesion_score(lid1, lid2)] *)
  pair_cohesion : nat → nat → Q;
  (** [minisymposia_.get(m).talks().size()] *)
  talks_size : nat → nat
}.

(** What [record] writes, cell by cell; the titles and class codes come
    from the collaborators and are referred to by index. *)
Inductive Cell : Type :=
| TableHeader
| SessionTitle (m : nat)
| TalkCell (m i : nat)
| LectureCell (lid : nat)
| EmptyCell
| ContributedTitle (i : nat)
| EndRow.

(** [unsigned] addition. *)
Definition uadd (x y : N) : N := ((x + y) mod 2 ^ 32)%N.

(** [score += d] for an [unsigned] score and a [double] [d] that holds a
    natural number: the sum is formed in [double] and converted back, which
    is undefined when it does not fit. *)
Definition add_double (score d : N) : Res N :=
  if (score + d <? 2 ^ 32)%N then Done (score + d)%N else Undefined.

(** [mapping(i)] for a 1-D view of extent [length mapping]. *)
Definition gene (mapping : list nat) (i : nat) : Res nat :=
  match mapping !! i with
  | Some lid => Done lid
  | None => Undefined
  end.

(** [for (i = lo; i + ahead < hi; i += 5) body(i)]; [fuel] bounds the
    number of turns. *)
Fixpoint for_blocks {St} (fuel ahead i hi : nat) (body : nat → St → Res St)
    (s : St) : Res St :=
  if i + ahead <? hi then
    match fuel with
    | 0 => OutOfFuel
    | S fuel' => s ← body i s ; for_blocks fuel' ahead (i + 5) hi body s
    end
  else mret s.

Section Model.
Context `{Conference}.

(** [count_full_minisymposia(mapping)]: 25 or 16 for every session, then
    the square of the number of lectures of every whole block of five
    genes. *)
Definition count_full_minisymposia (mapping : list nat) : Res N :=
  let nmini := minisymposia_size in
  let nlectures := lectures_size in
  let ngenes := length mapping in
  score ← for_loopM 0 nmini (λ i score,
             lid ← gene mapping i ;
             if lid <? nlectures then mret (uadd score 25)
             else mret (uadd score 16)) 0%N ;
  for_blocks ngenes 4 nmini ngenes (λ i score,
    nlectures_in_mini ← for_loopM 0 5 (λ j nlectures_in_mini,
        lid ← gene mapping (i + j) ;
        if lid <? nlectures then mret (nlectures_in_mini + 1)
        else mret nlectures_in_mini) 0 ;
    add_double score (N.of_nat (nlectures_in_mini ^ 2))) score.

(** [topic_cohesion_score(mapping)]. *)
Definition topic_cohesion_score (mapping : list nat) : Res Q :=
  let nmini := minisymposia_size in
  let nlectures := lectures_size in
  let ngenes := length mapping in
  score ← for_loopM 0 nmini (λ i score,
             lid ← gene mapping i ;
             if lid <? nlectures then mret (score + mini_cohesion i lid)%Q
             else mret score) 0%Q ;
  for_blocks ngenes 4 nmini ngenes (λ i score,
    for_loopM 0 5 (λ j score,
      lid_j ← gene mapping (i + j) ;
      if nlectures <=? lid_j then mret score
      else for_loopM (j + 1) 5 (λ k score,
             lid_k ← gene mapping (i + k) ;
             if lid_k <? nlectures
             then mret (score + pair_cohesion lid_j lid_k / 12)%Q
             else mret score) score) score) score.

(** [record(filename, mapping)]: the cells written to the file, row by
    row. *)
Definition record (mapping : list nat) : Res (list Cell) :=
  let nmini := minisymposia_size in
  let nlectures := lectures_size in
  let ngenes := length mapping in
  fout ← for_loopM 0 nmini (λ m fout,
      let fout := fout ++ [SessionTitle m] in
      let fout := for_loop 0 (talks_size m)
                    (λ i fout, fout ++ [TalkCell m i]) fout in
      let i := talks_size m in
      lid ← gene mapping m ;
      let '(fout, i) :=
        if lid <? nlectures then (fout ++ [LectureCell lid], i + 1)
        else (fout, i) in
      let fout := for_loop i 5 (λ _ fout, fout ++ [EmptyCell]) fout in
      mret (fout ++ [EndRow])) [TableHeader] ;
  '(fout, _) ← for_blocks ngenes 0 nmini ngenes (λ m '(fout, i),
      let fout := fout ++ [ContributedTitle (i + 1)] in
      fout ← for_loopM 0 5 (λ j fout,
                lid ← gene mapping (m + j) ;
                if lid <? nlectures then mret (fout ++ [LectureCell lid])
                else mret (fout ++ [EmptyCell])) fout ;
      mret (fout ++ [EndRow], i + 1)) (fout, 0) ;
  mret fout.

(** [rate(mapping)]. *)
Definition rate (mapping : list nat) : Res Q :=
  let fullness_weight := 1%Q in
  let cohesion_weight := 5%Q in
  nfull ← count_full_minisymposia mapping ;
  cohesion ← topic_cohesion_score mapping ;
  mret (fullness_weight * inject_Z (Z.of_N nfull)
        + cohesion_weight * cohesion)%Q.

End Model.

(** The number of whole blocks of five genes after the sessions. *)
Definition nblocks `{Conference} (mapping : list nat) : nat :=
  (length mapping - minisymposia_size) / 5.

(** The genes the rating looks at. *)
Definition rated_genes `{Conference} (mapping : list nat) : nat :=
  minisymposia_size + 5 * nblocks mapping.

(** Gene [i] holds a lecture. *)
Definition filled `{Conference} (mapping : list nat) (i : nat) : bool :=
  match mapping !! i with
  | Some lid => lid <? lectures_size
  | None => false
  end.

(** The lectures of block [b]. *)
Definition block_count `{Conference} (mapping : list nat) (b : nat) : nat :=
  length (filter (λ j, filled mapping (minisymposia_size + 5 * b + j) = true)
                 (seq 0 5)).

(** The fullness score, term by term. *)
Definition fullness `{Conference} (mapping : list nat) : nat :=
  sum_list_with (λ i, if filled mapping i then 25 else 16)
                (seq 0 minisymposia_size) +
  sum_list_with (λ b, block_count mapping b ^ 2) (seq 0 (nblocks mapping)).

End Mapper.


(** * Specification predicates *)

(** The cells [(slot, room)] of a view of extents [ns × nr], row by row. *)
Definition cells (ns nr : nat) : list (nat * nat) :=
  cprod (seq 0 ns) (seq 0 nr).

(** The position reached from [p] after [k] turns of the duplicate-chasing
    loop whose one turn is [step]. *)
Inductive chain (step : nat * nat → option (nat * nat))
  : nat → nat * nat → nat * nat → Prop :=
| chain_here p : chain step 0 p p
| chain_next k p p1 q :
    step p = Some p1 → chain step k p1 q → chain step (S k) p q.

(** One turn of the loop of [breed]: where [dad]'s value at [p] sits in the
    copied region, if it does. *)
Definition chase_step (mom_genes dad : Grid) (p : nat * nat)
  : option (nat * nat) :=
  find mom_genes (at2 dad p.1 p.2).

(** Progress of a pair of loops that writes the rooms [[lo, hi)] of every
    timeslot, row by row: the cells before [(r, c)] hold what [P] asks. *)
Definition written (P : nat → nat → nat → Prop) (lo hi r c : nat) (g : Grid)
  : Prop :=
  ∀ i j, lo ≤ j < hi → i < r ∨ (i = r ∧ j < c) → P i j (at2 g i j).

(** The population phases write [next_schedules_] only. *)
Definition frame (s s' : Scheduler) : Prop :=
  current_schedules_ s' = current_schedules_ s ∧
  ratings_ s' = ratings_ s ∧
  weights_ s' = weights_ s ∧
  best_indices_ s' = best_indices_ s ∧
  length (next_schedules_ s') = length (next_schedules_ s).

(** Progress of an exchange sort over [n] keys: from position [m] on, every
    key is in order with all the keys before it ([sw a b] tells that the
    adjacent keys [a], [b] are exchanged). *)
Definition sorted_from {St K} (key : St → nat → K) (sw : K → K → bool)
    (n m : nat) (s : St) : Prop :=
  ∀ a b, a < b → b < n → m ≤ b → sw (key s a) (key s b) = false.

(** What the ranking loops keep true of [best_indices_] and the host mirror of
    the ratings: [bi] lists the candidates, [h] their ratings. *)
Definition ranking (ratings : list Q) (n : nat) (st : list nat * list Q)
  : Prop :=
  length st.1 = n ∧ length st.2 = n ∧ st.1 ≡ₚ seq 0 n ∧
  ∀ j i, st.1 !! j = Some i → st.2 !! j = ratings !! i.

(** The rating at position [j] of the host mirror. *)
Definition rating_key (st : list nat * list Q) (j : nat) : Q :=
  default 0%Q (st.2 !! j).

Section Specification.
Context `{Collaborators}.

(** The central invariant: a schedule of the right extents in which every
    identifier of [[0, nslots * nrooms)] occurs exactly once. *)
Definition perm_grid (g : Grid) : Prop :=
  shape nslots nrooms g ∧ concat g ≡ₚ seq 0 (nslots * nrooms).

(** The ordering constraint: no two occupied cells in different timeslots
    break the ordering. *)
Definition ordering_ok (g : Grid) : Prop :=
  ∀ sl1 r1 sl2 r2,
    sl1 < sl2 → sl2 < nslots → r1 < nrooms → r2 < nrooms →
    at2 g sl1 r1 < mini_size → at2 g sl2 r2 < mini_size →
    breaks_ordering (at2 g sl1 r1) (at2 g sl2 r2) = false.

(** The test of the priority pass on the contents [m1], [m2] of two
    adjacent rooms: [m2] is a session, and [m1] is empty or of lower
    priority. *)
Definition priority_swaps (m1 m2 : nat) : bool :=
  negb (mini_size <=? m2) && ((mini_size <=? m1) || higher_priority m2 m1).

(** The within-slot priority constraint: no two adjacent rooms of a
    timeslot are to be exchanged. *)
Definition priority_ok (g : Grid) : Prop :=
  ∀ sl j, sl < nslots → j + 1 < nrooms →
          priority_swaps (at2 g sl j) (at2 g sl (j + 1)) = false.

(** Progress of the ordering pass: the cells before [(sl1, r1)] do not
    break the ordering with any cell of a later timeslot. *)
Definition settled (sl1 r1 : nat) (g : Grid) : Prop :=
  ∀ s r s2 r2,
    s < sl1 ∨ (s = sl1 ∧ r < r1) → r < nrooms →
    s < s2 → s2 < nslots → r2 < nrooms →
    at2 g s r < mini_size → at2 g s2 r2 < mini_size →
    breaks_ordering (at2 g s r) (at2 g s2 r2) = false.

(** Progress of the scan for the cell [(sl1, r1)]: it does not break the
    ordering with the cells of later timeslots before [(sl2, r2)]. *)
Definition scanned (sl1 r1 sl2 r2 : nat) (g : Grid) : Prop :=
  ∀ s r,
    sl1 < s → s < sl2 ∨ (s = sl2 ∧ r < r2) → r < nrooms →
    at2 g s r < mini_size →
    breaks_ordering (at2 g sl1 r1) (at2 g s r) = false.

(** [g'] holds in every timeslot sessions that [g] holds in that timeslot. *)
Definition same_rows (g g' : Grid) : Prop :=
  shape nslots nrooms g' ∧
  ∀ sl r, sl < nslots → r < nrooms →
          ∃ r', r' < nrooms ∧ at2 g' sl r = at2 g sl r'.

End Specification.

(** ** Timeslots, rooms and reports *)

(** Candidates with equal ratings stand in index order. *)
Definition stable (st : list nat * list Q) : Prop :=
  ∀ a b ia ib,
    a < b → st.1 !! a = Some ia → st.1 !! b = Some ib →
    (rating_key st a == rating_key st b)%Q → ia < ib.

(** The ordering the priority pass always establishes, whatever the
    priorities: [placeholder_first a b] tells that the first of two rooms
    holds a placeholder and the second a session. *)
Definition placeholder_first (a b : bool) : bool := a && negb b.

Section SpecificationMore.
Context `{Collaborators}.
Implicit Types (g : Grid).

(** The identifiers of timeslot [sl], room by room. *)
Definition slot_of g (sl : nat) : list nat :=
  map (at2 g sl) (seq 0 nrooms).

(** The identifiers of room [r], timeslot by timeslot. *)
Definition room_of g (r : nat) : list nat :=
  map (λ sl, at2 g sl r) (seq 0 nslots).

(** The number of sessions (identifiers below [mini_.size()]) that timeslot
    [sl] holds. *)
Definition slot_load g (sl : nat) : nat :=
  length (filter (λ x, x < mini_size) (slot_of g sl)).

(** [g'] differs from [g] by exchanges of sessions: an empty cell keeps its
    placeholder, a session cell keeps holding a session. *)
Definition same_sessions g g' : Prop :=
  shape nslots nrooms g' ∧
  ∀ sl r, (mini_size ≤ at2 g sl r → at2 g' sl r = at2 g sl r) ∧
          (at2 g sl r < mini_size → at2 g' sl r < mini_size).

(** [g'] holds in every timeslot the identifiers [g] holds in it. *)
Definition same_slots g g' : Prop :=
  shape nslots nrooms g' ∧ ∀ sl, slot_of g' sl ≡ₚ slot_of g sl.

(** [g'] holds in every room the identifiers [g] holds in it. *)
Definition same_rooms g g' : Prop :=
  shape nslots nrooms g' ∧ ∀ r, room_of g' r ≡ₚ room_of g r.

(** Whether room [j] of timeslot [sl] holds a placeholder. *)
Definition placeholder_key (sl : nat) g (j : nat) : bool :=
  mini_size <=? at2 g sl j.

(** The five views of the population have the extent [n]. *)
Definition sized (n : nat) (s : Scheduler) : Prop :=
  nschedules s = n ∧ length (next_schedules_ s) = n ∧
  length (ratings_ s) = n ∧ length (weights_ s) = n ∧
  length (best_indices_ s) = n.

(** What the driver loop keeps true of the population between two
    iterations when the repair pass is idempotent: the views have the extent
    [n] and the current schedules are permutation schedules that the repair
    pass leaves as they are. *)
Definition repaired (n : nat) (s : Scheduler) : Prop :=
  sized n s ∧
  Forall perm_grid (current_schedules_ s) ∧
  Forall (shape nslots nrooms) (next_schedules_ s) ∧
  Forall (λ g, fix_schedule g = g) (current_schedules_ s).

(** The rows a report writes for timeslot [slot] of the schedule [g]. *)
Definition slot_rows (entry : nat → nat → Line) g (slot : nat) : list Line :=
  omap (λ room, if at2 g slot room <? mini_size
                then Some (entry (at2 g slot room) room) else None)
       (seq 0 nrooms).


End SpecificationMore.


(** * Concrete inputs *)

(** A tape that replays a list of draws (and zeros afterwards). *)
Definition tape_of (draws : list (Q * nat)) : Tape :=
  λ k, match draws !! k with
       | Some (d, u) => {| as_double := d; as_uint := u |}
       | None => {| as_double := 0; as_uint := 0 |}
       end.

(** Two timeslots, three rooms, four sessions: session 1 must not come
    before session 0, and a smaller identifier has a higher priority. *)
Definition demo : Collaborators :=
  {| mini_size := 4;
     breaks_ordering := λ a b, (a =? 1) && (b =? 0);
     higher_priority := λ a b, a <? b;
     rate_schedule := λ g, (inject_Z (Z.of_nat (at2 g 0 0)) / 10)%Q;
     rooms_size := 3;
     ntimeslots_ := 2 |}.

Definition demo_state : Scheduler :=
  {| current_schedules_ :=
       [[[2; 5; 4]; [0; 1; 3]]; [[0; 3; 5]; [1; 2; 4]];
        [[2; 3; 4]; [0; 1; 5]]; [[0; 3; 5]; [1; 2; 4]]];
     next_schedules_ := replicate 4 [[0; 0; 0]; [0; 0; 0]];
     ratings_ := [2 # 10; 0; 2 # 10; 0]%Q;
     weights_ := [2 # 10; 0; 2 # 10; 0]%Q;
     best_indices_ := [0; 2; 1; 3] |}.

Definition demo_tape : Tape :=
  λ k, {| as_double := if Nat.even k then (1 # 100)%Q else (1 # 4)%Q;
          as_uint := 7 * k + 3 |}.

(** Two timeslots, one room, no constraint. *)
Definition two_slots : Collaborators :=
  {| mini_size := 2;
     breaks_ordering := λ _ _, false;
     higher_priority := λ _ _, false;
     rate_schedule := λ g, if at2 g 0 0 =? 0 then (9 # 10)%Q else (1 # 2)%Q;
     rooms_size := 1;
     ntimeslots_ := 2 |}.

Definition two_slots_state : Scheduler :=
  {| current_schedules_ := [[[0]; [1]]; [[1]; [0]]];
     next_schedules_ := [[[0]; [0]]; [[0]; [0]]];
     ratings_ := [9 # 10; 1 # 2]%Q;
     weights_ := [4 # 10; 0]%Q;
     best_indices_ := [0; 1] |}.

Definition two_slots_tape : Tape :=
  tape_of [(0%Q, 0); (0%Q, 1); ((9 # 10)%Q, 0)].

(** Two candidates rated 1/5 and 1/2, with the weights [compute_weights]
    derives, and the draws 1/2 and 1/10 for the two parents of a child. *)
Definition low_weights_state : Scheduler :=
  {| current_schedules_ := [[[0]; [1]]; [[1]; [0]]];
     next_schedules_ := [[[0]; [0]]; [[0]; [0]]];
     ratings_ := [1 # 5; 1 # 2]%Q;
     weights_ := weights_of [1 # 5; 1 # 2]%Q;
     best_indices_ := [1; 0] |}.

Definition low_weights_tape : Tape :=
  tape_of [((1 # 2)%Q, 0); ((1 # 10)%Q, 0); (0%Q, 0)].

(** Three timeslots, one room, no constraint; the rating looks at the
    session of the first timeslot. *)
Definition three_slots : Collaborators :=
  {| mini_size := 3;
     breaks_ordering := λ _ _, false;
     higher_priority := λ _ _, false;
     rate_schedule := λ g, match at2 g 0 0 with
                           | 0 => (9 # 10)%Q
                           | 1 => (1 # 2)%Q
                           | _ => (1 # 10)%Q
                           end;
     rooms_size := 1;
     ntimeslots_ := 3 |}.

(** Eight draws for the four shuffles of the initialisation, then for each
    of four children the two parent draws and the cut. *)
Definition three_slots_tape : Tape :=
  tape_of ([(0%Q, 2); (0%Q, 1); (0%Q, 2); (0%Q, 0);
            (0%Q, 2); (0%Q, 1); (0%Q, 0); (0%Q, 1)] ++
           [(0%Q, 0); ((9 # 10)%Q, 0); (0%Q, 0);
            (0%Q, 0); ((9 # 10)%Q, 0); (0%Q, 0);
            (0%Q, 0); ((9 # 10)%Q, 0); (0%Q, 0);
            (0%Q, 0); ((9 # 10)%Q, 0); (0%Q, 0)]).

Definition three_slots_state : Scheduler :=
  {| current_schedules_ :=
       [[[0]; [1]; [2]]; [[1]; [0]; [2]]; [[1]; [0]; [2]]; [[2]; [0]; [1]]];
     next_schedules_ := replicate 4 [[0]; [0]; [0]];
     ratings_ := [0; 0; 0; 0]%Q;
     weights_ := [0; 0; 0; 0]%Q;
     best_indices_ := [0; 0; 0; 0] |}.

(** Two timeslots, one room, and contradictory ordering constraints between
    the sessions 0 and 1. *)
Definition cyclic : Collaborators :=
  {| mini_size := 2;
     breaks_ordering := λ a b, (a =? 0) && (b =? 1) || (a =? 1) && (b =? 0);
     higher_priority := λ _ _, false;
     rate_schedule := λ _, 0%Q;
     rooms_size := 1;
     ntimeslots_ := 2 |}.

(** The same contradictory constraints, with a rating that looks at the
    session of the first timeslot. *)
Definition cyclic_rated : Collaborators :=
  {| mini_size := 2;
     breaks_ordering := λ a b, (a =? 0) && (b =? 1) || (a =? 1) && (b =? 0);
     higher_priority := λ _ _, false;
     rate_schedule := λ g, if at2 g 0 0 =? 0 then (9 # 10)%Q else (1 # 2)%Q;
     rooms_size := 1;
     ntimeslots_ := 2 |}.

(** Two timeslots, two rooms, four sessions, no constraint; the rating
    looks at the session of the first cell. *)
Definition plain : Collaborators :=
  {| mini_size := 4;
     breaks_ordering := λ _ _, false;
     higher_priority := λ _ _, false;
     rate_schedule := λ g, (inject_Z (Z.of_nat (at2 g 0 0)) / 10)%Q;
     rooms_size := 2;
     ntimeslots_ := 2 |}.

(** Six draws for the two shuffles of the initialisation, then the draws
    1/2 and 1/10 for the two parents of the one child, and the draw of its
    cut. *)
Definition selection_tape : Tape :=
  tape_of ([(0%Q, 0); (0%Q, 2); (0%Q, 1); (0%Q, 0); (0%Q, 2); (0%Q, 1)] ++
           [((1 # 2)%Q, 0); ((1 # 10)%Q, 0); (0%Q, 1)]).

(** Two timeslots, three rooms, no constraint. *)
Definition wide : Collaborators :=
  {| mini_size := 6;
     breaks_ordering := λ _ _, false;
     higher_priority := λ _ _, false;
     rate_schedule := λ _, 0%Q;
     rooms_size := 3;
     ntimeslots_ := 2 |}.

Definition wide_state : Scheduler :=
  {| current_schedules_ := [[[0; 1; 2]; [3; 4; 5]]; [[1; 0; 5]; [4; 3; 2]]];
     next_schedules_ := [[[0; 0; 0]; [0; 0; 0]]];
     ratings_ := [0; 0]%Q;
     weights_ := [0; 0]%Q;
     best_indices_ := [0; 1] |}.

(** The state a phase returns, for the concrete runs below. *)
Definition done_state (d : Scheduler) (r : Res (Scheduler * nat)) : Scheduler :=
  match r with
  | Done (s, _) => s
  | _ => d
  end.

Definition demo_bred : Scheduler :=
  Eval vm_compute in
    done_state demo_state
      (breed_population (H := demo) 6 1 demo_state demo_tape 0).

Definition demo_mutated : Scheduler :=
  Eval vm_compute in
    done_state demo_state
      (mutate_population (H := demo) 6 (1 # 10) demo_bred demo_tape 9).

Definition two_slots_bred : Scheduler :=
  Eval vm_compute in
    done_state two_slots_state
      (breed_population (H := two_slots) 1 2 two_slots_state two_slots_tape 0).

Definition two_slots_mutated : Scheduler :=
  Eval vm_compute in
    done_state two_slots_state
      (mutate_population (H := two_slots) 1 (1 # 2) two_slots_bred
         two_slots_tape 0).

Definition three_slots_next : Scheduler :=
  Eval vm_compute in
    match generation (H := three_slots) 3 1 0 three_slots_state
            three_slots_tape 8 with
    | Done ((_, s), _) => s
    | _ => three_slots_state
    end.

(** The same candidates with the first two exchanged, so that the ranking
    differs from the candidate order, and the population one iteration of
    the driver loop makes of them. *)
Definition three_slots_unranked : Scheduler :=
  {| current_schedules_ :=
       [[[1]; [0]; [2]]; [[0]; [1]; [2]]; [[1]; [0]; [2]]; [[2]; [0]; [1]]];
     next_schedules_ := replicate 4 [[0]; [0]; [0]];
     ratings_ := [0; 0; 0; 0]%Q;
     weights_ := [0; 0; 0; 0]%Q;
     best_indices_ := [0; 0; 0; 0] |}.

Definition three_slots_unranked_next : Scheduler :=
  Eval vm_compute in
    match generation (H := three_slots) 3 1 0 three_slots_unranked
            three_slots_tape 8 with
    | Done ((_, s), _) => s
    | _ => three_slots_unranked
    end.

(** The populations [run_genetic] returns for [three_slots] with four
    candidates and one elite candidate, after no and after one generation. *)
Definition three_slots_initial : Scheduler :=
  Eval vm_compute in
    done_state three_slots_state
      (run_genetic (H := three_slots) 3 4 1 0 0 three_slots_tape 0).

Definition three_slots_first : Scheduler :=
  Eval vm_compute in
    done_state three_slots_state
      (run_genetic (H := three_slots) 3 4 1 0 1 three_slots_tape 0).

(** A population of three schedules for the collaborators [wide], whose
    rating is constant. *)
Definition wide_population : Scheduler :=
  {| current_schedules_ :=
       [[[0; 1; 2]; [3; 4; 5]]; [[1; 0; 5]; [4; 3; 2]];
        [[5; 4; 3]; [2; 1; 0]]];
     next_schedules_ := replicate 3 [[0; 0; 0]; [0; 0; 0]];
     ratings_ := [0; 0; 0]%Q;
     weights_ := [0; 0; 0]%Q;
     best_indices_ := [0; 0; 0] |}.

(** One timeslot, two rooms, no constraint. *)
Definition one_slot : Collaborators :=
  {| mini_size := 2;
     breaks_ordering := λ _ _, false;
     higher_priority := λ _ _, false;
     rate_schedule := λ _, 0%Q;
     rooms_size := 2;
     ntimeslots_ := 1 |}.

Definition one_slot_state : Scheduler :=
  {| current_schedules_ := [[[0; 1]]; [[1; 0]]];
     next_schedules_ := [[[0; 1]]; [[1; 0]]];
     ratings_ := [0; 0]%Q;
     weights_ := [0; 0]%Q;
     best_indices_ := [0; 1] |}.

(** Two timeslots, one room, and a rating that is 1 for every schedule. *)
Definition optimal : Collaborators :=
  {| mini_size := 2;
     breaks_ordering := λ _ _, false;
     higher_priority := λ _ _, false;
     rate_schedule := λ _, 1%Q;
     rooms_size := 1;
     ntimeslots_ := 2 |}.

Definition optimal_rated : Scheduler :=
  Eval vm_compute in
    match generation (H := optimal) 1 1 0 two_slots_state demo_tape 0 with
    | Done ((_, s), _) => s
    | _ => two_slots_state
    end.

(** Three candidates, the first and the last rated alike. *)
Definition tied_state : Scheduler :=
  {| current_schedules_ := [];
     next_schedules_ := [];
     ratings_ := [1; 3; 1]%Q;
     weights_ := [];
     best_indices_ := [0; 0; 0] |}.

(** The population of extent 0. *)
Definition empty_state : Scheduler :=
  {| current_schedules_ := [];
     next_schedules_ := [];
     ratings_ := [];
     weights_ := [];
     best_indices_ := [] |}.

(** One session with four talks, six lectures. *)
Definition small_conference : Mapper.Conference :=
  {| Mapper.minisymposia_size := 1;
     Mapper.lectures_size := 6;
     Mapper.mini_cohesion := λ _ _, 1%Q;
     Mapper.pair_cohesion := λ _ _, 1%Q;
     Mapper.talks_size := λ _, 4 |}.

(** A mapping for it: the session, one whole block, and one more gene. *)
Definition small_mapping : list nat := [0; 1; 2; 3; 4; 5; 9].

#[export] Instance shape_dec ns nr (g : Grid) : Decision (shape ns nr g).
Proof. unfold shape. apply _. Defined.

#[export] Instance perm_grid_dec `{Collaborators} (g : Grid)
  : Decision (perm_grid g).
Proof. unfold perm_grid. apply _. Defined.

(** * Views: reads, writes and exchanges *)

Section Views.
Implicit Types (g : Grid) (row : list nat) (i j x : nat).

Lemma shape_lookup ns nr g i :
  shape ns nr g → i < ns → ∃ row, g !! i = Some row ∧ length row = nr.
Proof.
  intros [Hlen Hrows] Hi.
  destruct (lookup_lt_is_Some_2 g i) as [row Hrow]; [lia|].
  exists row. split; [done|].
  by eapply (Forall_lookup_1 _ _ _ _ Hrows).
Qed.

Lemma shape_cell ns nr g i j :
  shape ns nr g → i < ns → j < nr →
  ∃ row, g !! i = Some row ∧ length row = nr ∧ row !! j = Some (at2 g i j).
Proof.
  intros Hsh Hi Hj.
  destruct (shape_lookup _ _ _ _ Hsh Hi) as (row & Hrow & Hlen).
  exists row. split_and!; [done..|].
  unfold at2. rewrite Hrow.
  destruct (lookup_lt_is_Some_2 row j) as [x Hx]; [lia|].
  by rewrite Hx.
Qed.

Lemma set2_insert g i j x row :
  g !! i = Some row → set2 g i j x = <[i := <[j := x]> row]> g.
Proof.
  intros Hrow. unfold set2.
  apply list_eq. intros k.
  destruct (decide (i = k)) as [->|Hne].
  - rewrite list_lookup_alter_eq, Hrow. simpl.
    rewrite list_lookup_insert_eq; [done|]. by eapply lookup_lt_Some.
  - by rewrite list_lookup_alter_ne, list_lookup_insert_ne.
Qed.

Lemma shape_set2 ns nr g i j x : shape ns nr g → shape ns nr (set2 g i j x).
Proof.
  intros [Hlen Hrows]. unfold set2. split.
  - by rewrite length_alter.
  - apply Forall_alter; [done|]. intros row _ Hrow. by rewrite length_insert.
Qed.

Lemma at2_set2_eq ns nr g i j x :
  shape ns nr g → i < ns → j < nr → at2 (set2 g i j x) i j = x.
Proof.
  intros Hsh Hi Hj.
  destruct (shape_lookup _ _ _ _ Hsh Hi) as (row & Hrow & Hlen).
  unfold at2, set2. rewrite list_lookup_alter_eq, Hrow. simpl.
  rewrite list_lookup_insert_eq; [done|lia].
Qed.

Lemma at2_set2_ne g i j x i' j' :
  (i', j') ≠ (i, j) → at2 (set2 g i j x) i' j' = at2 g i' j'.
Proof.
  intros Hne. unfold at2, set2.
  destruct (decide (i = i')) as [->|Hi].
  - rewrite list_lookup_alter_eq.
    destruct (g !! i') as [row|]; simpl; [|done].
    rewrite list_lookup_insert_ne; [done|]. congruence.
  - by rewrite list_lookup_alter_ne.
Qed.

Lemma shape_swap_cells ns nr g i1 j1 i2 j2 :
  shape ns nr g → shape ns nr (swap_cells g i1 j1 i2 j2).
Proof. intros Hsh. unfold swap_cells. by do 2 apply shape_set2. Qed.

(** Writing one entry of a list replaces one element of its multiset. *)
Lemma insert_perm {A} (l : list A) i (b : A) :
  l !! i = Some b →
  l ≡ₚ b :: delete i l ∧ ∀ a, <[i := a]> l ≡ₚ a :: delete i l.
Proof.
  intros Hy. split; [by apply delete_Permutation|].
  intros a. pose proof (lookup_lt_Some _ _ _ Hy) as Hlt.
  rewrite insert_take_drop, delete_take_drop by done.
  by rewrite Permutation_middle.
Qed.

Lemma set2_perm ns nr g i j :
  shape ns nr g → i < ns → j < nr →
  ∃ K, concat g ≡ₚ at2 g i j :: K ∧ ∀ x, concat (set2 g i j x) ≡ₚ x :: K.
Proof.
  intros Hsh Hi Hj.
  destruct (shape_cell _ _ _ _ _ Hsh Hi Hj) as (row & Hrow & Hlen & Hcell).
  destruct (insert_perm row j _ Hcell) as [Hr1 Hr2].
  pose proof (lookup_lt_Some _ _ _ Hrow) as Hlt.
  exists (concat (take i g) ++ delete j row ++ concat (drop (S i) g)).
  split.
  - rewrite <- (take_drop_middle g i row) at 1 by done.
    rewrite concat_app, concat_cons.
    etrans; [apply Permutation_app; [reflexivity|]; apply Permutation_app;
             [exact Hr1|reflexivity]|].
    simpl. symmetry. apply Permutation_middle.
  - intros x. rewrite (set2_insert _ _ _ _ _ Hrow).
    rewrite insert_take_drop by done.
    rewrite concat_app, concat_cons.
    etrans; [apply Permutation_app; [reflexivity|]; apply Permutation_app;
             [exact (Hr2 x)|reflexivity]|].
    simpl. symmetry. apply Permutation_middle.
Qed.

Lemma at2_swap_cells_1 ns nr g i1 j1 i2 j2 :
  shape ns nr g → i1 < ns → j1 < nr → i2 < ns → j2 < nr →
  at2 (swap_cells g i1 j1 i2 j2) i2 j2 = at2 g i1 j1.
Proof.
  intros Hsh ????. unfold swap_cells.
  eapply at2_set2_eq; [by apply shape_set2|done..].
Qed.

Lemma at2_swap_cells_2 ns nr g i1 j1 i2 j2 :
  shape ns nr g → i1 < ns → j1 < nr → i2 < ns → j2 < nr →
  at2 (swap_cells g i1 j1 i2 j2) i1 j1 = at2 g i2 j2.
Proof.
  intros Hsh ????. unfold swap_cells.
  destruct (decide ((i1, j1) = (i2, j2))) as [[= -> ->]|Hne].
  - erewrite at2_set2_eq; [|by apply shape_set2|done..].
    done.
  - rewrite at2_set2_ne by done. by erewrite at2_set2_eq.
Qed.

Lemma at2_swap_cells_other g i1 j1 i2 j2 i j :
  (i, j) ≠ (i1, j1) → (i, j) ≠ (i2, j2) →
  at2 (swap_cells g i1 j1 i2 j2) i j = at2 g i j.
Proof. intros ??. unfold swap_cells. by rewrite !at2_set2_ne. Qed.

(** The exchange of two cells keeps the multiset of the schedule. *)
Lemma swap_cells_perm ns nr g i1 j1 i2 j2 :
  shape ns nr g → i1 < ns → j1 < nr → i2 < ns → j2 < nr →
  concat (swap_cells g i1 j1 i2 j2) ≡ₚ concat g.
Proof.
  intros Hsh Hi1 Hj1 Hi2 Hj2. unfold swap_cells.
  destruct (set2_perm _ _ _ _ _ Hsh Hi1 Hj1) as (K & HK & HKx).
  set (g1 := set2 g i1 j1 (at2 g i2 j2)).
  assert (Hsh1 : shape ns nr g1) by by apply shape_set2.
  destruct (set2_perm _ _ _ _ _ Hsh1 Hi2 Hj2) as (K' & HK' & HKx').
  assert (Hv : at2 g1 i2 j2 = at2 g i2 j2).
  { unfold g1. destruct (decide ((i2, j2) = (i1, j1))) as [[= -> ->]|Hne].
    - by erewrite at2_set2_eq.
    - by rewrite at2_set2_ne. }
  rewrite Hv in HK'. unfold g1 in HK' at 1. rewrite HKx in HK'.
  apply Permutation_cons_inv in HK'.
  by rewrite HKx', <- HK', HK.
Qed.

End Views.

(** * Counted loops *)

Section Loops.
Context {St : Type}.
Implicit Types (body : nat → St → St) (s : St).

Lemma for_loop_empty lo hi body s : hi ≤ lo → for_loop lo hi body s = s.
Proof.
  intros Hle. unfold for_loop. by replace (hi - lo) with 0 by lia.
Qed.

Lemma for_loop_last lo hi body s :
  lo ≤ hi → for_loop lo (S hi) body s = body hi (for_loop lo hi body s).
Proof.
  intros Hle. unfold for_loop.
  replace (S hi - lo) with (S (hi - lo)) by lia.
  rewrite seq_S, foldl_app. simpl. by replace (lo + (hi - lo)) with hi by lia.
Qed.

Lemma for_loop_first lo hi body s :
  lo < hi → for_loop lo hi body s = for_loop (S lo) hi body (body lo s).
Proof.
  intros Hlt. unfold for_loop.
  by replace (hi - lo) with (S (hi - S lo)) by lia.
Qed.

(** Invariant rule with the loop counter. *)
Lemma for_loop_inv (I : nat → St → Prop) lo hi body s :
  lo ≤ hi → I lo s →
  (∀ i s, lo ≤ i < hi → I i s → I (S i) (body i s)) →
  I hi (for_loop lo hi body s).
Proof.
  intros Hle Hs Hstep. induction hi as [|hi IH].
  - assert (lo = 0) as -> by lia. by rewrite for_loop_empty.
  - destruct (decide (lo = S hi)) as [->|Hne].
    + by rewrite for_loop_empty.
    + rewrite for_loop_last by lia. apply Hstep; [lia|].
      apply IH; [lia|]. intros i s' Hi. apply Hstep. lia.
Qed.

(** Invariant rule for a property that does not mention the counter. *)
Lemma for_loop_ind (P : St → Prop) lo hi body s :
  P s → (∀ i s, lo ≤ i < hi → P s → P (body i s)) →
  P (for_loop lo hi body s).
Proof.
  intros Hs Hstep. destruct (decide (lo ≤ hi)) as [Hle|Hgt].
  - by apply (for_loop_inv (λ _, P)).
  - by rewrite for_loop_empty by lia.
Qed.

End Loops.

(** * The repair pass keeps the multiset of a schedule *)

Section FixPermutation.
Context `{Collaborators}.
Implicit Types (g : Grid).

Lemma perm_grid_swap_cells g i1 j1 i2 j2 :
  i1 < nslots → j1 < nrooms → i2 < nslots → j2 < nrooms →
  perm_grid g → perm_grid (swap_cells g i1 j1 i2 j2).
Proof.
  intros ???? [Hsh Hperm]. split.
  - by apply shape_swap_cells.
  - by erewrite swap_cells_perm.
Qed.

Lemma perm_grid_order_cell g sl1 r1 sl2 r2 :
  sl1 < nslots → r1 < nrooms → sl2 < nslots → r2 < nrooms →
  perm_grid g → perm_grid (order_cell sl1 r1 sl2 r2 g).
Proof.
  intros ???? Hg. unfold order_cell.
  repeat case_match; try done. by apply perm_grid_swap_cells.
Qed.

Lemma perm_grid_order_from g sl1 r1 :
  sl1 < nslots → r1 < nrooms → perm_grid g → perm_grid (order_from sl1 r1 g).
Proof.
  intros ?? Hg. unfold order_from. case_match; [done|].
  apply for_loop_ind; [done|]. intros sl2 g2 ? Hg2.
  apply for_loop_ind; [done|]. intros r2 g3 ? Hg3.
  apply perm_grid_order_cell; [lia..|done].
Qed.

Lemma perm_grid_ordering_pass g : perm_grid g → perm_grid (ordering_pass g).
Proof.
  intros Hg. unfold ordering_pass.
  apply for_loop_ind; [done|]. intros sl1 g1 ? Hg1.
  apply for_loop_ind; [done|]. intros r1 g2 ? Hg2.
  apply perm_grid_order_from; [lia..|done].
Qed.

Lemma perm_grid_priority_cell g sl j :
  sl < nslots → j + 1 < nrooms → perm_grid g → perm_grid (priority_cell sl j g).
Proof.
  intros ?? Hg. unfold priority_cell.
  repeat case_match; try done. apply perm_grid_swap_cells; [lia..|done].
Qed.

Lemma perm_grid_priority_pass g : perm_grid g → perm_grid (priority_pass g).
Proof.
  intros Hg. unfold priority_pass.
  apply for_loop_ind; [done|]. intros sl g1 ? Hg1.
  apply for_loop_ind; [done|]. intros i g2 ? Hg2.
  apply for_loop_ind; [done|]. intros j g3 ? Hg3.
  apply perm_grid_priority_cell; [lia..|done].
Qed.

Lemma perm_grid_fix_schedule g : perm_grid g → perm_grid (fix_schedule g).
Proof.
  intros Hg. by apply perm_grid_priority_pass, perm_grid_ordering_pass.
Qed.

End FixPermutation.

(** * Schedules as functions on cells *)

Section Cells.
Implicit Types (g : Grid) (p q : nat * nat).

Lemma elem_of_cells ns nr p : p ∈ cells ns nr ↔ p.1 < ns ∧ p.2 < nr.
Proof.
  unfold cells. rewrite list_elem_of_cprod, !elem_of_seq. lia.
Qed.

Lemma length_cells ns nr : length (cells ns nr) = ns * nr.
Proof.
  unfold cells. by rewrite list_cprod_list_prod, length_prod, !length_seq.
Qed.

Lemma NoDup_cells ns nr : NoDup (cells ns nr).
Proof.
  unfold cells, cprod, list_cprod. apply NoDup_bind.
  - intros i1 i2 [i j] _ _ Hin1 Hin2.
    apply list_elem_of_fmap in Hin1 as (? & [= <- _] & _).
    by apply list_elem_of_fmap in Hin2 as (? & [= <- _] & _).
  - intros i _. apply NoDup_fmap_2; [|apply NoDup_seq].
    by intros ?? [= ->].
  - apply NoDup_seq.
Qed.

Lemma concat_tabulate {A B C} (f : A → B → C) (l1 : list A) (l2 : list B) :
  concat ((λ a, f a <$> l2) <$> l1) = (λ ab, f ab.1 ab.2) <$> cprod l1 l2.
Proof.
  unfold cprod, list_cprod. induction l1 as [|a l1 IH]; [done|].
  csimpl. rewrite fmap_app, IH. f_equal.
  rewrite <- list_fmap_compose. by apply list_fmap_ext.
Qed.

Lemma row_tabulate (row : list nat) nr :
  length row = nr → row = (λ j, default 0 (row !! j)) <$> seq 0 nr.
Proof.
  intros Hlen. apply list_eq. intros j.
  rewrite list_lookup_fmap.
  destruct (decide (j < nr)) as [Hj|Hj].
  - rewrite lookup_seq_lt by done. simpl.
    destruct (lookup_lt_is_Some_2 row j) as [x Hx]; [lia|]. by rewrite Hx.
  - rewrite lookup_seq_ge by lia. apply lookup_ge_None. lia.
Qed.

Lemma grid_tabulate ns nr g :
  shape ns nr g → g = (λ i, (λ j, at2 g i j) <$> seq 0 nr) <$> seq 0 ns.
Proof.
  intros [Hlen Hrows]. apply list_eq. intros i.
  rewrite list_lookup_fmap.
  destruct (decide (i < ns)) as [Hi|Hi].
  - rewrite lookup_seq_lt by done. simpl.
    destruct (lookup_lt_is_Some_2 g i) as [row Hrow]; [lia|].
    rewrite Hrow. f_equal.
    rewrite (row_tabulate row nr) at 1
      by by eapply (Forall_lookup_1 _ _ _ _ Hrows).
    apply list_fmap_ext. intros _ j _. unfold at2. by rewrite Hrow.
  - rewrite lookup_seq_ge by lia. apply lookup_ge_None. lia.
Qed.

(** The row-major listing of a schedule is the image of its cells. *)
Lemma concat_cells ns nr g :
  shape ns nr g → concat g = (λ p, at2 g p.1 p.2) <$> cells ns nr.
Proof.
  intros Hsh. rewrite (grid_tabulate _ _ _ Hsh) at 1.
  apply concat_tabulate.
Qed.

Lemma NoDup_fmap_inj_on {A B} (f : A → B) (l : list A) x y :
  NoDup (f <$> l) → x ∈ l → y ∈ l → f x = f y → x = y.
Proof.
  induction l as [|a l IH]; intros Hnd Hx Hy Hxy; [by apply elem_of_nil in Hx|].
  rewrite fmap_cons in Hnd. apply NoDup_cons in Hnd as [Ha Hnd].
  apply elem_of_cons in Hx as [->|Hx], Hy as [->|Hy]; [done| | |by apply IH].
  - exfalso. apply Ha. rewrite Hxy. by apply list_elem_of_fmap_2.
  - exfalso. apply Ha. rewrite <- Hxy. by apply list_elem_of_fmap_2.
Qed.

Lemma length_concat_shape ns nr g : shape ns nr g → length (concat g) = ns * nr.
Proof.
  intros Hsh. by rewrite (concat_cells _ _ _ Hsh), length_fmap, length_cells.
Qed.

End Cells.

Section PermGrid.
Context `{Collaborators}.
Implicit Types (g : Grid) (p q : nat * nat).

Lemma perm_grid_inj g p q :
  perm_grid g → p ∈ cells nslots nrooms → q ∈ cells nslots nrooms →
  at2 g p.1 p.2 = at2 g q.1 q.2 → p = q.
Proof.
  intros [Hsh Hperm] Hp Hq Heq.
  eapply (NoDup_fmap_inj_on (λ p, at2 g p.1 p.2)); [|done..].
  rewrite <- (concat_cells _ _ _ Hsh), Hperm. apply NoDup_seq.
Qed.

Lemma perm_grid_bound g p :
  perm_grid g → p ∈ cells nslots nrooms → at2 g p.1 p.2 < nslots * nrooms.
Proof.
  intros [Hsh Hperm] Hp.
  assert (Hin : at2 g p.1 p.2 ∈ concat g).
  { rewrite (concat_cells _ _ _ Hsh).
    by apply (list_elem_of_fmap_2 (λ p, at2 g p.1 p.2)). }
  rewrite Hperm in Hin. apply elem_of_seq in Hin. lia.
Qed.

(** A schedule whose cells hold distinct identifiers below
    [nslots * nrooms] holds each of them exactly once. *)
Lemma perm_grid_intro g :
  shape nslots nrooms g →
  (∀ p, p ∈ cells nslots nrooms → at2 g p.1 p.2 < nslots * nrooms) →
  (∀ p q, p ∈ cells nslots nrooms → q ∈ cells nslots nrooms →
          at2 g p.1 p.2 = at2 g q.1 q.2 → p = q) →
  perm_grid g.
Proof.
  intros Hsh Hbound Hinj. split; [done|].
  apply submseteq_length_Permutation.
  - apply NoDup_submseteq.
    + rewrite (concat_cells _ _ _ Hsh).
      apply NoDup_fmap_2_strong; [done|apply NoDup_cells].
    + intros x Hx. rewrite (concat_cells _ _ _ Hsh) in Hx.
      apply list_elem_of_fmap in Hx as (p & -> & Hp).
      apply elem_of_seq. specialize (Hbound p Hp). lia.
  - by rewrite length_seq, (length_concat_shape _ _ _ Hsh).
Qed.

(** Every identifier occurs in exactly one cell. *)
Lemma perm_grid_exactly_once g x :
  perm_grid g → x < nslots * nrooms →
  ∃ p, p ∈ cells nslots nrooms ∧ at2 g p.1 p.2 = x ∧
       ∀ q, q ∈ cells nslots nrooms → at2 g q.1 q.2 = x → q = p.
Proof.
  intros Hg Hx. pose proof Hg as [Hsh Hperm].
  assert (Hin : x ∈ concat g).
  { rewrite Hperm. apply elem_of_seq. lia. }
  rewrite (concat_cells _ _ _ Hsh) in Hin.
  apply list_elem_of_fmap in Hin as (p & -> & Hp).
  exists p. split_and!; [done..|].
  intros q Hq Heq. by apply (perm_grid_inj g).
Qed.

End PermGrid.

(** * The lookup [find] *)

Section Find.
Implicit Types (view : Grid) (row : list nat) (p : nat * nat).

Lemma find_in_row_Some row value j0 j :
  find_in_row row value j0 = Some j →
  j0 ≤ j ∧ row !! (j - j0) = Some value.
Proof.
  revert j0. induction row as [|x row IH]; intros j0; simpl; [done|].
  destruct (Nat.eqb_spec x value) as [->|Hne].
  - intros [= ->]. split; [lia|]. by rewrite Nat.sub_diag.
  - intros Hfind. apply IH in Hfind as [Hle Hlook]. split; [lia|].
    by replace (j - j0) with (S (j - S j0)) by lia.
Qed.

Lemma find_in_row_None row value j0 :
  find_in_row row value j0 = None → value ∉ row.
Proof.
  revert j0. induction row as [|x row IH]; intros j0; simpl.
  - intros _. apply not_elem_of_nil.
  - destruct (Nat.eqb_spec x value) as [->|Hne]; [done|].
    intros Hfind. apply not_elem_of_cons. split; [done|]. by eapply IH.
Qed.

Lemma find_from_Some view value i0 p :
  find_from view value i0 = Some p →
  i0 ≤ p.1 ∧ ∃ row, view !! (p.1 - i0) = Some row ∧ row !! p.2 = Some value.
Proof.
  revert i0. induction view as [|row view IH]; intros i0; simpl; [done|].
  destruct (find_in_row row value 0) as [j|] eqn:Hrow.
  - intros [= <-]. simpl. split; [lia|]. exists row.
    rewrite Nat.sub_diag. split; [done|].
    apply find_in_row_Some in Hrow as [_ Hrow].
    by rewrite Nat.sub_0_r in Hrow.
  - intros Hfind. apply IH in Hfind as (Hle & row' & Hlook & Hcell).
    split; [lia|]. exists row'. split; [|done].
    by replace (p.1 - i0) with (S (p.1 - S i0)) by lia.
Qed.

Lemma find_from_None view value i0 row :
  find_from view value i0 = None → row ∈ view → value ∉ row.
Proof.
  revert i0. induction view as [|row' view IH]; intros i0; simpl.
  - intros _ Hin. by apply elem_of_nil in Hin.
  - destruct (find_in_row row' value 0) as [j|] eqn:Hrow; [done|].
    intros Hfind [->|Hin]%elem_of_cons.
    + by eapply find_in_row_None.
    + by eapply IH.
Qed.

(** [find] returns a position that holds the value ... *)
Lemma find_Some view value p :
  find view value = Some p →
  ∃ row, view !! p.1 = Some row ∧ row !! p.2 = Some value.
Proof.
  intros Hfind. apply find_from_Some in Hfind as (_ & row & Hrow & Hcell).
  rewrite Nat.sub_0_r in Hrow. eauto.
Qed.

(** ... and fails only when the value is nowhere in the view. *)
Lemma find_None view value i j row :
  find view value = None → view !! i = Some row → row !! j ≠ Some value.
Proof.
  intros Hfind Hrow Hcell.
  eapply find_from_None; [done| |].
  - by eapply list_elem_of_lookup_2.
  - by eapply list_elem_of_lookup_2.
Qed.

Lemma find_mom_genes_Some ns nr mom end_index value p :
  shape ns nr mom → end_index ≤ nr →
  find (mom_genes_of mom end_index) value = Some p →
  p.1 < ns ∧ p.2 < end_index ∧ at2 mom p.1 p.2 = value.
Proof.
  intros [Hlen Hrows] He Hfind.
  apply find_Some in Hfind as (row & Hrow & Hcell).
  unfold mom_genes_of in Hrow. rewrite list_lookup_fmap in Hrow.
  destruct (mom !! p.1) as [row'|] eqn:Hrow'; [|done].
  injection Hrow as <-.
  apply lookup_take_Some in Hcell as [Hcell Hlt].
  split_and!; [|done|].
  - rewrite <- Hlen. by eapply lookup_lt_Some.
  - unfold at2. by rewrite Hrow', Hcell.
Qed.

Lemma find_mom_genes_None ns nr mom end_index value i j :
  shape ns nr mom → end_index ≤ nr →
  find (mom_genes_of mom end_index) value = None →
  i < ns → j < end_index → at2 mom i j ≠ value.
Proof.
  intros Hsh He Hfind Hi Hj Heq.
  destruct (shape_cell ns nr mom i j) as (row & Hrow & Hlen & Hcell);
    [done|done|lia|].
  eapply (find_None _ _ i j (take end_index row)); [done| |].
  - unfold mom_genes_of. by rewrite list_lookup_fmap, Hrow.
  - rewrite lookup_take_lt by done. by rewrite Hcell, Heq.
Qed.

End Find.

(** * The duplicate-chasing loop of [breed] *)

Section Chain.
Context (step : nat * nat → option (nat * nat)).
Implicit Types (p q : nat * nat) (k : nat).

Lemma chain_snoc k p q q' :
  chain step k p q → step q = Some q' → chain step (S k) p q'.
Proof.
  induction 1 as [p|k p p1 q Hstep Hchain IH]; intros Hq.
  - eapply chain_next; [done|]. apply chain_here.
  - eapply chain_next; [done|]. by apply IH.
Qed.

Lemma chain_last k p q :
  chain step (S k) p q → ∃ q', chain step k p q' ∧ step q' = Some q.
Proof.
  revert p. induction k as [|k IH]; intros p Hchain.
  - inversion Hchain as [|? ? p1 ? Hstep Hrest]; subst.
    inversion Hrest; subst. exists p. split; [apply chain_here|done].
  - inversion Hchain as [|? ? p1 ? Hstep Hrest]; subst.
    apply IH in Hrest as (q' & Hrest & Hq').
    exists q'. split; [|done]. by eapply chain_next.
Qed.

(** Two chains of an injective step that end in the same position: the
    longer one runs through the start of the shorter one. *)
Lemma chain_merge (D : nat * nat → Prop) k k' p p' q :
  (∀ a b, D a → step a = Some b → D b) →
  (∀ a a' b, D a → D a' → step a = Some b → step a' = Some b → a = a') →
  D p → D p' → k ≤ k' →
  chain step k p q → chain step k' p' q → chain step (k' - k) p' p.
Proof.
  intros Hclosed Hinj Hp Hp'. revert k' q.
  assert (Hvalid : ∀ n a b, D a → chain step n a b → D b).
  { intros n a b Ha Hch. induction Hch; eauto. }
  induction k as [|k IH]; intros k' q Hle Hch Hch'.
  - inversion Hch; subst. by rewrite Nat.sub_0_r.
  - destruct k' as [|k']; [lia|].
    apply chain_last in Hch as (q1 & Hch & Hq1).
    apply chain_last in Hch' as (q1' & Hch' & Hq1').
    assert (q1 = q1') as <- by (eapply Hinj; eauto).
    simpl. eapply IH; [lia|done..].
Qed.

End Chain.

Section Chase.
Context `{Collaborators}.
Implicit Types (mom dad : Grid) (p q : nat * nat).

Lemma chase_chain fuel mom_genes dad p q :
  chase fuel mom_genes dad p = Done q →
  ∃ k, chain (chase_step mom_genes dad) k p q ∧
       chase_step mom_genes dad q = None.
Proof.
  revert p. induction fuel as [|fuel IH]; intros p; simpl; [done|].
  destruct (find mom_genes (at2 dad p.1 p.2)) as [p1|] eqn:Hstep.
  - intros Hch. apply IH in Hch as (k & Hch & Hq).
    exists (S k). split; [|done]. by eapply chain_next.
  - intros [= <-]. exists 0. split; [apply chain_here|done].
Qed.

Lemma chase_step_Some mom dad end_index p q :
  perm_grid mom → end_index ≤ nrooms →
  chase_step (mom_genes_of mom end_index) dad p = Some q →
  q ∈ cells nslots nrooms ∧ q.2 < end_index ∧
  at2 mom q.1 q.2 = at2 dad p.1 p.2.
Proof.
  intros [Hsh _] He Hstep.
  eapply find_mom_genes_Some in Hstep as (H1 & H2 & H3); [|done..].
  split_and!; [|done..]. apply elem_of_cells. lia.
Qed.

Lemma chase_step_inj mom dad end_index p p' q :
  perm_grid mom → perm_grid dad → end_index ≤ nrooms →
  p ∈ cells nslots nrooms → p' ∈ cells nslots nrooms →
  chase_step (mom_genes_of mom end_index) dad p = Some q →
  chase_step (mom_genes_of mom end_index) dad p' = Some q →
  p = p'.
Proof.
  intros Hmom Hdad He Hp Hp' Hstep Hstep'.
  apply chase_step_Some in Hstep as (_ & _ & Heq); [|done..].
  apply chase_step_Some in Hstep' as (_ & _ & Heq'); [|done..].
  apply (perm_grid_inj dad); [done..|congruence].
Qed.

(** The positions visited so far are distinct, so the loop leaves the
    copied region before it has made [nslots * nrooms] turns. *)
Lemma chase_terminates_visited mom dad end_index fuel visited p :
  perm_grid mom → perm_grid dad → end_index ≤ nrooms →
  NoDup (p :: visited) →
  (∀ z, z ∈ p :: visited → z ∈ cells nslots nrooms) →
  (∀ z y, z ∈ p :: visited → y ∈ cells nslots nrooms →
          chase_step (mom_genes_of mom end_index) dad y = Some z →
          y ∈ visited) →
  nslots * nrooms ≤ fuel + length visited →
  ∃ q, chase fuel (mom_genes_of mom end_index) dad p = Done q.
Proof.
  intros Hmom Hdad He. revert visited p.
  induction fuel as [|fuel IH]; intros visited p Hnd Hcells Hpred Hfuel.
  - exfalso.
    assert (length (p :: visited) ≤ length (cells nslots nrooms)) as Hlen.
    { apply submseteq_length, NoDup_submseteq; done. }
    rewrite length_cells in Hlen. simpl in Hlen. lia.
  - simpl. fold (chase_step (mom_genes_of mom end_index) dad p).
    destruct (chase_step (mom_genes_of mom end_index) dad p) as [q|] eqn:Hstep;
      [|eauto].
    assert (Hp : p ∈ cells nslots nrooms) by (apply Hcells; left).
    apply (IH (p :: visited) q).
    + apply NoDup_cons. split; [|done]. intros Hq.
      apply NoDup_cons in Hnd as [Hnotin _]. apply Hnotin.
      exact (Hpred q p Hq Hp Hstep).
    + intros z [->|Hz]%elem_of_cons; [|by apply Hcells].
      by apply chase_step_Some in Hstep as (? & _ & _).
    + intros z y [->|Hz]%elem_of_cons Hy Hstepy.
      * assert (y = p) as ->
          by exact (chase_step_inj mom dad end_index y p q
                      Hmom Hdad He Hy Hp Hstepy Hstep).
        left.
      * right. exact (Hpred z y Hz Hy Hstepy).
    + simpl. lia.
Qed.

Lemma chase_terminates mom dad end_index fuel p :
  perm_grid mom → perm_grid dad → end_index ≤ nrooms →
  p ∈ cells nslots nrooms → end_index ≤ p.2 →
  nslots * nrooms ≤ fuel →
  ∃ q, chase fuel (mom_genes_of mom end_index) dad p = Done q.
Proof.
  intros Hmom Hdad He Hp Hout Hfuel.
  apply (chase_terminates_visited mom dad end_index fuel [] p); try done.
  - apply NoDup_singleton.
  - by intros z ->%list_elem_of_singleton.
  - intros z y ->%list_elem_of_singleton Hy Hstep.
    apply chase_step_Some in Hstep as (_ & Hlt & _); [lia|done..].
  - simpl. lia.
Qed.

(** Where the loop stops, [dad]'s value is not in the copied region. *)
Lemma chase_fresh mom dad end_index fuel p q :
  perm_grid mom → end_index ≤ nrooms → p ∈ cells nslots nrooms →
  chase fuel (mom_genes_of mom end_index) dad p = Done q →
  q ∈ cells nslots nrooms ∧
  ∀ i j, i < nslots → j < end_index → at2 mom i j ≠ at2 dad q.1 q.2.
Proof.
  intros Hmom He Hp Hch.
  apply chase_chain in Hch as (k & Hch & Hstop). split.
  - clear Hstop. induction Hch as [|k p p1 q Hstep Hch IH]; [done|].
    apply IH. by apply chase_step_Some in Hstep as (? & _ & _).
  - intros i j Hi Hj. destruct Hmom as [Hsh _].
    by eapply find_mom_genes_None.
Qed.

(** Chains started at two different cells outside the copied region stop at
    different positions. *)
Lemma chase_inj mom dad end_index fuel fuel' p p' q :
  perm_grid mom → perm_grid dad → end_index ≤ nrooms →
  p ∈ cells nslots nrooms → p' ∈ cells nslots nrooms →
  end_index ≤ p.2 → end_index ≤ p'.2 →
  chase fuel (mom_genes_of mom end_index) dad p = Done q →
  chase fuel' (mom_genes_of mom end_index) dad p' = Done q →
  p = p'.
Proof.
  intros Hmom Hdad He Hp Hp' Hout Hout' Hch Hch'.
  apply chase_chain in Hch as (k & Hch & _).
  apply chase_chain in Hch' as (k' & Hch' & _).
  assert (Hstart : ∀ n a b, end_index ≤ b.2 →
            chain (chase_step (mom_genes_of mom end_index) dad) n a b → a = b).
  { intros n a b Hb Hab. destruct n as [|n]; [by inversion Hab|].
    apply chain_last in Hab as (b' & _ & Hstep).
    apply chase_step_Some in Hstep as (_ & Hlt & _); [lia|done..]. }
  destruct (decide (k ≤ k')) as [Hle|Hgt].
  - symmetry. apply (Hstart (k' - k)); [done|].
    eapply (chain_merge _ (λ a, a ∈ cells nslots nrooms)); try done.
    + intros a b _ Hstep. by apply chase_step_Some in Hstep as (? & _ & _).
    + intros a a' b ????. by eapply (chase_step_inj mom dad end_index).
  - apply (Hstart (k - k')); [done|].
    eapply (chain_merge _ (λ a, a ∈ cells nslots nrooms)); try done; [| |lia].
    + intros a b _ Hstep. by apply chase_step_Some in Hstep as (? & _ & _).
    + intros a a' b ????. by eapply (chase_step_inj mom dad end_index).
Qed.

End Chase.

(** * Loops that can fail *)

Section LoopsM.
Context {F : Type → Type} `{MBind F, MRet F} {St : Type}.
Implicit Types (body : nat → St → F St) (s : St).

Lemma for_loopM_empty lo hi body s : hi ≤ lo → for_loopM lo hi body s = mret s.
Proof.
  intros Hle. unfold for_loopM. by replace (hi - lo) with 0 by lia.
Qed.

Lemma for_loopM_last lo hi body s :
  lo ≤ hi →
  for_loopM lo (S hi) body s = for_loopM lo hi body s ≫= body hi.
Proof.
  intros Hle. unfold for_loopM.
  replace (S hi - lo) with (S (hi - lo)) by lia.
  rewrite seq_S, foldl_app. simpl. by replace (lo + (hi - lo)) with hi by lia.
Qed.

End LoopsM.

Section LoopsRes.
Context {St : Type}.
Implicit Types (body : nat → St → Res St) (s : St).

Lemma for_loopR_inv (I : nat → St → Prop) lo hi body s s' :
  lo ≤ hi → I lo s →
  (∀ i s s', lo ≤ i < hi → I i s → body i s = Done s' → I (S i) s') →
  for_loopM lo hi body s = Done s' → I hi s'.
Proof.
  intros Hle Hs Hstep. revert s'. induction hi as [|hi IH]; intros s'.
  - assert (lo = 0) as -> by lia. rewrite for_loopM_empty by done.
    by intros [= <-].
  - destruct (decide (lo = S hi)) as [->|Hne].
    + rewrite for_loopM_empty by done. by intros [= <-].
    + rewrite for_loopM_last by lia.
      destruct (for_loopM lo hi body s) as [s1| |] eqn:Hloop; [|done..].
      intros Hbody. apply (Hstep hi s1); [lia| |done].
      apply IH; [lia| |done]. intros i s2 s3 Hi. apply Hstep. lia.
Qed.

Lemma for_loopR_total (I : nat → St → Prop) lo hi body s :
  lo ≤ hi → I lo s →
  (∀ i s, lo ≤ i < hi → I i s → ∃ s', body i s = Done s' ∧ I (S i) s') →
  ∃ s', for_loopM lo hi body s = Done s' ∧ I hi s'.
Proof.
  intros Hle Hs Hstep. induction hi as [|hi IH].
  - assert (lo = 0) as -> by lia. rewrite for_loopM_empty by done. by exists s.
  - destruct (decide (lo = S hi)) as [->|Hne].
    + rewrite for_loopM_empty by done. by exists s.
    + rewrite for_loopM_last by lia.
      destruct IH as (s1 & -> & Hs1); [lia| |].
      { intros i s2 Hi. apply Hstep. lia. }
      apply Hstep; [lia|done].
Qed.

End LoopsRes.

(** * Loops that write a rectangle of cells *)

Section Written.
Context (P : nat → nat → nat → Prop) (ns nr lo hi : nat).
Implicit Types (g : Grid).

Lemma written_start g : written P lo hi 0 lo g.
Proof. intros i j Hj [Hi|[-> Hlt]]; lia. Qed.

Lemma written_next_row r g :
  written P lo hi r hi g → written P lo hi (S r) lo g.
Proof.
  intros Hw i j Hj Hi. apply Hw; [done|].
  destruct Hi as [Hi|[-> Hlt]]; lia.
Qed.

Lemma written_row_start r c g :
  c ≤ lo → written P lo hi r c g → written P lo hi r lo g.
Proof. intros Hc Hw i j Hj Hi. apply Hw; [done|]. lia. Qed.

Lemma written_set2 r c v g :
  shape ns nr g → r < ns → c < nr →
  written P lo hi r c g → P r c v →
  written P lo hi r (S c) (set2 g r c v).
Proof.
  intros Hsh Hr Hc Hw Hv i j Hj Hi.
  destruct (decide ((i, j) = (r, c))) as [[= -> ->]|Hne].
  - by erewrite at2_set2_eq.
  - rewrite at2_set2_ne by done. apply Hw; [done|].
    destruct Hi as [Hi|[-> Hlt]]; [by left|right].
    split; [done|]. assert (j ≠ c) by congruence. lia.
Qed.

Lemma written_all g i j :
  written P lo hi ns lo g → i < ns → lo ≤ j < hi → P i j (at2 g i j).
Proof. intros Hw Hi Hj. apply Hw; [done|]. by left. Qed.

End Written.

(** * The crossover [breed] *)

Section Breed.
Context `{Collaborators}.
Implicit Types (mom dad child : Grid) (p q : nat * nat).

Lemma copy_mom_spec mom end_index child :
  shape nslots nrooms child → end_index ≤ nrooms →
  shape nslots nrooms (copy_mom mom end_index child) ∧
  ∀ i j, i < nslots → j < end_index →
         at2 (copy_mom mom end_index child) i j = at2 mom i j.
Proof.
  intros Hsh He. set (P := λ i j v : nat, v = at2 mom i j).
  assert (Hloop : shape nslots nrooms (copy_mom mom end_index child) ∧
                  written P 0 end_index nslots 0 (copy_mom mom end_index child)).
  { unfold copy_mom.
    apply (for_loop_inv
             (λ r g, shape nslots nrooms g ∧ written P 0 end_index r 0 g));
      [lia|split; [done|apply written_start]|].
    intros r g Hr [Hg Hw].
    assert (Hrow : shape nslots nrooms
               (for_loop 0 end_index (λ j c, set2 c r j (at2 mom r j)) g) ∧
             written P 0 end_index r end_index
               (for_loop 0 end_index (λ j c, set2 c r j (at2 mom r j)) g)).
    { apply (for_loop_inv
               (λ c g, shape nslots nrooms g ∧ written P 0 end_index r c g));
        [lia|done|].
      intros c g1 Hc [Hg1 Hw1]. split; [by apply shape_set2|].
      eapply written_set2; [done|lia|lia|done|done]. }
    destruct Hrow as [Hg2 Hw2]. split; [done|by apply written_next_row]. }
  destruct Hloop as [Hsh' Hw]. split; [done|].
  intros i j Hi Hj. apply (written_all P nslots 0 end_index); [done|done|lia].
Qed.

Lemma fill_cell_Done fuel mom_genes dad r c child child' :
  fill_cell fuel mom_genes dad r c child = Done child' →
  ∃ q, chase fuel mom_genes dad (r, c) = Done q ∧
       child' = set2 child r c (at2 dad q.1 q.2).
Proof.
  unfold fill_cell. destruct (chase fuel mom_genes dad (r, c)) as [q| |];
    [|done..].
  intros [= <-]. by exists q.
Qed.

(** What the two pairs of loops leave in the child. *)
Lemma breed_at_cells fuel mom dad end_index child child' :
  shape nslots nrooms child → end_index ≤ nrooms →
  breed_at fuel mom dad end_index child = Done child' →
  shape nslots nrooms child' ∧
  (∀ i j, i < nslots → j < end_index → at2 child' i j = at2 mom i j) ∧
  (∀ i j, i < nslots → end_index ≤ j < nrooms →
     ∃ q, chase fuel (mom_genes_of mom end_index) dad (i, j) = Done q ∧
          at2 child' i j = at2 dad q.1 q.2).
Proof.
  intros Hsh He. unfold breed_at, fill_dad.
  destruct (copy_mom_spec mom end_index child Hsh He) as [Hsh0 Hkept0].
  set (kept := λ g : Grid,
         ∀ i j, i < nslots → j < end_index → at2 g i j = at2 mom i j).
  set (P := λ (i j v : nat),
         ∃ q, chase fuel (mom_genes_of mom end_index) dad (i, j) = Done q ∧
              v = at2 dad q.1 q.2).
  intros Hloop.
  apply (for_loopR_inv
           (λ r g, shape nslots nrooms g ∧ kept g ∧
                   written P end_index nrooms r end_index g)) in Hloop;
    [|lia|split_and!; [done|done|apply written_start]|].
  - destruct Hloop as (Hsh' & Hkept' & Hw). split_and!; [done..|].
    intros i j Hi Hj.
    apply (written_all P nslots end_index nrooms); done.
  - intros r g g' Hr (Hg & Hk & Hw) Hrow.
    apply (for_loopR_inv
             (λ c g, shape nslots nrooms g ∧ kept g ∧
                     written P end_index nrooms r c g)) in Hrow;
      [|lia|done|].
    + destruct Hrow as (Hg' & Hk' & Hw').
      split_and!; [done..|by apply written_next_row].
    + intros c g1 g2 Hc (Hg1 & Hk1 & Hw1) Hcell.
      apply fill_cell_Done in Hcell as (q & Hq & ->).
      split_and!.
      * by apply shape_set2.
      * intros i j Hi Hj. rewrite at2_set2_ne; [by apply Hk1|].
        intros [= -> ->]. lia.
      * eapply written_set2; [done|lia|lia|done|]. by exists q.
Qed.

(** With the chains terminating, [breed] returns. *)
Lemma breed_at_total fuel mom dad end_index child :
  shape nslots nrooms child → end_index ≤ nrooms →
  (∀ i j, i < nslots → end_index ≤ j < nrooms →
     ∃ q, chase fuel (mom_genes_of mom end_index) dad (i, j) = Done q) →
  ∃ child', breed_at fuel mom dad end_index child = Done child'.
Proof.
  intros Hsh He Hterm. unfold breed_at, fill_dad.
  destruct (copy_mom_spec mom end_index child Hsh He) as [Hsh0 _].
  destruct (for_loopR_total (λ _ g, shape nslots nrooms g) 0 nslots
              (λ r, for_loopM end_index nrooms
                      (λ c, fill_cell fuel (mom_genes_of mom end_index) dad r c))
              (copy_mom mom end_index child)) as (child' & Hdone & _);
    [lia|done| |by exists child'].
  intros r g Hr Hg.
  apply (for_loopR_total (λ _ g, shape nslots nrooms g)); [lia|done|].
  intros c g1 Hc Hg1. unfold fill_cell.
  destruct (Hterm r c) as [q ->]; [lia..|].
  eexists. split; [done|]. by apply shape_set2.
Qed.

(** Crossover closure: the child of two permutation schedules is one. *)
Lemma breed_at_perm_grid fuel mom dad end_index child child' :
  perm_grid mom → perm_grid dad →
  shape nslots nrooms child → end_index ≤ nrooms →
  breed_at fuel mom dad end_index child = Done child' →
  perm_grid child'.
Proof.
  intros Hmom Hdad Hsh He Hbreed.
  destruct (breed_at_cells _ _ _ _ _ _ Hsh He Hbreed) as (Hsh' & Hm & Hd).
  assert (Hcase : ∀ p, p ∈ cells nslots nrooms →
            (p.2 < end_index ∧ at2 child' p.1 p.2 = at2 mom p.1 p.2) ∨
            (end_index ≤ p.2 ∧
             ∃ q, chase fuel (mom_genes_of mom end_index) dad p = Done q ∧
                  q ∈ cells nslots nrooms ∧
                  at2 child' p.1 p.2 = at2 dad q.1 q.2 ∧
                  ∀ i j, i < nslots → j < end_index →
                         at2 mom i j ≠ at2 dad q.1 q.2)).
  { intros [i j] Hp. pose proof Hp as [Hi Hj]%elem_of_cells. simpl in *.
    destruct (decide (j < end_index)) as [Hlt|Hge].
    - left. split; [done|]. by apply Hm.
    - right. split; [lia|].
      destruct (Hd i j) as (q & Hq & Hval); [lia..|].
      destruct (chase_fresh mom dad end_index fuel (i, j) q) as [Hqc Hfresh];
        [done..|].
      by exists q. }
  apply perm_grid_intro; [done| |].
  - intros p Hp.
    destruct (Hcase p Hp) as [[_ ->]|(_ & q & _ & Hq & -> & _)];
      by apply perm_grid_bound.
  - intros p p' Hp Hp' Heq.
    pose proof Hp as [Hi Hj]%elem_of_cells.
    pose proof Hp' as [Hi' Hj']%elem_of_cells.
    destruct (Hcase p Hp) as [[Hlt Hv]|(Hge & q & Hch & Hq & Hv & Hfresh)],
             (Hcase p' Hp') as [[Hlt' Hv']|(Hge' & q' & Hch' & Hq' & Hv' & Hfresh')].
    + apply (perm_grid_inj mom); [done..|congruence].
    + exfalso. apply (Hfresh' p.1 p.2); [done..|congruence].
    + exfalso. apply (Hfresh p'.1 p'.2); [done..|congruence].
    + assert (q = q') as <-.
      { apply (perm_grid_inj dad); [done..|congruence]. }
      by eapply (chase_inj mom dad end_index).
Qed.

End Breed.

(** * Weights and the roulette walk *)

Section Weights.
Implicit Types (r sum x y rho : Q) (weights ratings : list Q).

Lemma Qltb_lt x y : Qltb x y = true ↔ (x < y)%Q.
Proof.
  unfold Qltb. rewrite negb_true_iff.
  destruct (Qle_bool y x) eqn:Hle.
  - apply Qle_bool_iff in Hle. split; [done|].
    intros Hlt. by apply Qlt_not_le in Hlt.
  - split; [|done]. intros _. apply Qnot_le_lt. intros Hyx.
    apply Qle_bool_iff in Hyx. congruence.
Qed.

Lemma Qltb_ge x y : Qltb x y = false ↔ (y <= x)%Q.
Proof.
  unfold Qltb. rewrite negb_false_iff. apply Qle_bool_iff.
Qed.

(** The third kernel of [compute_weights] leaves the weights as they are:
    the weights are the ratings shifted by the worst one. *)
Lemma weights_of_shift ratings :
  weights_of ratings =
  map (λ r, (r - min_element ratings)%Q) ratings.
Proof.
  unfold weights_of. by apply for_loop_ind.
Qed.

Lemma min_element_const ratings rho :
  Forall (λ x, (x == rho)%Q) ratings → ratings ≠ [] →
  (min_element ratings == rho)%Q.
Proof.
  destruct ratings as [|x ratings]; [done|]. intros Hall _.
  apply Forall_cons in Hall as [Hx Hall]. simpl.
  revert x Hx. induction Hall as [|y ratings Hy Hall IH]; intros x Hx; [done|].
  simpl. apply IH. by destruct (Qltb y x).
Qed.

(** When all ratings are equal every weight is zero. *)
Lemma weights_of_const ratings rho :
  Forall (λ x, (x == rho)%Q) ratings →
  Forall (λ w, (w == 0)%Q) (weights_of ratings).
Proof.
  intros Hall. rewrite weights_of_shift.
  destruct (decide (ratings = [])) as [->|Hne]; [done|].
  pose proof (min_element_const _ _ Hall Hne) as Hmin.
  apply Forall_fmap. eapply Forall_impl; [done|].
  intros x Hx. simpl. rewrite Hx, Hmin. ring.
Qed.

(** With a running sum that never exceeds the draw, the walk falls through
    to the initial value [unsigned(-1)]. *)
Lemma get_parent_from_zero r sum sc weights :
  (0 <= r)%Q → (sum == 0)%Q → Forall (λ w, (w == 0)%Q) weights →
  get_parent_from r sum sc weights = UINT_MAX.
Proof.
  intros Hr Hsum Hall. revert sum sc Hsum.
  induction Hall as [|w weights Hw Hall IH]; intros sum sc Hsum; [done|].
  simpl. assert (Hzero : (sum + w == 0)%Q) by (rewrite Hsum, Hw; ring).
  destruct (Qltb r (sum + w)) eqn:Hlt.
  - apply Qltb_lt in Hlt. rewrite Hzero in Hlt.
    by apply Qlt_not_le in Hlt.
  - by apply IH.
Qed.

Lemma get_parent_at_zero r weights :
  (0 <= r)%Q → Forall (λ w, (w == 0)%Q) weights →
  get_parent_at r weights = UINT_MAX.
Proof. intros Hr Hall. by apply get_parent_from_zero. Qed.

(** The walk selects the first candidate at which the running sum exceeds
    the draw. *)
Lemma get_parent_from_first r sum sc weights i :
  i < length weights →
  Qltb r (foldl Qplus sum (take (S i) weights)) = true →
  (∀ j, j < i → Qltb r (foldl Qplus sum (take (S j) weights)) = false) →
  get_parent_from r sum sc weights = N.of_nat (sc + i).
Proof.
  revert sum sc i. induction weights as [|w weights IH]; intros sum sc i Hi;
    [simpl in Hi; lia|].
  simpl. intros Hfirst Hbefore. destruct i as [|i].
  - rewrite take_0 in Hfirst. simpl in Hfirst. rewrite Hfirst.
    f_equal. lia.
  - pose proof (Hbefore 0) as H0. rewrite take_0 in H0. simpl in H0.
    rewrite H0 by lia.
    rewrite (IH (sum + w)%Q (S sc) i); [f_equal; lia|simpl in Hi; lia|done|].
    intros j Hj. apply (Hbefore (S j)). lia.
Qed.

Lemma get_parent_at_first r weights i :
  i < length weights →
  Qltb r (foldl Qplus 0%Q (take (S i) weights)) = true →
  (∀ j, j < i → Qltb r (foldl Qplus 0%Q (take (S j) weights)) = false) →
  get_parent_at r weights = N.of_nat i.
Proof. apply get_parent_from_first. Qed.

(** A selected parent is an index of [weights_]. *)
Lemma get_parent_from_range r sum sc weights :
  get_parent_from r sum sc weights = UINT_MAX ∨
  (N.of_nat sc <= get_parent_from r sum sc weights
               < N.of_nat (sc + length weights))%N.
Proof.
  revert sum sc. induction weights as [|w weights IH]; intros sum sc; simpl.
  - by left.
  - destruct (Qltb r (sum + w)); [right; lia|].
    destruct (IH (sum + w)%Q (S sc)) as [->|Hrange]; [by left|right]. lia.
Qed.

End Weights.

(** * Computations on the tape *)

Section Tape.
Implicit Types (t : Tape) (k : nat).

Lemma bind_Done {A B} (m : M A) (f : A → M B) t k b k' :
  (m ≫= f) t k = Done (b, k') ↔
  ∃ a k1, m t k = Done (a, k1) ∧ f a t k1 = Done (b, k').
Proof.
  unfold mbind, M_bind. destruct (m t k) as [[a k1]| |]; split.
  - intros Hf. by exists a, k1.
  - by intros (? & ? & [= <- <-] & Hf).
  - done.
  - by intros (? & ? & ? & _).
  - done.
  - by intros (? & ? & ? & _).
Qed.

Lemma bind_OutOfFuel {A B} (m : M A) (f : A → M B) t k :
  m t k = OutOfFuel → (m ≫= f) t k = OutOfFuel.
Proof. intros Hm. unfold mbind, M_bind. by rewrite Hm. Qed.

Lemma bind_step {A B} (m : M A) (f : A → M B) t k a k1 :
  m t k = Done (a, k1) → (m ≫= f) t k = f a t k1.
Proof. intros Hm. unfold mbind, M_bind. by rewrite Hm. Qed.

Lemma ret_Done {A} (a b : A) t k k' :
  (mret a : M A) t k = Done (b, k') ↔ a = b ∧ k = k'.
Proof. unfold mret, M_ret. split; [by intros [= -> ->]|by intros [-> ->]]. Qed.

Lemma lift_Done {A} (r : Res A) t k a k' :
  lift r t k = Done (a, k') ↔ r = Done a ∧ k = k'.
Proof.
  unfold lift. destruct r; split; try done.
  - by intros [= -> ->].
  - by intros [[= ->] ->].
  - by intros [? _].
  - by intros [? _].
Qed.

Lemma read_Done {A} (l : list A) (i : N) t k a k' :
  read l i t k = Done (a, k') ↔
  (i < N.of_nat (length l))%N ∧ l !! N.to_nat i = Some a ∧ k = k'.
Proof.
  unfold read. destruct (N.ltb_spec i (N.of_nat (length l))) as [Hlt|Hge].
  - destruct (l !! N.to_nat i) as [a'|] eqn:Hl.
    + rewrite ret_Done. split.
      * by intros [-> ->].
      * by intros (_ & [= ->] & ->).
    + unfold undefined. split; [done|]. by intros (_ & ? & _).
  - unfold undefined. split; [done|]. intros [Hlt _]. lia.
Qed.

Lemma read_nat_Done {A} (l : list A) (i : nat) t k a k' :
  read l (N.of_nat i) t k = Done (a, k') ↔ l !! i = Some a ∧ k = k'.
Proof.
  rewrite read_Done, Nat2N.id. split; [by intros (_ & ? & ?)|].
  intros [Hl ->]. split_and!; [|done..].
  apply lookup_lt_Some in Hl. lia.
Qed.

Lemma rand_Done n t k x k' :
  rand n t k = Done (x, k') → x < n ∧ k' = S k.
Proof.
  unfold rand. destruct (Nat.eqb_spec n 0) as [->|Hn]; [done|].
  intros [= <- <-]. split; [|done]. by apply Nat.mod_upper_bound.
Qed.

End Tape.

Section LoopsTape.
Context {St : Type}.
Implicit Types (body : nat → St → M St) (s : St) (t : Tape) (k : nat).

Lemma for_loopT_inv (I : nat → St → nat → Prop) t lo hi body s k s' k' :
  lo ≤ hi → I lo s k →
  (∀ i s k s' k', lo ≤ i < hi → I i s k → body i s t k = Done (s', k') →
                  I (S i) s' k') →
  for_loopM lo hi body s t k = Done (s', k') → I hi s' k'.
Proof.
  intros Hle Hs Hstep. revert s' k'. induction hi as [|hi IH]; intros s' k'.
  - assert (lo = 0) as -> by lia. rewrite for_loopM_empty by done.
    by intros [-> ->]%ret_Done.
  - destruct (decide (lo = S hi)) as [->|Hne].
    + rewrite for_loopM_empty by done. by intros [-> ->]%ret_Done.
    + rewrite for_loopM_last by lia.
      intros (s1 & k1 & Hloop & Hbody)%bind_Done.
      apply (Hstep hi s1 k1); [lia| |done].
      apply IH; [lia| |done]. intros i s2 k2 s3 k3 Hi. apply Hstep. lia.
Qed.

Lemma for_loopT_total (I : nat → St → nat → Prop) t lo hi body s k :
  lo ≤ hi → I lo s k →
  (∀ i s k, lo ≤ i < hi → I i s k →
            ∃ s' k', body i s t k = Done (s', k') ∧ I (S i) s' k') →
  ∃ s' k', for_loopM lo hi body s t k = Done (s', k') ∧ I hi s' k'.
Proof.
  intros Hle Hs Hstep. induction hi as [|hi IH].
  - assert (lo = 0) as -> by lia. rewrite for_loopM_empty by done.
    by exists s, k.
  - destruct (decide (lo = S hi)) as [->|Hne].
    + rewrite for_loopM_empty by done. by exists s, k.
    + rewrite for_loopM_last by lia.
      destruct IH as (s1 & k1 & Hloop & Hs1); [lia| |].
      { intros i s2 k2 Hi. apply Hstep. lia. }
      destruct (Hstep hi s1 k1) as (s2 & k2 & Hbody & Hs2); [lia|done|].
      exists s2, k2. split; [|done]. by rewrite (bind_step _ _ _ _ _ _ Hloop).
Qed.

(** A loop whose first iteration needs more fuel needs more fuel. *)
Lemma for_loopT_out_of_fuel t lo hi body s k :
  lo < hi → body lo s t k = OutOfFuel →
  for_loopM lo hi body s t k = OutOfFuel.
Proof.
  intros Hlt Hbody. unfold for_loopM.
  replace (hi - lo) with (S (hi - S lo)) by lia. simpl.
  generalize (seq (S lo) (hi - S lo)). intros l.
  match goal with
  | |- foldl _ ?m0 l t k = _ =>
      assert (Hm : m0 t k = OutOfFuel) by exact Hbody;
      revert Hm; generalize m0
  end.
  clear Hbody. induction l as [|i l IH]; intros m Hm; [done|].
  simpl. apply IH. by apply bind_OutOfFuel.
Qed.

End LoopsTape.

(** * The population phases *)

Section Population.
Context `{Collaborators}.
Implicit Types (s : Scheduler) (t : Tape) (k : nat) (g : Grid).

Lemma frame_refl s : frame s s.
Proof. by repeat split. Qed.

Lemma frame_trans s1 s2 s3 : frame s1 s2 → frame s2 s3 → frame s1 s3.
Proof.
  intros (?&?&?&?&?) (?&?&?&?&?). repeat split; congruence.
Qed.

Lemma frame_set_next s next :
  length next = length (next_schedules_ s) → frame s (set_next s next).
Proof. intros Hlen. by repeat split. Qed.

(** *** The elite copy *)

Lemma copy_elite_Done i s t k s' k' :
  copy_elite i s t k = Done (s', k') →
  ∃ idx src,
    best_indices_ s !! i = Some idx ∧
    current_schedules_ s !! idx = Some src ∧
    i < length (next_schedules_ s) ∧
    s' = set_next s (<[i := src]> (next_schedules_ s)) ∧ k' = k.
Proof.
  unfold copy_elite.
  intros (idx & k1 & [Hidx <-]%read_nat_Done & Hrest)%bind_Done.
  apply bind_Done in Hrest as (src & k2 & [Hsrc <-]%read_nat_Done & Hrest).
  apply bind_Done in Hrest as (old & k3 & [Hold <-]%read_nat_Done & Hrest).
  apply ret_Done in Hrest as [<- <-].
  exists idx, src. split_and!; [done..| |done|done].
  by eapply lookup_lt_Some.
Qed.

Lemma elite_loop_Done eliteSize s t k s' k' :
  for_loopM 0 eliteSize copy_elite s t k = Done (s', k') →
  frame s s' ∧ k' = k ∧
  (∀ i, i < eliteSize →
     ∃ idx g, best_indices_ s !! i = Some idx ∧
              current_schedules_ s !! idx = Some g ∧
              next_schedules_ s' !! i = Some g) ∧
  (∀ i, eliteSize ≤ i → next_schedules_ s' !! i = next_schedules_ s !! i).
Proof.
  apply (for_loopT_inv
           (λ n s1 k1,
              frame s s1 ∧ k1 = k ∧
              (∀ i, i < n →
                 ∃ idx g, best_indices_ s !! i = Some idx ∧
                          current_schedules_ s !! idx = Some g ∧
                          next_schedules_ s1 !! i = Some g) ∧
              (∀ i, n ≤ i →
                 next_schedules_ s1 !! i = next_schedules_ s !! i)));
    [lia| |].
  - split_and!; [apply frame_refl|done| |done]. intros i Hi. lia.
  - intros i s1 k1 s2 k2 Hi (Hfr & -> & Hcopied & Hrest) Hbody.
    apply copy_elite_Done in Hbody as (idx & src & Hidx & Hsrc & Hlt & -> & ->).
    pose proof Hfr as (Hcur & _ & _ & Hbi & Hlen).
    split_and!; [|done| |].
    + eapply frame_trans; [done|]. apply frame_set_next.
      by rewrite length_insert.
    + intros j Hj. simpl. destruct (decide (j = i)) as [->|Hne].
      * exists idx, src. rewrite <- Hbi, <- Hcur.
        split_and!; [done..|]. by rewrite list_lookup_insert_eq.
      * rewrite list_lookup_insert_ne by done. apply Hcopied. lia.
    + intros j Hj. simpl. rewrite list_lookup_insert_ne by lia.
      apply Hrest. lia.
Qed.

Lemma elite_loop_total eliteSize s t k :
  eliteSize ≤ length (next_schedules_ s) →
  (∀ i, i < eliteSize →
     ∃ idx, best_indices_ s !! i = Some idx ∧ idx < nschedules s) →
  ∃ s', for_loopM 0 eliteSize copy_elite s t k = Done (s', k) ∧ frame s s'.
Proof.
  intros Hlen Hbi.
  destruct (for_loopT_total (λ _ s1 k1, frame s s1 ∧ k1 = k) t 0 eliteSize
              copy_elite s k) as (s' & k' & Hloop & Hfr & ->);
    [lia|split; [apply frame_refl|done]| |by exists s'].
  intros i s1 k1 Hi [Hfr ->].
  pose proof Hfr as (Hcur & _ & _ & Hbi1 & Hlen1).
  destruct (Hbi i) as (idx & Hidx & Hlt); [lia|].
  destruct (lookup_lt_is_Some_2 (current_schedules_ s) idx) as [src Hsrc];
    [done|].
  destruct (lookup_lt_is_Some_2 (next_schedules_ s1) i) as [old Hold]; [lia|].
  exists (set_next s1 (<[i := src]> (next_schedules_ s1))), k.
  split.
  - unfold copy_elite.
    rewrite (bind_step _ _ _ _ idx k); [|apply read_nat_Done; by rewrite Hbi1].
    rewrite (bind_step _ _ _ _ src k); [|apply read_nat_Done; by rewrite Hcur].
    by rewrite (bind_step _ _ _ _ old k); [|by apply read_nat_Done].
  - split; [|done]. eapply frame_trans; [done|]. apply frame_set_next.
    by rewrite length_insert.
Qed.

(** *** Parent selection *)

Lemma get_parent_Done s t k pid k' :
  get_parent s t k = Done (pid, k') ↔
  pid = get_parent_at (as_double (t k)) (weights_ s) ∧ k' = S k.
Proof.
  unfold get_parent, drand, mbind, M_bind, mret, M_ret.
  split; [by intros [= <- <-]|by intros [-> ->]].
Qed.

Lemma redraw_parent_Done fuel s pid1 pid2 t k pid k' :
  redraw_parent fuel s pid1 pid2 t k = Done (pid, k') → pid ≠ pid1.
Proof.
  revert pid2 k. induction fuel as [|fuel IH]; intros pid2 k; simpl.
  - destruct (N.eqb_spec pid2 pid1) as [->|Hne]; [done|].
    by intros [<- _]%ret_Done.
  - destruct (N.eqb_spec pid2 pid1) as [->|Hne].
    + intros (pid3 & k1 & _ & Hrest)%bind_Done. by eapply IH.
    + by intros [<- _]%ret_Done.
Qed.

(** When every draw selects [pid1] again, the redraw loop never exits. *)
Lemma redraw_parent_stuck fuel s pid1 t k :
  (∀ k1, get_parent s t k1 = Done (pid1, S k1)) →
  redraw_parent fuel s pid1 pid1 t k = OutOfFuel.
Proof.
  intros Hsame. revert k. induction fuel as [|fuel IH]; intros k; simpl.
  - by rewrite N.eqb_refl.
  - rewrite N.eqb_refl. rewrite (bind_step _ _ _ _ _ _ (Hsame k)). apply IH.
Qed.

(** *** One child *)

Lemma breed_Done fuel mom_index dad_index child_index s t k s' k' :
  breed fuel mom_index dad_index child_index s t k = Done (s', k') →
  ∃ mom dad child end_index child',
    current_schedules_ s !! N.to_nat mom_index = Some mom ∧
    current_schedules_ s !! N.to_nat dad_index = Some dad ∧
    next_schedules_ s !! child_index = Some child ∧
    end_index < nrooms ∧
    breed_at fuel mom dad end_index child = Done child' ∧
    s' = set_next s (<[child_index := child']> (next_schedules_ s)).
Proof.
  unfold breed.
  intros (mom & k1 & (_ & Hmom & <-)%read_Done & Hrest)%bind_Done.
  apply bind_Done in Hrest as (dad & k2 & (_ & Hdad & <-)%read_Done & Hrest).
  apply bind_Done in Hrest as (child & k3 & [Hchild <-]%read_nat_Done & Hrest).
  apply bind_Done in Hrest as (e & k4 & [He _]%rand_Done & Hrest).
  apply bind_Done in Hrest as (child' & k5 & [Hbreed _]%lift_Done & Hrest).
  apply ret_Done in Hrest as [<- _].
  by exists mom, dad, child, e, child'.
Qed.

(** The cut of [breed] is a room index, and the child takes the rooms
    before it, in every timeslot, from the first parent. *)
Lemma breed_copies_rooms fuel mom_index dad_index child_index s t k s' k' :
  Forall (shape nslots nrooms) (next_schedules_ s) →
  breed fuel mom_index dad_index child_index s t k = Done (s', k') →
  ∃ mom child' end_index,
    current_schedules_ s !! N.to_nat mom_index = Some mom ∧
    next_schedules_ s' !! child_index = Some child' ∧
    end_index = as_uint (t k) `mod` nrooms ∧ end_index < nrooms ∧
    ∀ sl r, sl < nslots → r < end_index → at2 child' sl r = at2 mom sl r.
Proof.
  intros Hnext. unfold breed.
  intros (mom & k1 & (_ & Hmom & <-)%read_Done & Hrest)%bind_Done.
  apply bind_Done in Hrest as (dad & k2 & (_ & Hdad & <-)%read_Done & Hrest).
  apply bind_Done in Hrest as (child & k3 & [Hchild <-]%read_nat_Done & Hrest).
  apply bind_Done in Hrest as (e & k4 & Hrand & Hrest).
  apply bind_Done in Hrest as (child' & k5 & [Hbreed _]%lift_Done & Hrest).
  apply ret_Done in Hrest as [<- _].
  pose proof (rand_Done _ _ _ _ _ Hrand) as [He _].
  assert (He' : e = as_uint (t k) `mod` nrooms).
  { unfold rand in Hrand. destruct (nrooms =? 0); [done|]. by injection Hrand. }
  apply breed_at_cells in Hbreed as (_ & Hcopied & _);
    [|by eapply (Forall_lookup_1 _ _ _ _ Hnext)|lia].
  exists mom, child', e. split_and!; [done| |done..]. simpl.
  rewrite list_lookup_insert_eq; [done|]. by eapply lookup_lt_Some.
Qed.

Lemma breed_child_Done fuel i s t k s' k' :
  breed_child fuel i s t k = Done (s', k') →
  ∃ pid1 pid2 mom dad child end_index child',
    pid1 ≠ pid2 ∧
    current_schedules_ s !! pid1 = Some mom ∧
    current_schedules_ s !! pid2 = Some dad ∧
    next_schedules_ s !! i = Some child ∧
    end_index < nrooms ∧
    breed_at fuel mom dad end_index child = Done child' ∧
    s' = set_next s (<[i := child']> (next_schedules_ s)).
Proof.
  unfold breed_child.
  intros (pid1 & k1 & _ & Hrest)%bind_Done.
  apply bind_Done in Hrest as (pid2 & k2 & Hne%redraw_parent_Done & Hrest).
  apply breed_Done in Hrest
    as (mom & dad & child & e & child' & Hmom & Hdad & Hchild & He & Hb & ->).
  exists (N.to_nat pid1), (N.to_nat pid2), mom, dad, child, e, child'.
  split_and!; [|done..]. intros Heq. apply Hne. lia.
Qed.

Lemma breeding_loop_Done fuel lo hi s t k s' k' :
  Forall perm_grid (current_schedules_ s) →
  Forall (shape nslots nrooms) (next_schedules_ s) →
  for_loopM lo hi (breed_child fuel) s t k = Done (s', k') →
  frame s s' ∧
  (∀ i, lo ≤ i < hi → ∃ g, next_schedules_ s' !! i = Some g ∧ perm_grid g) ∧
  (∀ i, ¬ (lo ≤ i < hi) → next_schedules_ s' !! i = next_schedules_ s !! i).
Proof.
  intros Hcur Hnext. destruct (decide (lo ≤ hi)) as [Hle|Hgt].
  2:{ rewrite for_loopM_empty by lia. intros [<- _]%ret_Done.
      split_and!; [apply frame_refl| |done]. intros i Hi. lia. }
  intros Hloop.
  apply (for_loopT_inv
           (λ n s1 _,
              frame s s1 ∧
              (∀ i, lo ≤ i < n →
                 ∃ g, next_schedules_ s1 !! i = Some g ∧ perm_grid g) ∧
              (∀ i, ¬ (lo ≤ i < n) →
                 next_schedules_ s1 !! i = next_schedules_ s !! i)))
    in Hloop; [done|done| |].
  - split_and!; [apply frame_refl| |done]. intros i Hi. lia.
  - clear Hloop. intros i s1 k1 s2 k2 Hi (Hfr & Hbred & Hrest) Hbody.
    apply breed_child_Done in Hbody
      as (pid1 & pid2 & mom & dad & child & e & child' &
          Hne & Hmom & Hdad & Hchild & He & Hbreed & ->).
    pose proof Hfr as (Hcur1 & _ & _ & _ & Hlen).
    rewrite Hcur1 in Hmom, Hdad.
    assert (perm_grid child') as Hperm.
    { eapply (breed_at_perm_grid fuel mom dad e child); [| | |lia|done].
      - by eapply (Forall_lookup_1 _ _ _ _ Hcur).
      - by eapply (Forall_lookup_1 _ _ _ _ Hcur).
      - rewrite Hrest in Hchild by lia.
        by eapply (Forall_lookup_1 _ _ _ _ Hnext). }
    split_and!.
    + eapply frame_trans; [done|]. apply frame_set_next.
      by rewrite length_insert.
    + intros j Hj. simpl. destruct (decide (j = i)) as [->|Hji].
      * exists child'. split; [|done]. rewrite list_lookup_insert_eq; [done|].
        by eapply lookup_lt_Some.
      * rewrite list_lookup_insert_ne by done. apply Hbred. lia.
    + intros j Hj. simpl. rewrite list_lookup_insert_ne by lia.
      apply Hrest. lia.
Qed.

(** *** [breed_population] *)

Lemma breed_population_Done fuel eliteSize s t k s' k' :
  Forall perm_grid (current_schedules_ s) →
  Forall (shape nslots nrooms) (next_schedules_ s) →
  length (next_schedules_ s) = nschedules s →
  breed_population fuel eliteSize s t k = Done (s', k') →
  frame s s' ∧
  Forall perm_grid (next_schedules_ s') ∧
  (∀ i, i < eliteSize →
     ∃ idx g, best_indices_ s !! i = Some idx ∧
              current_schedules_ s !! idx = Some g ∧
              next_schedules_ s' !! i = Some g).
Proof.
  intros Hcur Hnext Hlen. unfold breed_population.
  intros (s1 & k1 & Helite & Hbreed)%bind_Done.
  apply elite_loop_Done in Helite as (Hfr1 & -> & Hcopied & Hrest).
  pose proof Hfr1 as (Hcur1 & _ & _ & _ & Hlen1).
  assert (Hshape1 : ∀ i g, eliteSize ≤ i → next_schedules_ s1 !! i = Some g →
                           shape nslots nrooms g).
  { intros i g Hi Hg. rewrite Hrest in Hg by done.
    by eapply (Forall_lookup_1 _ _ _ _ Hnext). }
  assert (Hnext1 : Forall (shape nslots nrooms) (next_schedules_ s1)).
  { apply Forall_lookup_2. intros i g Hg.
    destruct (decide (i < eliteSize)) as [Hi|Hi]; [|apply (Hshape1 i); [lia|done]].
    destruct (Hcopied i Hi) as (idx & g' & _ & Hg' & Hnew).
    assert (g = g') as -> by congruence.
    by destruct (Forall_lookup_1 _ _ _ _ Hcur Hg'). }
  apply breeding_loop_Done in Hbreed as (Hfr2 & Hbred & Hrest2);
    [|by rewrite Hcur1|done].
  pose proof Hfr2 as (_ & _ & _ & _ & Hlen2).
  split_and!.
  - by eapply frame_trans.
  - apply Forall_lookup_2. intros i g Hg.
    assert (i < nschedules s) as Hi.
    { apply lookup_lt_Some in Hg. lia. }
    destruct (decide (i < eliteSize)) as [Hlt|Hge].
    + rewrite Hrest2 in Hg by lia.
      destruct (Hcopied i Hlt) as (idx & g' & _ & Hg' & Hnew).
      assert (g = g') as -> by congruence.
      by eapply (Forall_lookup_1 _ _ _ _ Hcur).
    + destruct (Hbred i) as (g' & Hg' & Hperm).
      { unfold nschedules. rewrite Hcur1. unfold nschedules in Hi. lia. }
      congruence.
  - intros i Hi. destruct (Hcopied i Hi) as (idx & g & Hidx & Hg & Hnew).
    exists idx, g. split_and!; [done..|]. rewrite Hrest2; [done|lia].
Qed.

End Population.

Section Mutation.
Context `{Collaborators}.
Implicit Types (s : Scheduler) (t : Tape) (k : nat) (g : Grid).

Lemma redraw_slot_Done fuel sl sl2 t k x k' :
  redraw_slot fuel sl sl2 t k = Done (x, k') →
  x ≠ sl ∧ (x = sl2 ∨ x < nslots).
Proof.
  revert sl2 k. induction fuel as [|fuel IH]; intros sl2 k; simpl.
  - destruct (Nat.eqb_spec sl2 sl) as [->|Hne]; [done|].
    intros [<- _]%ret_Done. split; [done|by left].
  - destruct (Nat.eqb_spec sl2 sl) as [->|Hne].
    + intros (sl3 & k1 & [Hlt _]%rand_Done & Hrest)%bind_Done.
      apply IH in Hrest as [Hx [->|Hx']]; split; auto.
    + intros [<- _]%ret_Done. split; [done|by left].
Qed.

Lemma mutate_cell_Done fuel mutationRate sl r g t k g' k' :
  sl < nslots → r < nrooms → perm_grid g →
  mutate_cell fuel mutationRate sl r g t k = Done (g', k') → perm_grid g'.
Proof.
  intros Hsl Hr Hg. unfold mutate_cell.
  intros (d & k1 & _ & Hrest)%bind_Done.
  destruct (Qltb d mutationRate).
  - apply bind_Done in Hrest as (sl2 & k2 & Hsl2 & [<- _]%ret_Done).
    apply redraw_slot_Done in Hsl2 as [Hne [->|Hlt]]; [done|].
    by apply perm_grid_swap_cells.
  - by apply ret_Done in Hrest as [<- _].
Qed.

(** The mutator exchanges cells of one schedule: the multiset is kept. *)
Lemma mutate_schedule_Done fuel mutationRate g t k g' k' :
  perm_grid g →
  mutate_schedule fuel mutationRate g t k = Done (g', k') → perm_grid g'.
Proof.
  intros Hg. unfold mutate_schedule.
  apply (for_loopT_inv (λ _ g _, perm_grid g)); [lia|done|].
  intros sl g1 k1 g2 k2 Hsl Hg1.
  apply (for_loopT_inv (λ _ g _, perm_grid g)); [lia|done|].
  intros r g3 k3 g4 k4 Hr Hg3.
  apply mutate_cell_Done; [lia..|done].
Qed.

Lemma mutate_one_Done fuel mutationRate sc s t k s' k' :
  mutate_one fuel mutationRate sc s t k = Done (s', k') →
  frame s s' ∧
  next_schedules_ s' !! 0 = next_schedules_ s !! 0 ∧
  (Forall perm_grid (next_schedules_ s) →
   Forall perm_grid (next_schedules_ s')).
Proof.
  unfold mutate_one. destruct (Nat.eqb_spec sc 0) as [->|Hne].
  - intros [<- _]%ret_Done. split_and!; [apply frame_refl|done..].
  - intros (g & k1 & [Hg <-]%read_nat_Done & Hrest)%bind_Done.
    apply bind_Done in Hrest as (g' & k2 & Hmut & [<- _]%ret_Done).
    split_and!.
    + apply frame_set_next. by rewrite length_insert.
    + simpl. by rewrite list_lookup_insert_ne.
    + intros Hall. simpl. apply Forall_insert; [done|].
      eapply mutate_schedule_Done; [|done].
      by eapply (Forall_lookup_1 _ _ _ _ Hall).
Qed.

Lemma mutate_population_Done fuel mutationRate s t k s' k' :
  mutate_population fuel mutationRate s t k = Done (s', k') →
  frame s s' ∧
  next_schedules_ s' !! 0 = next_schedules_ s !! 0 ∧
  (Forall perm_grid (next_schedules_ s) →
   Forall perm_grid (next_schedules_ s')).
Proof.
  unfold mutate_population.
  apply (for_loopT_inv
           (λ _ s1 _,
              frame s s1 ∧
              next_schedules_ s1 !! 0 = next_schedules_ s !! 0 ∧
              (Forall perm_grid (next_schedules_ s) →
               Forall perm_grid (next_schedules_ s1)))); [lia| |].
  - split_and!; [apply frame_refl|done..].
  - intros sc s1 k1 s2 k2 _ (Hfr & Hzero & Hperm) Hbody.
    apply mutate_one_Done in Hbody as (Hfr' & Hzero' & Hperm').
    split_and!; [by eapply frame_trans|congruence|auto].
Qed.

End Mutation.

(** * Initialisation *)

Section Initialise.
Context `{Collaborators}.
Implicit Types (numbers : list nat) (t : Tape) (k : nat) (g : Grid).

Lemma swap_list_perm {A} (l : list A) i j : swap_list l i j ≡ₚ l.
Proof.
  unfold swap_list.
  destruct (l !! i) as [x|] eqn:Hx; [|done].
  destruct (l !! j) as [y|] eqn:Hy; [|done].
  destruct (insert_perm l i x Hx) as [Hl Hl1].
  assert (Hy1 : <[i := y]> l !! j = Some y).
  { destruct (decide (i = j)) as [->|Hne].
    - rewrite list_lookup_insert_eq; [done|]. by eapply lookup_lt_Some.
    - by rewrite list_lookup_insert_ne. }
  destruct (insert_perm _ j y Hy1) as [Hl2 Hl3].
  assert (Hk : y :: delete i l ≡ₚ y :: delete j (<[i := y]> l))
    by (etrans; [symmetry; apply Hl1|exact Hl2]).
  apply Permutation_cons_inv in Hk.
  etrans; [apply Hl3|]. etrans; [|symmetry; exact Hl].
  by apply Permutation_cons.
Qed.

Lemma length_swap_list {A} (l : list A) i j :
  length (swap_list l i j) = length l.
Proof.
  unfold swap_list. repeat case_match; by rewrite ?length_insert.
Qed.

(** [std::shuffle] returns, with a rearrangement of its input. *)
Lemma shuffle_Done numbers t k :
  ∃ numbers' k', shuffle numbers t k = Done (numbers', k') ∧
                 numbers' ≡ₚ numbers.
Proof.
  unfold shuffle. generalize (reverse (seq 1 (length numbers - 1))).
  intros l.
  assert (Hm : ∃ a k', (mret numbers : M (list nat)) t k = Done (a, k') ∧
                       a ≡ₚ numbers) by by exists numbers, k.
  revert Hm. generalize (mret numbers : M (list nat)).
  induction l as [|i l IH]; intros m Hm; [done|].
  simpl. apply IH. destruct Hm as (a & k1 & Hm & Ha).
  exists (swap_list a i (as_uint (t k1) `mod` (i + 1))), (S k1).
  split; [|by rewrite swap_list_perm].
  rewrite (bind_step _ _ _ _ _ _ Hm).
  unfold rand, mbind, M_bind, mret, M_ret.
  by destruct (Nat.eqb_spec (i + 1) 0) as [?|_]; [lia|].
Qed.

Lemma shape_zero_schedule : shape nslots nrooms zero_schedule.
Proof.
  unfold zero_schedule. split; [by rewrite length_replicate|].
  apply Forall_replicate. by rewrite length_replicate.
Qed.

(** The copy loop lays the shuffled numbers out row by row. *)
Lemma fill_schedule_cells numbers g :
  shape nslots nrooms g → length numbers = nslots * nrooms →
  shape nslots nrooms (fill_schedule numbers g) ∧
  ∀ i j, i < nslots → j < nrooms →
         numbers !! (i * nrooms + j) = Some (at2 (fill_schedule numbers g) i j).
Proof.
  intros Hsh Hlen.
  set (P := λ i j v : nat, numbers !! (i * nrooms + j) = Some v).
  unfold fill_schedule.
  pose (I := λ r (st : Grid * nat),
          shape nslots nrooms st.1 ∧ st.2 = r * nrooms ∧
          written P 0 nrooms r 0 st.1).
  match goal with
  | |- context [for_loop 0 nslots ?body0 ?st0] =>
      assert (Hloop : I nslots (for_loop 0 nslots body0 st0))
  end.
  { apply (for_loop_inv I);
      [lia|split_and!; [done|done|apply written_start]|].
    intros r [g1 ind1] Hr (Hg1 & Hind1 & Hw1). simpl in *.
    pose (J := λ c (st : Grid * nat),
            shape nslots nrooms st.1 ∧ st.2 = r * nrooms + c ∧
            written P 0 nrooms r c st.1).
    match goal with
    | |- context [for_loop 0 nrooms ?body0 ?st0] =>
        assert (Hrow : J nrooms (for_loop 0 nrooms body0 st0))
    end.
    { apply (for_loop_inv J); [lia|split_and!; simpl; [done|lia|done]|].
      intros c [g2 ind2] Hc (Hg2 & Hind2 & Hw2). simpl in *.
      split_and!; simpl; [by apply shape_set2|lia|].
      eapply written_set2; [done|lia|lia|done|].
      unfold P. subst ind2.
      destruct (lookup_lt_is_Some_2 numbers (r * nrooms + c)) as [v Hv];
        [nia|]. by rewrite Hv. }
    destruct Hrow as (Hg' & Hind' & Hw').
    split_and!; [done|lia|by apply written_next_row]. }
  destruct Hloop as (Hsh' & _ & Hw). split; [done|].
  intros i j Hi Hj. apply (written_all P nslots 0 nrooms); [done|done|lia].
Qed.

Lemma fill_schedule_perm_grid numbers g :
  shape nslots nrooms g → numbers ≡ₚ seq 0 (nrooms * nslots) →
  perm_grid (fill_schedule numbers g).
Proof.
  intros Hsh Hperm.
  assert (Hlen : length numbers = nslots * nrooms).
  { rewrite Hperm, length_seq. lia. }
  destruct (fill_schedule_cells numbers g Hsh Hlen) as [Hsh' Hcells].
  assert (Hnd : NoDup numbers) by (rewrite Hperm; apply NoDup_seq).
  apply perm_grid_intro; [done| |].
  - intros [i j] [Hi Hj]%elem_of_cells. simpl in *.
    specialize (Hcells i j Hi Hj).
    apply list_elem_of_lookup_2 in Hcells.
    revert Hcells. generalize (at2 (fill_schedule numbers g) i j).
    intros v Hv. rewrite Hperm in Hv. apply elem_of_seq in Hv. lia.
  - intros [i j] [i' j'] [Hi Hj]%elem_of_cells [Hi' Hj']%elem_of_cells.
    simpl in *. intros Heq.
    pose proof (Hcells i j Hi Hj) as H1.
    pose proof (Hcells i' j' Hi' Hj') as H2. rewrite <- Heq in H2.
    pose proof (NoDup_lookup _ _ _ _ Hnd H1 H2) as Hidx.
    assert (i = i') as -> by nia. f_equal. lia.
Qed.

(** Every schedule of the first generation is a permutation schedule. *)
Lemma initialize_schedules_Done n t k :
  ∃ s k', initialize_schedules n t k = Done (s, k') ∧
          nschedules s = n ∧
          length (next_schedules_ s) = n ∧
          Forall (shape nslots nrooms) (next_schedules_ s) ∧
          Forall perm_grid (current_schedules_ s).
Proof.
  unfold initialize_schedules.
  destruct (for_loopT_total
    (λ sc (st : list nat * list Grid) _,
       st.1 ≡ₚ seq 0 (nrooms * nslots) ∧ length st.2 = n ∧
       (∀ i g, i < sc → st.2 !! i = Some g → perm_grid g) ∧
       (∀ i, sc ≤ i → i < n → st.2 !! i = Some zero_schedule))
    t 0 n
    (λ sc '(numbers, h),
       numbers ← shuffle numbers ;
       mret (numbers, alter (fill_schedule numbers) sc h))
    (seq 0 (nrooms * nslots), replicate n zero_schedule) k)
    as ([numbers h] & k' & Hloop & Hnum & Hlen & Hdone & _).
  - lia.
  - simpl. split_and!; [done|by rewrite length_replicate|lia|].
    intros i _ Hi. by apply lookup_replicate_2.
  - intros sc [numbers h] k1 Hsc (Hnum & Hlen & Hdone & Htodo). simpl in *.
    destruct (shuffle_Done numbers t k1) as (numbers' & k2 & Hsh & Hperm).
    exists (numbers', alter (fill_schedule numbers') sc h), k2.
    split; [by rewrite (bind_step _ _ _ _ _ _ Hsh)|]. simpl.
    split_and!; [by rewrite Hperm|by rewrite length_alter| |].
    + intros i g Hi. destruct (decide (i = sc)) as [->|Hne].
      * rewrite list_lookup_alter_eq, (Htodo sc) by lia. intros [= <-].
        apply fill_schedule_perm_grid; [apply shape_zero_schedule|].
        by rewrite Hperm.
      * rewrite list_lookup_alter_ne by done. apply Hdone. lia.
    + intros i Hi Hn. rewrite list_lookup_alter_ne by lia. apply Htodo; lia.
  - simpl in *. eexists _, k'.
    split; [by rewrite (bind_step _ _ _ _ _ _ Hloop)|]. simpl.
    split_and!; [done|by rewrite length_replicate| |].
    + apply Forall_replicate, shape_zero_schedule.
    + apply Forall_lookup_2. intros i g Hg. apply (Hdone i); [|done].
      apply lookup_lt_Some in Hg. lia.
Qed.

End Initialise.

(** * Exchange sorts *)

Section Bubble.
Context {St K : Type}.
Context (key : St → nat → K) (sw : K → K → bool).
Context (cell : nat → St → St) (n : nat) (ok : St → Prop).
Hypothesis cell_ok : ∀ j s, j + 1 < n → ok s → ok (cell j s).
Hypothesis cell_swap :
  ∀ j s, j + 1 < n → ok s → sw (key s j) (key s (j + 1)) = true →
    key (cell j s) j = key s (j + 1) ∧
    key (cell j s) (j + 1) = key s j ∧
    ∀ i, i ≠ j → i ≠ j + 1 → key (cell j s) i = key s i.
Hypothesis cell_keep :
  ∀ j s, j + 1 < n → ok s → sw (key s j) (key s (j + 1)) = false →
    cell j s = s.
Hypothesis sw_asym : ∀ a b, sw a b = true → sw b a = false.
Hypothesis sw_trans :
  ∀ a b c, sw a b = false → sw b c = false → sw a c = false.

(** One pass carries the last key in order to position [m]. *)
Lemma bubble_pass m s :
  m < n → ok s → sorted_from key sw n (S m) s →
  ok (for_loop 0 m cell s) ∧ sorted_from key sw n m (for_loop 0 m cell s).
Proof using All.
  intros Hm Hok Hsorted.
  pose (I := λ j s1,
          ok s1 ∧
          (∀ a, a ≤ m → ∃ a', a' ≤ m ∧ key s1 a = key s a') ∧
          (∀ b, m < b → key s1 b = key s b) ∧
          (∀ a, a < j → sw (key s1 a) (key s1 j) = false)).
  assert (Hloop : I m (for_loop 0 m cell s)).
  { apply (for_loop_inv I); [lia| |].
    - split_and!; [done|by eauto|done|]. intros a Ha. lia.
    - intros j s1 Hj (Hok1 & Hpre & Hpost & Hlast).
      destruct (sw (key s1 j) (key s1 (j + 1))) eqn:Hsw.
      + destruct (cell_swap j s1) as (Hkj & Hkj1 & Hother); [lia|done..|].
        replace (S j) with (j + 1) by lia.
        split_and!; [apply cell_ok; [lia|done]| | |].
        * intros a Ha. destruct (decide (a = j)) as [->|Hne1].
          { rewrite Hkj. apply Hpre. lia. }
          destruct (decide (a = j + 1)) as [->|Hne2].
          { rewrite Hkj1. apply Hpre. lia. }
          rewrite Hother by done. by apply Hpre.
        * intros b Hb. rewrite Hother by lia. by apply Hpost.
        * intros a Ha. rewrite Hkj1.
          destruct (decide (a = j)) as [->|Hne1].
          { rewrite Hkj. by apply sw_asym. }
          rewrite Hother by lia. apply Hlast. lia.
      + rewrite (cell_keep j s1) by (done || lia).
        replace (S j) with (j + 1) by lia.
        split_and!; [done..|].
        intros a Ha. destruct (decide (a = j)) as [->|Hne1]; [done|].
        eapply sw_trans; [|done]. apply Hlast. lia. }
  destruct Hloop as (Hok' & Hpre & Hpost & Hlast). split; [done|].
  intros a b Hab Hb Hmb. destruct (decide (b = m)) as [->|Hne].
  - by apply Hlast.
  - rewrite (Hpost b) by lia.
    destruct (decide (a ≤ m)) as [Ha|Ha].
    + destruct (Hpre a Ha) as (a' & Ha' & ->). apply Hsorted; lia.
    + rewrite (Hpost a) by lia. apply Hsorted; lia.
Qed.

(** The loops of [sort_on_ratings]. *)
Lemma bubble_sort_full s :
  ok s →
  ok (for_loop 0 n (λ i, for_loop 0 (n - i - 1) cell) s) ∧
  sorted_from key sw n 0 (for_loop 0 n (λ i, for_loop 0 (n - i - 1) cell) s).
Proof using All.
  intros Hok.
  pose (I := λ i s1, ok s1 ∧ sorted_from key sw n (n - i) s1).
  assert (Hloop : I n (for_loop 0 n (λ i, for_loop 0 (n - i - 1) cell) s)).
  { apply (for_loop_inv I); [lia| |].
    - split; [done|]. intros a b Hab Hb Hn. lia.
    - intros i s1 Hi [Hok1 Hs1]. unfold I.
      replace (n - S i) with (n - i - 1) by lia.
      apply bubble_pass; [lia|done|].
      by replace (S (n - i - 1)) with (n - i) by lia. }
  destruct Hloop as [Hok' Hs']. split; [done|].
  by rewrite Nat.sub_diag in Hs'.
Qed.

(** The loops of the priority pass of [fix_schedules]. *)
Lemma bubble_sort_rooms s :
  ok s →
  ok (for_loop 1 n (λ i, for_loop 0 (n - i) cell) s) ∧
  sorted_from key sw n 1 (for_loop 1 n (λ i, for_loop 0 (n - i) cell) s).
Proof using All.
  intros Hok. destruct (decide (1 ≤ n)) as [Hn|Hn].
  2:{ rewrite for_loop_empty by lia. split; [done|].
      intros a b Hab Hb. lia. }
  pose (I := λ i s1, ok s1 ∧ sorted_from key sw n (S (n - i)) s1).
  assert (Hloop : I n (for_loop 1 n (λ i, for_loop 0 (n - i) cell) s)).
  { apply (for_loop_inv I); [lia| |].
    - split; [done|]. intros a b Hab Hb Hle. lia.
    - intros i s1 Hi [Hok1 Hs1]. unfold I.
      replace (S (n - S i)) with (n - i) by lia.
      apply bubble_pass; [lia|done..]. }
  destruct Hloop as [Hok' Hs']. split; [done|].
  by replace (S (n - n)) with 1 in Hs' by lia.
Qed.

(** On keys without an adjacent pair to exchange, a loop of compare-and-
    exchange steps changes nothing. *)
Lemma bubble_noop lo hi s :
  hi < n → ok s →
  (∀ j, j + 1 < n → sw (key s j) (key s (j + 1)) = false) →
  for_loop lo hi cell s = s.
Proof using cell_keep.
  intros Hhi Hok Hadj.
  apply (for_loop_ind (λ s1, s1 = s)); [done|].
  intros j s1 Hj ->. apply cell_keep; [lia|done|]. apply Hadj. lia.
Qed.

End Bubble.

(** * Ranking *)

Section Ranking.
Implicit Types (ratings h : list Q) (bi : list nat).

Lemma swap_list_lookup {A} (l : list A) i j k :
  i < length l → j < length l →
  swap_list l i j !! k =
  if decide (k = j) then l !! i
  else if decide (k = i) then l !! j else l !! k.
Proof.
  intros Hi Hj. unfold swap_list.
  destruct (lookup_lt_is_Some_2 l i Hi) as [x Hx].
  destruct (lookup_lt_is_Some_2 l j Hj) as [y Hy].
  rewrite Hx, Hy.
  destruct (decide (k = j)) as [->|Hkj].
  - rewrite list_lookup_insert_eq; [done|]. by rewrite length_insert.
  - rewrite list_lookup_insert_ne by done.
    destruct (decide (k = i)) as [->|Hki].
    + by rewrite list_lookup_insert_eq.
    + by rewrite list_lookup_insert_ne.
Qed.

Lemma Qltb_asym (a b : Q) : Qltb a b = true → Qltb b a = false.
Proof. rewrite Qltb_lt, Qltb_ge. apply Qlt_le_weak. Qed.

Lemma Qltb_false_trans (a b c : Q) :
  Qltb a b = false → Qltb b c = false → Qltb a c = false.
Proof. rewrite !Qltb_ge. intros ??. by eapply Qle_trans. Qed.

Lemma ranking_keys ratings n st j :
  ranking ratings n st → j < n → st.2 !! j = Some (rating_key st j).
Proof.
  intros (_ & Hlen & _) Hj. unfold rating_key.
  destruct (lookup_lt_is_Some_2 st.2 j) as [x Hx]; [lia|]. by rewrite Hx.
Qed.

Lemma sort_cell_swap ratings n j st :
  j + 1 < n → ranking ratings n st →
  Qltb (rating_key st j) (rating_key st (j + 1)) = true →
  sort_cell j st = (swap_list st.1 j (j + 1), swap_list st.2 j (j + 1)).
Proof.
  intros Hj Hst Hsw. destruct st as [bi h]. unfold sort_cell.
  pose proof (ranking_keys _ _ _ j Hst) as Hk1.
  pose proof (ranking_keys _ _ _ (j + 1) Hst) as Hk2.
  simpl in Hk1, Hk2. rewrite Hk1, Hk2 by lia. by rewrite Hsw.
Qed.

Lemma sort_cell_keep ratings n j st :
  j + 1 < n → ranking ratings n st →
  Qltb (rating_key st j) (rating_key st (j + 1)) = false →
  sort_cell j st = st.
Proof.
  intros Hj Hst Hsw. destruct st as [bi h]. unfold sort_cell.
  pose proof (ranking_keys _ _ _ j Hst) as Hk1.
  pose proof (ranking_keys _ _ _ (j + 1) Hst) as Hk2.
  simpl in Hk1, Hk2. rewrite Hk1, Hk2 by lia. by rewrite Hsw.
Qed.

Lemma sort_cell_ranking ratings n j st :
  j + 1 < n → ranking ratings n st → ranking ratings n (sort_cell j st).
Proof.
  intros Hj Hst.
  destruct (Qltb (rating_key st j) (rating_key st (j + 1))) eqn:Hsw.
  2:{ by rewrite (sort_cell_keep ratings n). }
  rewrite (sort_cell_swap ratings n) by done.
  destruct Hst as (Hbi & Hh & Hperm & Hrel). simpl.
  split_and!; simpl.
  - by rewrite length_swap_list.
  - by rewrite length_swap_list.
  - by rewrite swap_list_perm.
  - intros k i. rewrite !swap_list_lookup by lia.
    repeat case_decide; apply Hrel.
Qed.

Lemma sort_cell_keys ratings n j st :
  j + 1 < n → ranking ratings n st →
  Qltb (rating_key st j) (rating_key st (j + 1)) = true →
  rating_key (sort_cell j st) j = rating_key st (j + 1) ∧
  rating_key (sort_cell j st) (j + 1) = rating_key st j ∧
  ∀ i, i ≠ j → i ≠ j + 1 → rating_key (sort_cell j st) i = rating_key st i.
Proof.
  intros Hj Hst Hsw. rewrite (sort_cell_swap ratings n) by done.
  destruct Hst as (Hbi & Hh & Hperm & Hrel).
  unfold rating_key. simpl. split_and!.
  - rewrite swap_list_lookup by lia. repeat case_decide; done || lia.
  - rewrite swap_list_lookup by lia. repeat case_decide; done || lia.
  - intros i ??. rewrite swap_list_lookup by lia.
    repeat case_decide; done || lia.
Qed.

(** The ranking loops sort the host ratings in descending order and carry
    the candidate indices along. *)
Lemma sort_loops_sorted ratings n :
  length ratings = n →
  ranking ratings n (sort_loops n (seq 0 n, ratings)) ∧
  sorted_from rating_key Qltb n 0 (sort_loops n (seq 0 n, ratings)).
Proof.
  intros Hlen. unfold sort_loops.
  apply (bubble_sort_full rating_key Qltb sort_cell n (ranking ratings n)).
  - intros j st. apply sort_cell_ranking.
  - intros j st. apply sort_cell_keys.
  - intros j st. apply sort_cell_keep.
  - apply Qltb_asym.
  - apply Qltb_false_trans.
  - split_and!; simpl; [by rewrite length_seq|done|done|].
    intros j i [-> _]%lookup_seq. done.
Qed.

(** The first index of the ranking is a best candidate, the returned value
    is a worst rating. *)
Lemma sort_on_ratings_Done s :
  0 < length (best_indices_ s) →
  length (ratings_ s) = length (best_indices_ s) →
  ∃ bi worst champion best,
    sort_on_ratings s = Done (bi, worst) ∧
    bi ≡ₚ seq 0 (length (ratings_ s)) ∧
    bi !! 0 = Some champion ∧
    ratings_ s !! champion = Some best ∧
    (∀ i r, ratings_ s !! i = Some r → (r <= best)%Q) ∧
    (∀ i r, ratings_ s !! i = Some r → (worst <= r)%Q) ∧
    (∃ i, ratings_ s !! i = Some worst) ∧
    (∀ a b ia ib ra rb,
       a < b → bi !! a = Some ia → bi !! b = Some ib →
       ratings_ s !! ia = Some ra → ratings_ s !! ib = Some rb →
       (rb <= ra)%Q).
Proof.
  intros Hn Hlen. unfold sort_on_ratings.
  set (n := length (best_indices_ s)) in *.
  destruct (sort_loops_sorted (ratings_ s) n Hlen) as [Hrank Hsorted].
  destruct (sort_loops n (seq 0 n, ratings_ s)) as [bi h].
  pose proof Hrank as (Hbi & Hh & Hperm & Hrel). simpl in *.
  destruct (Nat.eqb_spec n 0) as [?|_]; [lia|].
  destruct (lookup_lt_is_Some_2 h (n - 1)) as [worst Hworst]; [lia|].
  destruct (lookup_lt_is_Some_2 bi 0) as [champion Hchamp]; [lia|].
  destruct (lookup_lt_is_Some_2 h 0) as [best Hbest]; [lia|].
  rewrite Hworst. exists bi, worst, champion, best.
  assert (Hat : ∀ i r, ratings_ s !! i = Some r →
                       ∃ b, b < n ∧ bi !! b = Some i ∧ h !! b = Some r).
  { intros i r Hr.
    assert (i ∈ bi) as Hin.
    { rewrite Hperm. apply elem_of_seq. apply lookup_lt_Some in Hr. lia. }
    apply list_elem_of_lookup in Hin as [b Hb].
    exists b. split_and!; [|done|].
    - apply lookup_lt_Some in Hb. lia.
    - by rewrite (Hrel b i Hb). }
  assert (Hkey : ∀ b x, h !! b = Some x → rating_key (bi, h) b = x).
  { intros b x Hx. unfold rating_key. simpl. by rewrite Hx. }
  split_and!; [done|by rewrite Hlen|done| | | | |].
  - by rewrite <- (Hrel 0 champion Hchamp).
  - intros i r Hr. destruct (Hat i r Hr) as (b & Hb & Hbi' & Hhb).
    destruct (decide (b = 0)) as [->|Hne].
    + assert (r = best) as -> by congruence. apply Qle_refl.
    + apply Qltb_ge. rewrite <- (Hkey 0 best Hbest), <- (Hkey b r Hhb).
      apply Hsorted; lia.
  - intros i r Hr. destruct (Hat i r Hr) as (b & Hb & Hbi' & Hhb).
    destruct (decide (b = n - 1)) as [->|Hne].
    + assert (r = worst) as -> by congruence. apply Qle_refl.
    + apply Qltb_ge. rewrite <- (Hkey b r Hhb), <- (Hkey (n - 1) worst Hworst).
      apply Hsorted; lia.
  - destruct (lookup_lt_is_Some_2 bi (n - 1)) as [i Hi]; [lia|].
    exists i. by rewrite <- (Hrel (n - 1) i Hi).
  - intros a b ia ib ra rb Hab Ha Hb Hra Hrb.
    rewrite <- (Hrel a ia Ha) in Hra. rewrite <- (Hrel b ib Hb) in Hrb.
    apply Qltb_ge. rewrite <- (Hkey a ra Hra), <- (Hkey b rb Hrb).
    apply Hsorted; [done| |lia]. apply lookup_lt_Some in Hrb. lia.
Qed.

(** The sorted ratings list the ratings in descending order, each at the
    rank of its candidate. *)
Lemma sorted_ratings_ranking s :
  length (ratings_ s) = length (best_indices_ s) →
  length (sorted_ratings s) = length (ratings_ s) ∧
  (∀ bi worst a idx,
     sort_on_ratings s = Done (bi, worst) → bi !! a = Some idx →
     sorted_ratings s !! a = ratings_ s !! idx) ∧
  (∀ a b ra rb,
     a < b → sorted_ratings s !! a = Some ra →
     sorted_ratings s !! b = Some rb → (rb <= ra)%Q) ∧
  sorted_ratings s ≡ₚ ratings_ s.
Proof.
  intros Hlen. unfold sorted_ratings, sort_on_ratings.
  set (n := length (best_indices_ s)) in *.
  destruct (sort_loops_sorted (ratings_ s) n Hlen) as [Hrank Hsorted].
  destruct (sort_loops n (seq 0 n, ratings_ s)) as [bi h].
  destruct Hrank as (Hbi & Hh & Hperm & Hrel). simpl in *.
  split_and!.
  - by rewrite Hh, Hlen.
  - intros bi' worst a idx Hsort Ha.
    destruct (n =? 0); [done|]. destruct (h !! (n - 1)); [|done].
    injection Hsort as <- _. by apply Hrel.
  - intros a b ra rb Hab Hra Hrb. apply Qltb_ge.
    assert (Hb : b < n) by (apply lookup_lt_Some in Hrb; lia).
    pose proof (Hsorted a b Hab Hb (Nat.le_0_l b)) as Hkeys.
    unfold rating_key in Hkeys. simpl in Hkeys. by rewrite Hra, Hrb in Hkeys.
  - assert (Hh' : h = map (λ i, default 0%Q (ratings_ s !! i)) bi).
    { apply list_eq. intros j. unfold fmap. rewrite list_lookup_fmap.
      destruct (bi !! j) as [i|] eqn:Hj; simpl.
      - rewrite (Hrel j i Hj).
        destruct (lookup_lt_is_Some_2 (ratings_ s) i) as [x ->]; [|done].
        apply list_elem_of_lookup_2 in Hj. rewrite Hperm in Hj.
        apply elem_of_seq in Hj. lia.
      - apply lookup_ge_None. apply lookup_ge_None in Hj. lia. }
    assert (Hr : ratings_ s
                 = map (λ i, default 0%Q (ratings_ s !! i)) (seq 0 n)).
    { apply list_eq. intros j. unfold fmap. rewrite list_lookup_fmap.
      destruct (decide (j < n)) as [Hj|Hj].
      - rewrite lookup_seq_lt by done. simpl.
        by destruct (lookup_lt_is_Some_2 (ratings_ s) j) as [x ->]; [lia|].
      - rewrite lookup_seq_ge by lia. simpl. apply lookup_ge_None. lia. }
    rewrite Hh'. eapply Permutation_trans; [by apply Permutation_map|].
    by rewrite <- Hr.
Qed.

End Ranking.

(** * The driver loop *)

Section Driver.
Context `{Collaborators}.
Implicit Types (s : Scheduler) (t : Tape) (k : nat) (g : Grid).

Lemma max_element_fold (m : Q) (l : list Q) :
  (m <= foldl (λ m y, if Qltb m y then y else m) m l)%Q ∧
  (∀ y, y ∈ l → (y <= foldl (λ m y, if Qltb m y then y else m) m l)%Q) ∧
  (∀ b, (m <= b)%Q → (∀ y, y ∈ l → (y <= b)%Q) →
        (foldl (λ m y, if Qltb m y then y else m) m l <= b)%Q).
Proof.
  revert m. induction l as [|x l IH]; intros m; simpl.
  - split_and!; [apply Qle_refl| |done].
    intros y Hy. by apply elem_of_nil in Hy.
  - destruct (IH (if Qltb m x then x else m)) as (Hm & Hl & Hb).
    assert (Hmx : (m <= (if Qltb m x then x else m))%Q ∧
                  (x <= (if Qltb m x then x else m))%Q).
    { destruct (Qltb m x) eqn:Hlt.
      - apply Qltb_lt in Hlt. split; [by apply Qlt_le_weak|apply Qle_refl].
      - apply Qltb_ge in Hlt. split; [apply Qle_refl|done]. }
    destruct Hmx as [Hm1 Hx1]. split_and!.
    + by eapply Qle_trans.
    + intros y [->|Hy]%elem_of_cons; [by eapply Qle_trans|by apply Hl].
    + intros b Hmb Hall. apply Hb.
      * destruct (Qltb m x); [apply Hall; left|done].
      * intros y Hy. apply Hall. by right.
Qed.

Lemma max_element_ge (l : list Q) x : x ∈ l → (x <= max_element l)%Q.
Proof.
  destruct l as [|m l]; [by intros ?%elem_of_nil|]. simpl.
  destruct (max_element_fold m l) as (Hm & Hl & _).
  intros [->|Hx]%elem_of_cons; [done|by apply Hl].
Qed.

Lemma max_element_le (l : list Q) b :
  l ≠ [] → (∀ x, x ∈ l → (x <= b)%Q) → (max_element l <= b)%Q.
Proof.
  destruct l as [|m l]; [done|]. intros _ Hall. simpl.
  destruct (max_element_fold m l) as (_ & _ & Hb).
  apply Hb; [apply Hall; left|]. intros y Hy. apply Hall. by right.
Qed.

(** The breeding kernel writes its own child slot only. *)
Lemma breeding_loop_frame fuel lo hi s t k s' k' :
  for_loopM lo hi (breed_child fuel) s t k = Done (s', k') →
  frame s s' ∧
  ∀ i, ¬ (lo ≤ i < hi) → next_schedules_ s' !! i = next_schedules_ s !! i.
Proof.
  destruct (decide (lo ≤ hi)) as [Hle|Hgt].
  2:{ rewrite for_loopM_empty by lia. intros [<- _]%ret_Done.
      split; [apply frame_refl|done]. }
  intros Hloop.
  apply (for_loopT_inv
           (λ n s1 _,
              frame s s1 ∧
              ∀ i, ¬ (lo ≤ i < n) →
                   next_schedules_ s1 !! i = next_schedules_ s !! i))
    in Hloop; [done|done|by split; [apply frame_refl|]|].
  clear Hloop. intros i s1 k1 s2 k2 Hi (Hfr & Hrest) Hbody.
  apply breed_child_Done in Hbody
    as (pid1 & pid2 & mom & dad & child & e & child' &
        _ & _ & _ & Hchild & _ & _ & ->).
  split.
  - eapply frame_trans; [done|]. apply frame_set_next.
    by rewrite length_insert.
  - intros j Hj. simpl. rewrite list_lookup_insert_ne by lia.
    apply Hrest. lia.
Qed.

(** After [breed_population], slot [i < eliteSize] of the next generation
    holds the candidate ranked [i]. *)
Lemma breed_population_elite fuel eliteSize s t k s' k' :
  breed_population fuel eliteSize s t k = Done (s', k') →
  frame s s' ∧
  ∀ i, i < eliteSize →
    ∃ idx g, best_indices_ s !! i = Some idx ∧
             current_schedules_ s !! idx = Some g ∧
             next_schedules_ s' !! i = Some g.
Proof.
  unfold breed_population.
  intros (s1 & k1 & Helite & Hbreed)%bind_Done.
  apply elite_loop_Done in Helite as (Hfr1 & -> & Hcopied & Hrest).
  apply breeding_loop_frame in Hbreed as [Hfr2 Hkeep].
  split; [by eapply frame_trans|].
  intros i Hi. destruct (Hcopied i Hi) as (idx & g & Hidx & Hg & Hnew).
  exists idx, g. split_and!; [done..|]. rewrite Hkeep; [done|lia].
Qed.

Lemma rate_schedules_Done s best s1 :
  rate_schedules s = Done (best, s1) →
  current_schedules_ s1 = current_schedules_ s ∧
  next_schedules_ s1 = next_schedules_ s ∧
  ratings_ s1
  = sorted_ratings
      {| current_schedules_ := current_schedules_ s;
         next_schedules_ := next_schedules_ s;
         ratings_ := map rate_schedule (current_schedules_ s);
         weights_ := weights_ s;
         best_indices_ := best_indices_ s |} ∧
  sort_on_ratings
    {| current_schedules_ := current_schedules_ s;
       next_schedules_ := next_schedules_ s;
       ratings_ := map rate_schedule (current_schedules_ s);
       weights_ := weights_ s;
       best_indices_ := best_indices_ s |} = Done (best_indices_ s1, best).
Proof.
  unfold rate_schedules.
  destruct (sort_on_ratings _) as [[bi x]| |] eqn:Hsort; [|done..].
  simpl. by intros [= <- <-].
Qed.

(** What one completed iteration of the driver loop went through. *)
Lemma generation_Done fuel eliteSize mutationRate s t k s' k' :
  generation fuel eliteSize mutationRate s t k = Done ((true, s'), k') →
  ∃ best s1 s2 k2 s3,
    rate_schedules s = Done (best, s1) ∧
    breed_population fuel eliteSize (compute_weights s1) t k = Done (s2, k2) ∧
    mutate_population fuel mutationRate s2 t k2 = Done (s3, k') ∧
    s' = fix_schedules (swap_generations s3).
Proof.
  unfold generation.
  intros ([best s1] & k1 & [Hrate <-]%lift_Done & Hrest)%bind_Done.
  destruct (Qeq_bool best 1); [by apply ret_Done in Hrest as [[=] _]|].
  apply bind_Done in Hrest as (s2 & k2 & Hbreed & Hrest).
  apply bind_Done in Hrest as (s3 & k3 & Hmut & [[= <-] <-]%ret_Done).
  by exists best, s1, s2, k2, s3.
Qed.

(** Every generation the driver produces consists of permutation
    schedules. *)
Lemma generation_perm_grid fuel eliteSize mutationRate s t k b s' k' :
  Forall perm_grid (current_schedules_ s) →
  Forall (shape nslots nrooms) (next_schedules_ s) →
  length (next_schedules_ s) = nschedules s →
  generation fuel eliteSize mutationRate s t k = Done ((b, s'), k') →
  Forall perm_grid (current_schedules_ s') ∧
  Forall (shape nslots nrooms) (next_schedules_ s') ∧
  length (next_schedules_ s') = nschedules s'.
Proof.
  intros Hcur Hnext Hlen Hgen. destruct b.
  - apply generation_Done in Hgen
      as (best & s1 & s2 & k2 & s3 & Hrate & Hbreed & Hmut & ->).
    apply rate_schedules_Done in Hrate as (Hc1 & Hn1 & _ & _).
    apply breed_population_Done in Hbreed as (Hfr2 & Hperm2 & _);
      [|unfold nschedules; simpl; by rewrite ?Hc1, ?Hn1..].
    apply mutate_population_Done in Hmut as (Hfr3 & _ & Hperm3).
    destruct Hfr2 as (Hc2 & _ & _ & _ & Hl2).
    destruct Hfr3 as (Hc3 & _ & _ & _ & Hl3).
    simpl in *. split_and!.
    + apply Forall_fmap. eapply Forall_impl; [by apply Hperm3|].
      intros g Hg. by apply perm_grid_fix_schedule.
    + rewrite Hc3, Hc2, Hc1. eapply Forall_impl; [done|]. by intros g [].
    + unfold nschedules. simpl. rewrite length_fmap.
      rewrite Hc3, Hc2, Hc1, Hl3, Hl2, Hn1. done.
  - unfold generation in Hgen.
    apply bind_Done in Hgen as ([best s1] & k1 & [Hrate <-]%lift_Done & Hrest).
    apply rate_schedules_Done in Hrate as (Hc1 & Hn1 & _ & _).
    destruct (Qeq_bool best 1).
    + apply ret_Done in Hrest as [[= <-] _].
      unfold nschedules. by rewrite Hc1, Hn1.
    + apply bind_Done in Hrest as (s2 & k2 & _ & Hrest).
      by apply bind_Done in Hrest as (s3 & k3 & _ & [[=] _]%ret_Done).
Qed.

Lemma generations_loop_perm_grid fuel eliteSize mutationRate n s t k s' k' :
  Forall perm_grid (current_schedules_ s) →
  Forall (shape nslots nrooms) (next_schedules_ s) →
  length (next_schedules_ s) = nschedules s →
  generations_loop fuel eliteSize mutationRate n s t k = Done (s', k') →
  Forall perm_grid (current_schedules_ s').
Proof.
  revert s k. induction n as [|n IH]; intros s k Hcur Hnext Hlen; simpl.
  - by intros [<- _]%ret_Done.
  - intros ([b s1] & k1 & Hgen & Hrest)%bind_Done.
    apply generation_perm_grid in Hgen as (Hcur1 & Hnext1 & Hlen1); [|done..].
    destruct b; [by eapply IH|]. by apply ret_Done in Hrest as [<- _].
Qed.

Lemma run_genetic_perm_grid fuel popSize eliteSize mutationRate n t k s k' :
  run_genetic fuel popSize eliteSize mutationRate n t k = Done (s, k') →
  Forall perm_grid (current_schedules_ s).
Proof.
  unfold run_genetic. intros (s0 & k0 & Hinit & Hloop)%bind_Done.
  destruct (initialize_schedules_Done popSize t k)
    as (s0' & k0' & Hinit' & Hn & Hlen & Hnext & Hcur).
  assert (s0' = s0) as -> by congruence.
  eapply generations_loop_perm_grid; [| | |done]; simpl.
  - apply Forall_fmap. eapply Forall_impl; [done|].
    intros g Hg. by apply perm_grid_fix_schedule.
  - done.
  - unfold nschedules. simpl. rewrite length_fmap. unfold nschedules in Hn. lia.
Qed.

Lemma sort_on_ratings_length s bi worst :
  length (ratings_ s) = length (best_indices_ s) →
  sort_on_ratings s = Done (bi, worst) →
  length bi = length (best_indices_ s).
Proof.
  intros Hlen. unfold sort_on_ratings.
  set (n := length (best_indices_ s)) in *.
  destruct (sort_loops_sorted (ratings_ s) n Hlen) as [(Hbi & _) _].
  destruct (sort_loops n (seq 0 n, ratings_ s)) as [bi' h].
  destruct (n =? 0); [done|].
  destruct (h !! (n - 1)); [|done]. by intros [= <- <-].
Qed.

Lemma rate_schedules_weights s best s1 :
  rate_schedules s = Done (best, s1) → weights_ s1 = weights_ s.
Proof.
  unfold rate_schedules.
  destruct (sort_on_ratings _) as [[bi x]| |]; [|done..].
  simpl. by intros [= <- <-].
Qed.

(** What [rate_schedules] leaves in [ratings_] and [best_indices_]: the
    ratings of the current schedules in descending order, each at the rank
    of its candidate. *)
Lemma rate_schedules_ratings s best s1 :
  length (best_indices_ s) = nschedules s →
  rate_schedules s = Done (best, s1) →
  length (ratings_ s1) = nschedules s ∧
  length (best_indices_ s1) = nschedules s ∧
  ratings_ s1 ≡ₚ map rate_schedule (current_schedules_ s) ∧
  (∀ a b ra rb,
     a < b → ratings_ s1 !! a = Some ra → ratings_ s1 !! b = Some rb →
     (rb <= ra)%Q) ∧
  (∀ a idx, best_indices_ s1 !! a = Some idx →
     ratings_ s1 !! a = rate_schedule <$> current_schedules_ s !! idx).
Proof.
  intros Hbi Hrate.
  apply rate_schedules_Done in Hrate as (_ & _ & Hr1 & Hsort).
  set (s0 := {| current_schedules_ := current_schedules_ s;
                next_schedules_ := next_schedules_ s;
                ratings_ := map rate_schedule (current_schedules_ s);
                weights_ := weights_ s;
                best_indices_ := best_indices_ s |}) in *.
  assert (Hlen0 : length (ratings_ s0) = length (best_indices_ s0)).
  { simpl. rewrite length_map. unfold nschedules in Hbi. lia. }
  destruct (sorted_ratings_ranking s0 Hlen0) as (Hlen & Hrank & Hdesc & Hperm).
  rewrite Hr1. split_and!.
  - rewrite Hlen. simpl. by rewrite length_map.
  - apply sort_on_ratings_length in Hsort; [|done]. by rewrite Hsort.
  - done.
  - done.
  - intros a idx Ha. rewrite (Hrank _ _ a idx Hsort Ha). simpl.
    by rewrite list_lookup_fmap.
Qed.

Lemma generation_sized fuel eliteSize mutationRate n s t k b s' k' :
  sized n s →
  generation fuel eliteSize mutationRate s t k = Done ((b, s'), k') →
  sized n s'.
Proof.
  intros (Hc & Hn & Hr & Hw & Hb). unfold generation.
  intros ([best s1] & k1 & [Hrate <-]%lift_Done & Hrest)%bind_Done.
  pose proof (rate_schedules_weights _ _ _ Hrate) as Hw1.
  destruct (rate_schedules_ratings s best s1) as (Hlr1 & Hlb1 & _);
    [lia|done|].
  apply rate_schedules_Done in Hrate as (Hc1 & Hn1 & _ & _).
  destruct (Qeq_bool best 1).
  - apply ret_Done in Hrest as [[= <- <-] _].
    unfold sized, nschedules in *. rewrite Hc1, Hn1, Hw1.
    split_and!; try done; lia.
  - apply bind_Done in Hrest as (s2 & k2 & Hbreed & Hrest).
    apply bind_Done in Hrest as (s3 & k3 & Hmut & [[= <- <-] _]%ret_Done).
    apply breed_population_elite in Hbreed as [(Hc2 & Hr2 & Hw2 & Hb2 & Hl2) _].
    apply mutate_population_Done in Hmut as [(Hc3 & Hr3 & Hw3 & Hb3 & Hl3) _].
    simpl in *. unfold sized, nschedules in *. simpl.
    rewrite length_map, Hl3, Hl2, Hn1, Hc3, Hc2, Hc1, Hr3, Hr2, Hw3, Hw2,
      Hb3, Hb2.
    rewrite weights_of_shift, !length_map.
    split_and!; try done; lia.
Qed.

Lemma generations_loop_sized fuel eliteSize mutationRate n m s t k s' k' :
  sized n s →
  generations_loop fuel eliteSize mutationRate m s t k = Done (s', k') →
  sized n s'.
Proof.
  revert s k. induction m as [|m IH]; intros s k Hs; simpl.
  - by intros [<- _]%ret_Done.
  - intros ([b s1] & k1 & Hgen & Hrest)%bind_Done.
    apply (generation_sized _ _ _ n) in Hgen; [|done].
    destruct b; [by eapply IH|]. by apply ret_Done in Hrest as [<- _].
Qed.

Lemma initialize_schedules_sized n t k s k' :
  initialize_schedules n t k = Done (s, k') → sized n s.
Proof.
  intros Hinit.
  destruct (initialize_schedules_Done n t k) as (s0 & k0 & Hinit0 & Hn & Hl & _).
  assert (s0 = s) as -> by congruence. clear Hinit0.
  unfold initialize_schedules in Hinit.
  apply bind_Done in Hinit as ([numbers h] & k1 & _ & [<- _]%ret_Done).
  unfold sized. simpl in *. rewrite !length_replicate. done.
Qed.

End Driver.

(** * The repair pass on schedules that satisfy the constraints *)

Section FixNoop.
Context `{Collaborators}.
Implicit Types (g : Grid).

Lemma priority_cell_swaps sl j g :
  priority_cell sl j g =
  if priority_swaps (at2 g sl j) (at2 g sl (j + 1))
  then swap_cells g sl j sl (j + 1) else g.
Proof.
  unfold priority_cell, priority_swaps.
  destruct (mini_size <=? at2 g sl (j + 1)); [done|]. simpl.
  by destruct (_ || _).
Qed.

Lemma ordering_pass_noop g : ordering_ok g → ordering_pass g = g.
Proof.
  intros Hok. unfold ordering_pass.
  apply (for_loop_ind (λ g', g' = g)); [done|]. intros sl1 ? Hsl1 ->.
  apply (for_loop_ind (λ g', g' = g)); [done|]. intros r1 ? Hr1 ->.
  unfold order_from. destruct (Nat.leb_spec mini_size (at2 g sl1 r1)); [done|].
  apply (for_loop_ind (λ g', g' = g)); [done|]. intros sl2 ? Hsl2 ->.
  apply (for_loop_ind (λ g', g' = g)); [done|]. intros r2 ? Hr2 ->.
  unfold order_cell. destruct (Nat.leb_spec mini_size (at2 g sl2 r2)); [done|].
  by rewrite Hok by lia.
Qed.

Lemma priority_pass_noop g : priority_ok g → priority_pass g = g.
Proof.
  intros Hok. unfold priority_pass.
  apply (for_loop_ind (λ g', g' = g)); [done|]. intros sl ? Hsl ->.
  apply (for_loop_ind (λ g', g' = g)); [done|]. intros i ? Hi ->.
  apply (for_loop_ind (λ g', g' = g)); [done|]. intros j ? Hj ->.
  rewrite priority_cell_swaps. by rewrite Hok by lia.
Qed.

(** On a schedule that satisfies both constraints the repair pass is a
    no-op. *)
Lemma fix_schedule_noop g :
  ordering_ok g → priority_ok g → fix_schedule g = g.
Proof.
  intros Hord Hprio. unfold fix_schedule.
  rewrite ordering_pass_noop by done. by apply priority_pass_noop.
Qed.

End FixNoop.

(** * The ordering pass under a strict partial order *)

Section OrderingPass.
Context `{Collaborators}.
Hypothesis breaks_irrefl : ∀ a, a < mini_size → breaks_ordering a a = false.
Hypothesis breaks_trans :
  ∀ a b c, a < mini_size → b < mini_size → c < mini_size →
           breaks_ordering a b = true → breaks_ordering b c = true →
           breaks_ordering a c = true.
Implicit Types (g : Grid).

Lemma order_cell_step sl1 r1 sl2 r2 g :
  sl1 < sl2 → sl2 < nslots → r1 < nrooms → r2 < nrooms →
  shape nslots nrooms g → settled sl1 r1 g →
  at2 g sl1 r1 < mini_size → scanned sl1 r1 sl2 r2 g →
  shape nslots nrooms (order_cell sl1 r1 sl2 r2 g) ∧
  settled sl1 r1 (order_cell sl1 r1 sl2 r2 g) ∧
  at2 (order_cell sl1 r1 sl2 r2 g) sl1 r1 < mini_size ∧
  scanned sl1 r1 sl2 (S r2) (order_cell sl1 r1 sl2 r2 g).
Proof using All.
  intros Hsl Hsl2 Hr1 Hr2 Hsh Hset Hocc Hscan. unfold order_cell.
  destruct (Nat.leb_spec mini_size (at2 g sl2 r2)) as [Hempty|Hocc2].
  { split_and!; [done..|]. intros s r Hs Hpos Hr Hoccs.
    destruct (decide ((s, r) = (sl2, r2))) as [[= -> ->]|Hne]; [lia|].
    apply Hscan; [done| |done..].
    destruct Hpos as [?|[-> ?]]; [by left|right].
    split; [done|]. assert (r ≠ r2) by congruence. lia. }
  destruct (breaks_ordering (at2 g sl1 r1) (at2 g sl2 r2)) eqn:Hbreaks.
  2:{ split_and!; [done..|]. intros s r Hs Hpos Hr Hoccs.
      destruct (decide ((s, r) = (sl2, r2))) as [[= -> ->]|Hne]; [done|].
      apply Hscan; [done| |done..].
      destruct Hpos as [?|[-> ?]]; [by left|right].
      split; [done|]. assert (r ≠ r2) by congruence. lia. }
  set (a := at2 g sl1 r1) in *. set (b := at2 g sl2 r2) in *.
  assert (Hsl1 : sl1 < nslots) by lia.
  pose proof (at2_swap_cells_2 _ _ g sl1 r1 sl2 r2 Hsh Hsl1 Hr1 Hsl2 Hr2) as Hcur.
  pose proof (at2_swap_cells_1 _ _ g sl1 r1 sl2 r2 Hsh Hsl1 Hr1 Hsl2 Hr2) as Hcell.
  fold a in Hcell. fold b in Hcur.
  split_and!.
  - by apply shape_swap_cells.
  - intros s r s2 r2' Hpos Hr Hss2 Hs2 Hr2' Hoccs Hoccs2.
    assert (Hp : at2 (swap_cells g sl1 r1 sl2 r2) s r = at2 g s r).
    { apply at2_swap_cells_other; intros [= -> ->]; lia. }
    rewrite Hp in *.
    destruct (decide ((s2, r2') = (sl1, r1))) as [[= -> ->]|Hne1].
    { rewrite Hcur. apply Hset; [|done|lia|done..].
      destruct Hpos as [?|[-> ?]]; [by left|lia]. }
    destruct (decide ((s2, r2') = (sl2, r2))) as [[= -> ->]|Hne2].
    { rewrite Hcell.
      destruct (decide (s < sl1)) as [Hlt|Hge].
      - apply Hset; [by left|done..].
      - assert (s = sl1) as -> by lia.
        destruct (breaks_ordering (at2 g sl1 r) a) eqn:Hpa; [|done].
        assert (breaks_ordering (at2 g sl1 r) b = true) as Hpb
          by (by apply (breaks_trans _ a)).
        assert (breaks_ordering (at2 g sl1 r) b = false) as Hno
          by (by apply Hset).
        congruence. }
    rewrite at2_swap_cells_other in * by done. by apply Hset.
  - by rewrite Hcur.
  - intros s r Hs Hpos Hr Hoccs. rewrite Hcur.
    destruct (decide ((s, r) = (sl2, r2))) as [[= -> ->]|Hne].
    { rewrite Hcell.
      destruct (breaks_ordering b a) eqn:Hba; [|done].
      assert (breaks_ordering a a = true) as Haa
        by (by apply (breaks_trans _ b)).
      by rewrite breaks_irrefl in Haa. }
    assert (Hy : at2 (swap_cells g sl1 r1 sl2 r2) s r = at2 g s r).
    { apply at2_swap_cells_other; [|done]. intros [= -> ->]. lia. }
    rewrite Hy in *.
    destruct (breaks_ordering b (at2 g s r)) eqn:Hby; [|done].
    assert (breaks_ordering a (at2 g s r) = true) as Hay
      by (by apply (breaks_trans _ b)).
    assert (breaks_ordering a (at2 g s r) = false) as Hno.
    { apply Hscan; [done| |done..].
      destruct Hpos as [?|[-> ?]]; [by left|right].
      split; [done|]. assert (r ≠ r2) by congruence. lia. }
    congruence.
Qed.

Lemma order_from_step sl1 r1 g :
  sl1 < nslots → r1 < nrooms →
  shape nslots nrooms g → settled sl1 r1 g →
  shape nslots nrooms (order_from sl1 r1 g) ∧
  settled sl1 (S r1) (order_from sl1 r1 g).
Proof using All.
  intros Hsl1 Hr1 Hsh Hset. unfold order_from.
  destruct (Nat.leb_spec mini_size (at2 g sl1 r1)) as [Hempty|Hocc].
  { split; [done|]. intros s r s2 r2 Hpos Hr Hss2 Hs2 Hr2 Hoccs Hoccs2.
    destruct (decide ((s, r) = (sl1, r1))) as [[= -> ->]|Hne]; [lia|].
    apply Hset; [|done..].
    destruct Hpos as [?|[-> ?]]; [by left|right].
    split; [done|]. assert (r ≠ r1) by congruence. lia. }
  pose (I := λ sl2 g', shape nslots nrooms g' ∧ settled sl1 r1 g' ∧
                       at2 g' sl1 r1 < mini_size ∧ scanned sl1 r1 sl2 0 g').
  match goal with
  | |- context [for_loop (sl1 + 1) nslots ?body0 g] =>
      assert (Hloop : I nslots (for_loop (sl1 + 1) nslots body0 g))
  end.
  { apply (for_loop_inv I); [lia| |].
    - split_and!; [done..|]. intros s r Hs Hpos. lia.
    - intros sl2 g1 Hsl2 (Hsh1 & Hset1 & Hocc1 & Hscan1).
      pose (J := λ r2 g', shape nslots nrooms g' ∧ settled sl1 r1 g' ∧
                          at2 g' sl1 r1 < mini_size ∧ scanned sl1 r1 sl2 r2 g').
      match goal with
      | |- context [for_loop 0 nrooms ?body0 g1] =>
          assert (Hrow : J nrooms (for_loop 0 nrooms body0 g1))
      end.
      { apply (for_loop_inv J); [lia|done|].
        intros r2 g2 Hr2 (Hsh2 & Hset2 & Hocc2 & Hscan2).
        apply order_cell_step; [lia..|done|done|done|done]. }
      destruct Hrow as (Hsh' & Hset' & Hocc' & Hscan').
      split_and!; [done..|].
      intros s r Hs Hpos Hr Hoccs. apply Hscan'; [done| |done..].
      destruct Hpos as [?|[-> ?]]; [|lia].
      destruct (decide (s = sl2)) as [->|?]; [by right|left; lia]. }
  destruct Hloop as (Hsh' & Hset' & Hocc' & Hscan'). split; [done|].
  intros s r s2 r2 Hpos Hr Hss2 Hs2 Hr2 Hoccs Hoccs2.
  destruct (decide ((s, r) = (sl1, r1))) as [[= -> ->]|Hne].
  - apply Hscan'; [done|by left|done..].
  - apply Hset'; [|done..].
    destruct Hpos as [?|[-> ?]]; [by left|right].
    split; [done|]. assert (r ≠ r1) by congruence. lia.
Qed.

(** After the ordering pass no pair of sessions breaks the ordering. *)
Lemma ordering_pass_ok g :
  shape nslots nrooms g →
  shape nslots nrooms (ordering_pass g) ∧ ordering_ok (ordering_pass g).
Proof using All.
  intros Hsh. unfold ordering_pass.
  pose (I := λ sl1 g', shape nslots nrooms g' ∧ settled sl1 0 g').
  match goal with
  | |- context [for_loop 0 nslots ?body0 g] =>
      assert (Hloop : I nslots (for_loop 0 nslots body0 g))
  end.
  { apply (for_loop_inv I); [lia| |].
    - split; [done|]. intros s r s2 r2 Hpos. lia.
    - intros sl1 g1 Hsl1 [Hsh1 Hset1].
      pose (J := λ r1 g', shape nslots nrooms g' ∧ settled sl1 r1 g').
      match goal with
      | |- context [for_loop 0 nrooms ?body0 g1] =>
          assert (Hrow : J nrooms (for_loop 0 nrooms body0 g1))
      end.
      { apply (for_loop_inv J); [lia|done|].
        intros r1 g2 Hr1 [Hsh2 Hset2]. apply order_from_step; [lia..|done|done]. }
      destruct Hrow as [Hsh' Hset']. split; [done|].
      intros s r s2 r2 Hpos Hr. apply Hset'; [|done].
      destruct Hpos as [?|[-> ?]]; [|lia].
      destruct (decide (s = sl1)) as [->|?]; [by right|left; lia]. }
  destruct Hloop as [Hsh' Hset']. split; [done|].
  intros sl1 r1 sl2 r2 Hlt Hsl2 Hr1 Hr2. apply Hset'; [left; lia|done..].
Qed.

End OrderingPass.

(** * The priority pass under a strict weak order *)

Section PriorityPass.
Context `{Collaborators}.
Implicit Types (g : Grid).

Lemma same_rows_refl g : shape nslots nrooms g → same_rows g g.
Proof. intros Hsh. split; [done|]. intros sl r _ Hr. by exists r. Qed.

Lemma same_rows_priority_cell g g1 sl j :
  sl < nslots → j + 1 < nrooms →
  same_rows g g1 → same_rows g (priority_cell sl j g1).
Proof.
  intros Hsl Hj [Hsh Hrows]. rewrite priority_cell_swaps.
  destruct (priority_swaps _ _); [|done]. split; [by apply shape_swap_cells|].
  intros sl' r Hsl' Hr.
  destruct (decide ((sl', r) = (sl, j))) as [[= -> ->]|Hne1].
  { erewrite at2_swap_cells_2; [|done|lia..]. apply Hrows; lia. }
  destruct (decide ((sl', r) = (sl, j + 1))) as [[= -> ->]|Hne2].
  { erewrite at2_swap_cells_1; [|done|lia..]. apply Hrows; lia. }
  rewrite at2_swap_cells_other by done. by apply Hrows.
Qed.

Lemma same_rows_priority_pass g :
  shape nslots nrooms g → same_rows g (priority_pass g).
Proof.
  intros Hsh. unfold priority_pass.
  apply (for_loop_ind (same_rows g)); [by apply same_rows_refl|].
  intros sl g1 Hsl Hg1.
  apply (for_loop_ind (same_rows g)); [done|]. intros i g2 Hi Hg2.
  apply (for_loop_ind (same_rows g)); [done|]. intros j g3 Hj Hg3.
  apply same_rows_priority_cell; [lia..|done].
Qed.

(** The ordering constraint looks at the timeslot of a session only. *)
Lemma ordering_ok_same_rows g g' :
  ordering_ok g → same_rows g g' → ordering_ok g'.
Proof.
  intros Hok [_ Hrows] sl1 r1 sl2 r2 Hlt Hsl2 Hr1 Hr2.
  destruct (Hrows sl1 r1) as (r1' & Hr1' & ->); [lia|done|].
  destruct (Hrows sl2 r2) as (r2' & Hr2' & ->); [lia|done|].
  by apply Hok.
Qed.

Hypothesis priority_asym :
  ∀ a b, a < mini_size → b < mini_size →
         higher_priority a b = true → higher_priority b a = false.
Hypothesis priority_negtrans :
  ∀ a b c, a < mini_size → b < mini_size → c < mini_size →
           higher_priority a b = false → higher_priority b c = false →
           higher_priority a c = false.

Lemma priority_swaps_true m1 m2 :
  priority_swaps m1 m2 = true ↔
  m2 < mini_size ∧ (mini_size ≤ m1 ∨ higher_priority m2 m1 = true).
Proof.
  unfold priority_swaps.
  rewrite andb_true_iff, negb_true_iff, orb_true_iff.
  rewrite Nat.leb_gt, Nat.leb_le. done.
Qed.

Lemma priority_swaps_asym a b :
  priority_swaps a b = true → priority_swaps b a = false.
Proof using priority_asym.
  intros [Hb Hab]%priority_swaps_true.
  apply not_true_is_false. intros [Ha Hba]%priority_swaps_true.
  destruct Hab as [?|Hab]; [lia|]. destruct Hba as [?|Hba]; [lia|].
  rewrite (priority_asym b a) in Hba; done.
Qed.

Lemma priority_swaps_trans a b c :
  priority_swaps a b = false → priority_swaps b c = false →
  priority_swaps a c = false.
Proof using priority_negtrans.
  intros Hab Hbc. apply not_true_is_false.
  intros [Hc Hac]%priority_swaps_true.
  assert (Hb : b < mini_size ∧ higher_priority c b = false).
  { destruct (Nat.leb_spec mini_size b) as [Hbe|Hbo].
    - exfalso. apply not_false_iff_true in Hbc; [done|].
      apply priority_swaps_true. split; [done|by left].
    - split; [done|]. apply not_true_is_false. intros Hcb.
      apply not_false_iff_true in Hbc; [done|].
      apply priority_swaps_true. split; [done|by right]. }
  destruct Hb as [Hb Hcb].
  assert (Ha : a < mini_size ∧ higher_priority b a = false).
  { destruct (Nat.leb_spec mini_size a) as [Hae|Hao].
    - exfalso. apply not_false_iff_true in Hab; [done|].
      apply priority_swaps_true. split; [done|by left].
    - split; [done|]. apply not_true_is_false. intros Hba.
      apply not_false_iff_true in Hab; [done|].
      apply priority_swaps_true. split; [done|by right]. }
  destruct Ha as [Ha Hba]. destruct Hac as [?|Hac]; [lia|].
  rewrite (priority_negtrans c b a) in Hac; done.
Qed.

(** The loops of the priority pass for one timeslot sort its rooms and
    leave the other timeslots alone. *)
Lemma priority_slot_sorted sl g :
  sl < nslots → shape nslots nrooms g →
  let g' := for_loop 1 nrooms
              (λ i, for_loop 0 (nrooms - i) (λ j, priority_cell sl j)) g in
  shape nslots nrooms g' ∧
  (∀ sl' j, sl' ≠ sl → at2 g' sl' j = at2 g sl' j) ∧
  (∀ j, j + 1 < nrooms →
        priority_swaps (at2 g' sl j) (at2 g' sl (j + 1)) = false).
Proof using All.
  intros Hsl Hsh g'.
  pose (ok := λ g1 : Grid,
          shape nslots nrooms g1 ∧
          ∀ sl' j, sl' ≠ sl → at2 g1 sl' j = at2 g sl' j).
  destruct (bubble_sort_rooms (λ g1 j, at2 g1 sl j) priority_swaps
              (priority_cell sl) nrooms ok) with (s := g)
    as [[Hsh' Hother] Hsorted].
  - intros j g1 Hj [Hsh1 Hother1]. rewrite priority_cell_swaps.
    destruct (priority_swaps _ _); [|done].
    split; [by apply shape_swap_cells|].
    intros sl' j' Hne. rewrite at2_swap_cells_other; [by apply Hother1|..];
      intros [= -> ->]; done.
  - intros j g1 Hj [Hsh1 Hother1] Hsw. rewrite priority_cell_swaps, Hsw.
    split_and!.
    + erewrite at2_swap_cells_2; [done|done|lia..].
    + erewrite at2_swap_cells_1; [done|done|lia..].
    + intros i Hi1 Hi2. apply at2_swap_cells_other; congruence.
  - intros j g1 Hj _ Hsw. by rewrite priority_cell_swaps, Hsw.
  - apply priority_swaps_asym.
  - apply priority_swaps_trans.
  - split; [done|]. done.
  - split_and!; [done..|]. intros j Hj. apply Hsorted; lia.
Qed.

(** After the priority pass no two adjacent rooms are to be exchanged. *)
Lemma priority_pass_ok g :
  shape nslots nrooms g → priority_ok (priority_pass g).
Proof using All.
  intros Hsh. unfold priority_pass.
  pose (I := λ sl g1,
          shape nslots nrooms g1 ∧
          ∀ sl' j, sl' < sl → j + 1 < nrooms →
                   priority_swaps (at2 g1 sl' j) (at2 g1 sl' (j + 1)) = false).
  match goal with
  | |- priority_ok (for_loop 0 nslots ?body0 g) =>
      assert (Hloop : I nslots (for_loop 0 nslots body0 g))
  end.
  { apply (for_loop_inv I); [lia| |].
    - split; [done|]. intros sl' j Hsl'. lia.
    - intros sl g1 Hsl [Hsh1 Hdone].
      destruct (priority_slot_sorted sl g1) as (Hsh' & Hother & Hsorted);
        [lia|done|].
      split; [done|]. intros sl' j Hsl' Hj.
      destruct (decide (sl' = sl)) as [->|Hne]; [by apply Hsorted|].
      rewrite !Hother by done. apply Hdone; [lia|done]. }
  destruct Hloop as [_ Hdone]. intros sl j Hsl Hj. by apply Hdone.
Qed.

End PriorityPass.

(** * Breeding without positive weights *)

(** With all weights zero, [breed_population] does not return. *)
Lemma breed_population_stuck `{Collaborators} fuel eliteSize s rho t k :
  valid_tape t →
  Forall (λ x, (x == rho)%Q) (ratings_ s) →
  eliteSize < nschedules s →
  length (next_schedules_ s) = nschedules s →
  (∀ i, i < eliteSize →
     ∃ idx, best_indices_ s !! i = Some idx ∧ idx < nschedules s) →
  Forall (λ w, (w == 0)%Q) (weights_ (compute_weights s)) ∧
  (∀ k1, get_parent (compute_weights s) t k1 = Done (UINT_MAX, S k1)) ∧
  (∀ k1, redraw_parent fuel (compute_weights s) UINT_MAX UINT_MAX t k1
         = OutOfFuel) ∧
  breed_population fuel eliteSize (compute_weights s) t k = OutOfFuel.
Proof.
  intros Htape Hsame Hn Hlen Hbi.
  assert (Hzero : Forall (λ w, (w == 0)%Q) (weights_ (compute_weights s)))
    by by eapply weights_of_const.
  assert (Hget : ∀ s1 k1, weights_ s1 = weights_ (compute_weights s) →
                          get_parent s1 t k1 = Done (UINT_MAX, S k1)).
  { intros s1 k1 Hw. apply get_parent_Done. split; [|done].
    rewrite Hw. symmetry. apply get_parent_at_zero; [apply Htape|done]. }
  split_and!; [done|by intros; apply Hget| |].
  - intros k1. apply redraw_parent_stuck. intros k2. by apply Hget.
  - unfold breed_population.
    destruct (elite_loop_total eliteSize (compute_weights s) t k)
      as (s1 & Helite & Hfr); [simpl; lia|done|].
    rewrite (bind_step _ _ _ _ _ _ Helite).
    destruct Hfr as (Hcur & _ & Hw & _ & _).
    apply for_loopT_out_of_fuel.
    { unfold nschedules in *. rewrite Hcur. simpl. lia. }
    unfold breed_child.
    rewrite (bind_step _ _ _ _ _ _ (Hget s1 k Hw)).
    apply bind_OutOfFuel, redraw_parent_stuck. intros k2. by apply Hget.
Qed.

(** * The best rating across generations *)

Section BestRating.
Context `{Collaborators}.
Hypothesis breaks_irrefl : ∀ a, a < mini_size → breaks_ordering a a = false.
Hypothesis breaks_trans :
  ∀ a b c, a < mini_size → b < mini_size → c < mini_size →
           breaks_ordering a b = true → breaks_ordering b c = true →
           breaks_ordering a c = true.
Hypothesis priority_asym :
  ∀ a b, a < mini_size → b < mini_size →
         higher_priority a b = true → higher_priority b a = false.
Hypothesis priority_negtrans :
  ∀ a b c, a < mini_size → b < mini_size → c < mini_size →
           higher_priority a b = false → higher_priority b c = false →
           higher_priority a c = false.
Implicit Types (s : Scheduler) (t : Tape) (k : nat) (g : Grid).

(** A repaired schedule is left as it is by the repair pass. *)
Lemma fix_schedule_fixed g :
  shape nslots nrooms g → fix_schedule (fix_schedule g) = fix_schedule g.
Proof using All.
  intros Hsh.
  destruct (ordering_pass_ok breaks_irrefl breaks_trans g Hsh) as [Hsh1 Hord1].
  apply fix_schedule_noop.
  - eapply ordering_ok_same_rows; [done|]. by apply same_rows_priority_pass.
  - by apply priority_pass_ok.
Qed.

Lemma fix_schedules_repaired n s :
  sized n s → Forall perm_grid (current_schedules_ s) →
  Forall (shape nslots nrooms) (next_schedules_ s) →
  repaired n (fix_schedules s).
Proof using All.
  intros (Hc & Hn & Hr & Hw & Hb) Hcur Hnext. split_and!; simpl.
  - unfold sized, nschedules in *. simpl. by rewrite length_map.
  - apply Forall_fmap. eapply Forall_impl; [done|].
    intros g Hg. by apply perm_grid_fix_schedule.
  - done.
  - apply Forall_fmap. eapply Forall_impl; [done|].
    intros g [Hsh _]. by apply fix_schedule_fixed.
Qed.

(** The candidate ranked first is a best one; it is copied to slot 0 of the
    next generation, which the mutator skips and the repair pass leaves as
    it is. *)
Lemma generation_keeps_champion fuel eliteSize mutationRate s t k s' k' :
  0 < eliteSize →
  length (best_indices_ s) = nschedules s →
  Forall (λ g, fix_schedule g = g) (current_schedules_ s) →
  generation fuel eliteSize mutationRate s t k = Done ((true, s'), k') →
  (max_element (map rate_schedule (current_schedules_ s))
   <= max_element (map rate_schedule (current_schedules_ s')))%Q.
Proof.
  intros Helite Hbi Hfixed Hgen.
  apply generation_Done in Hgen
    as (worst & s1 & s2 & k2 & s3 & Hrate & Hbreed & Hmut & ->).
  apply rate_schedules_Done in Hrate as (Hc1 & _ & _ & Hsort).
  apply breed_population_elite in Hbreed as [_ Hcopied].
  destruct (Hcopied 0 Helite) as (idx & g & Hidx & Hg & Hnext2).
  simpl in Hidx, Hg. rewrite Hc1 in Hg.
  apply mutate_population_Done in Hmut as (_ & Hzero & _).
  rewrite Hnext2 in Hzero.
  assert (Hn : 0 < length (best_indices_ s)).
  { rewrite Hbi. unfold nschedules. apply lookup_lt_Some in Hg. lia. }
  destruct (sort_on_ratings_Done
              {| current_schedules_ := current_schedules_ s;
                 next_schedules_ := next_schedules_ s;
                 ratings_ := map rate_schedule (current_schedules_ s);
                 weights_ := weights_ s;
                 best_indices_ := best_indices_ s |})
    as (bi & worst' & champion & best & Hsort' & _ & Hchamp & Hbest & Hmax & _);
    [done|simpl; by rewrite length_map|].
  rewrite Hsort in Hsort'. injection Hsort' as <- <-. simpl in *.
  assert (champion = idx) as -> by congruence.
  assert (Hbestg : best = rate_schedule g).
  { unfold fmap in Hbest. rewrite list_lookup_fmap, Hg in Hbest.
    by injection Hbest. }
  apply (Qle_trans _ (rate_schedule g));
    [apply max_element_le|apply max_element_ge].
  - intros Hnil. apply fmap_nil_inv in Hnil. by rewrite Hnil in Hg.
  - intros x Hx. apply list_elem_of_lookup in Hx as [i Hi].
    rewrite <- Hbestg. by eapply Hmax.
  - apply list_elem_of_lookup. exists 0.
    rewrite !list_lookup_fmap, Hzero. simpl. f_equal.
    by rewrite (Forall_lookup_1 _ _ _ _ Hfixed Hg).
Qed.

Lemma generation_best_rating fuel eliteSize mutationRate n s t k b s' k' :
  0 < eliteSize → repaired n s →
  generation fuel eliteSize mutationRate s t k = Done ((b, s'), k') →
  repaired n s' ∧
  (max_element (map rate_schedule (current_schedules_ s))
   <= max_element (map rate_schedule (current_schedules_ s')))%Q.
Proof using All.
  intros Helite (Hsized & Hcur & Hnext & Hfixed) Hgen.
  pose proof Hsized as (Hc & Hn & _ & _ & Hb).
  pose proof (generation_sized _ _ _ _ _ _ _ _ _ _ Hsized Hgen) as Hsized'.
  destruct (generation_perm_grid _ _ _ _ _ _ _ _ _ Hcur Hnext
              (eq_trans Hn (eq_sym Hc)) Hgen) as (Hcur' & Hnext' & _).
  destruct b.
  - split.
    + split_and!; [done..|].
      apply generation_Done in Hgen
        as (worst & s1 & s2 & k2 & s3 & Hrate & Hbreed & Hmut & ->).
      apply rate_schedules_Done in Hrate as (Hc1 & Hn1 & _ & _).
      apply breed_population_Done in Hbreed as (_ & Hperm2 & _);
        [|unfold nschedules in *; simpl; rewrite ?Hc1, ?Hn1; done || lia..].
      apply mutate_population_Done in Hmut as (_ & _ & Hperm3).
      simpl. apply Forall_fmap. eapply Forall_impl; [by apply Hperm3|].
      intros g [Hsh _]. by apply fix_schedule_fixed.
    + eapply generation_keeps_champion; [done| |done..]. lia.
  - unfold generation in Hgen.
    apply bind_Done in Hgen as ([best s1] & k1 & [Hrate <-]%lift_Done & Hrest).
    apply rate_schedules_Done in Hrate as (Hc1 & Hn1 & _ & _).
    destruct (Qeq_bool best 1).
    + apply ret_Done in Hrest as [[= <-] _]. rewrite Hc1.
      split; [|apply Qle_refl]. split_and!; [done..|]. by rewrite Hc1.
    + apply bind_Done in Hrest as (s2 & k2 & _ & Hrest).
      by apply bind_Done in Hrest as (s3 & k3 & _ & [[=] _]%ret_Done).
Qed.

Lemma generations_loop_best_rating fuel eliteSize mutationRate n m s t k s' k' :
  0 < eliteSize → repaired n s →
  generations_loop fuel eliteSize mutationRate m s t k = Done (s', k') →
  repaired n s' ∧
  (max_element (map rate_schedule (current_schedules_ s))
   <= max_element (map rate_schedule (current_schedules_ s')))%Q.
Proof using All.
  intros Helite. revert s k. induction m as [|m IH]; intros s k Hs; simpl.
  - intros [<- _]%ret_Done. split; [done|apply Qle_refl].
  - intros ([b s1] & k1 & Hgen & Hrest)%bind_Done.
    apply (generation_best_rating _ _ _ n) in Hgen as [Hs1 Hle1]; [|done..].
    destruct b.
    + apply IH in Hrest as [Hs' Hle']; [|done].
      split; [done|]. by eapply Qle_trans.
    + by apply ret_Done in Hrest as [<- _].
Qed.

(** A run of [a + b] iterations goes through the population that [a]
    iterations leave. *)
Lemma generations_loop_split fuel eliteSize mutationRate n a b s t k s2 k2 :
  0 < eliteSize → repaired n s →
  generations_loop fuel eliteSize mutationRate (a + b) s t k = Done (s2, k2) →
  ∃ s1 k1,
    generations_loop fuel eliteSize mutationRate a s t k = Done (s1, k1) ∧
    (max_element (map rate_schedule (current_schedules_ s1))
     <= max_element (map rate_schedule (current_schedules_ s2)))%Q.
Proof using All.
  intros Helite. revert s k. induction a as [|a IH]; intros s k Hs Hrun.
  - exists s, k. split; [done|].
    by apply (generations_loop_best_rating _ _ _ n) in Hrun as [_ Hle].
  - simpl in Hrun.
    apply bind_Done in Hrun as ([c s'] & k' & Hgen & Hrest).
    pose proof Hgen as Hgen'.
    apply (generation_best_rating _ _ _ n) in Hgen' as [Hs' _]; [|done..].
    simpl. rewrite (bind_step _ _ _ _ _ _ Hgen). destruct c.
    + by apply IH.
    + apply ret_Done in Hrest as [<- <-].
      exists s', k'. split; [done|apply Qle_refl].
Qed.

End BestRating.

(** * The claims of the specification *)

(** C1. Permutation invariant: every schedule of the population is to
    have the extents [nslots × nrooms] and to list every identifier of
    [[0, nslots * nrooms)] exactly once ([perm_grid], see
    [perm_grid_exactly_once]). Initialisation always returns such a
    population; the repair pass keeps it; whenever [breed_population] and
    [mutate_population] return, the next generation they leave satisfies it;
    and so does every population [run_genetic] returns. But the crossover
    does not keep it in every run: when [get_parent] returns [unsigned(-1)]
    (for two candidates rated 3/10 and 0 and the draw 1/2), [breed] takes
    the cells of the child before the cut from outside [current_schedules_],
    and the run has no defined population. *)
Theorem permutation_invariant `{Collaborators} :
  (∀ n t k, ∃ s k',
      initialize_schedules n t k = Done (s, k') ∧
      Forall perm_grid (current_schedules_ s)) ∧
  (∀ s, Forall perm_grid (current_schedules_ s) →
        Forall perm_grid (current_schedules_ (fix_schedules s))) ∧
  (∀ fuel eliteSize s t k s' k',
      Forall perm_grid (current_schedules_ s) →
      Forall (shape nslots nrooms) (next_schedules_ s) →
      length (next_schedules_ s) = nschedules s →
      breed_population fuel eliteSize s t k = Done (s', k') →
      Forall perm_grid (next_schedules_ s')) ∧
  (∀ fuel mutationRate s t k s' k',
      Forall perm_grid (next_schedules_ s) →
      mutate_population fuel mutationRate s t k = Done (s', k') →
      Forall perm_grid (next_schedules_ s')) ∧
  (∀ fuel popSize eliteSize mutationRate generations t k s k',
      run_genetic fuel popSize eliteSize mutationRate generations t k
        = Done (s, k') →
      Forall perm_grid (current_schedules_ s)) ∧
  (valid_tape selection_tape ∧
   ∃ s0 worst s1 s2,
     initialize_schedules (H := plain) 2 selection_tape 0 = Done (s0, 6) ∧
     current_schedules_ (fix_schedules (H := plain) s0)
     = [[[3; 1]; [2; 0]]; [[0; 1]; [2; 3]]] ∧
     rate_schedules (H := plain) (fix_schedules (H := plain) s0)
     = Done (worst, s1) ∧
     Forall2 Qeq (weights_ (compute_weights s1)) [3 # 10; 0]%Q ∧
     get_parent (compute_weights s1) selection_tape 6 = Done (UINT_MAX, 7) ∧
     redraw_parent 4 (compute_weights s1) UINT_MAX UINT_MAX selection_tape 7
     = Done (0%N, 8) ∧
     as_uint (selection_tape 8) `mod` nrooms (H := plain) = 1 ∧
     for_loopM 0 1 copy_elite (compute_weights s1) selection_tape 6
     = Done (s2, 6) ∧
     breed (H := plain) 4 UINT_MAX 0 1 s2 selection_tape 8 = Undefined ∧
     breed_population (H := plain) 4 1 (compute_weights s1) selection_tape 6
     = Undefined ∧
     run_genetic (H := plain) 4 2 1 0 1 selection_tape 0 = Undefined).
Proof.
  split_and!.
  - intros n t k.
    destruct (initialize_schedules_Done n t k) as (s & k' & Hinit & _ & _ & _ & Hcur).
    by exists s, k'.
  - intros s Hcur. simpl. apply Forall_fmap. eapply Forall_impl; [done|].
    intros g Hg. by apply perm_grid_fix_schedule.
  - intros fuel eliteSize s t k s' k' Hcur Hnext Hlen Hbreed.
    by apply breed_population_Done in Hbreed as (_ & Hperm & _).
  - intros fuel mutationRate s t k s' k' Hnext Hmut.
    apply mutate_population_Done in Hmut as (_ & _ & Hperm). by apply Hperm.
  - intros fuel popSize eliteSize mutationRate generations t k s k'.
    apply run_genetic_perm_grid.
  - intros k. unfold selection_tape, tape_of.
    do 9 (destruct k as [|k]; [split; done|]). split; done.
  - eexists _, _, _, _. split_and!.
    + vm_compute. reflexivity.
    + vm_compute. reflexivity.
    + vm_compute. reflexivity.
    + repeat constructor.
    + vm_compute. reflexivity.
    + vm_compute. reflexivity.
    + vm_compute. reflexivity.
    + vm_compute. reflexivity.
    + vm_compute. reflexivity.
    + vm_compute. reflexivity.
    + vm_compute. reflexivity.
Qed.

(** C2. Crossover closure: for two permutation schedules and any cut point,
    every duplicate-chasing chain of [breed] terminates (within
    [nslots * nrooms] turns), [breed] returns, and the child is a
    permutation schedule. [find] is modelled from the spec. *)
Theorem crossover_closure `{Collaborators} fuel mom dad end_index child :
  perm_grid mom → perm_grid dad →
  shape nslots nrooms child → end_index ≤ nrooms →
  nslots * nrooms ≤ fuel →
  (∀ r c, r < nslots → end_index ≤ c < nrooms →
     ∃ q, chase fuel (mom_genes_of mom end_index) dad (r, c) = Done q) ∧
  ∃ child', breed_at fuel mom dad end_index child = Done child' ∧
            perm_grid child'.
Proof.
  intros Hmom Hdad Hsh He Hfuel.
  assert (Hterm : ∀ r c, r < nslots → end_index ≤ c < nrooms →
     ∃ q, chase fuel (mom_genes_of mom end_index) dad (r, c) = Done q).
  { intros r c Hr Hc. apply chase_terminates; [done|done|done| | |done].
    - apply elem_of_cells. simpl. lia.
    - simpl. lia. }
  split; [done|].
  destruct (breed_at_total fuel mom dad end_index child Hsh He Hterm)
    as [child' Hbreed].
  exists child'. split; [done|].
  exact (breed_at_perm_grid fuel mom dad end_index child child'
           Hmom Hdad Hsh He Hbreed).
Qed.

(** C3. The weights [compute_weights] leaves are the ratings minus the
    minimum rating, not divided by their total (the normalising kernel drops
    its quotient): for the ratings 1 and 3 they are 0 and 2 and sum to 2.
    Parent selection picks the first candidate whose running sum exceeds the
    draw. *)
Theorem compute_weights_not_normalised :
  (∀ ratings,
     weights_of ratings = map (λ r, (r - min_element ratings)%Q) ratings) ∧
  (Qsum (weights_of [1; 3]%Q) == 2)%Q ∧
  ¬ (Qsum (weights_of [1; 3]%Q) == 1)%Q ∧
  get_parent_at (1 # 2) (weights_of [1; 3]%Q) = 1%N ∧
  (∀ r weights i,
     i < length weights →
     Qltb r (foldl Qplus 0%Q (take (S i) weights)) = true →
     (∀ j, j < i → Qltb r (foldl Qplus 0%Q (take (S j) weights)) = false) →
     get_parent_at r weights = N.of_nat i).
Proof.
  split_and!; [apply weights_of_shift|done|done|done|].
  apply get_parent_at_first.
Qed.

(** C4. [sort_on_ratings] ranks the candidates by descending rating, but
    the value it returns (which the driver takes as the generation's best
    rating) is the last entry of the sorted ratings, the worst one: for the
    ratings 1, 3, 2 the ranking is 1, 2, 0 and the returned value is 1,
    while the best rating is 3. *)
Theorem sort_on_ratings_returns_worst :
  sort_on_ratings
    {| current_schedules_ := []; next_schedules_ := [];
       ratings_ := [1; 3; 2]%Q; weights_ := [];
       best_indices_ := [0; 0; 0] |} = Done ([1; 2; 0], 1%Q) ∧
  max_element [1; 3; 2]%Q = 3%Q ∧
  (∀ s, 0 < length (best_indices_ s) →
        length (ratings_ s) = length (best_indices_ s) →
        ∃ bi worst,
          sort_on_ratings s = Done (bi, worst) ∧
          bi ≡ₚ seq 0 (length (ratings_ s)) ∧
          (∀ a b ia ib ra rb,
             a < b → bi !! a = Some ia → bi !! b = Some ib →
             ratings_ s !! ia = Some ra → ratings_ s !! ib = Some rb →
             (rb <= ra)%Q) ∧
          (∃ i, ratings_ s !! i = Some worst) ∧
          (∀ i r, ratings_ s !! i = Some r → (worst <= r)%Q)).
Proof.
  split_and!; [done..|]. intros s Hn Hlen.
  destruct (sort_on_ratings_Done s Hn Hlen)
    as (bi & worst & _ & _ & Hsort & Hperm & _ & _ & _ & Hmin & Hex & Hdesc).
  by exists bi, worst.
Qed.

(** C5. [get_parent] has no fallback: when no running sum exceeds the draw
    it returns [unsigned(-1)], which is not an index of the population. For
    the ratings 1/5 and 1/2 the weights are 0 and 3/10, and the draw 1/2
    selects 4294967295; with the draw 1/10 for the second parent the
    breeding kernel passes both to [breed], which reads
    [current_schedules_] outside its extent. *)
Theorem get_parent_out_of_range :
  weights_of [1 # 5; 1 # 2]%Q = [(1 # 5) - (1 # 5); (1 # 2) - (1 # 5)]%Q ∧
  get_parent_at (1 # 2) (weights_of [1 # 5; 1 # 2]%Q) = UINT_MAX ∧
  (N.of_nat (length (weights_of [1 # 5; 1 # 2]%Q)) <= UINT_MAX)%N ∧
  get_parent low_weights_state low_weights_tape 0 = Done (UINT_MAX, 1) ∧
  redraw_parent 1 low_weights_state UINT_MAX UINT_MAX low_weights_tape 1
    = Done (1%N, 2) ∧
  breed_child (H := two_slots) 1 0 low_weights_state low_weights_tape 0
    = Undefined.
Proof. by split_and!. Qed.

(** C6, as stated, fails when the repair pass is not idempotent: with
    contradictory ordering constraints, one candidate and one elite
    candidate, the elite candidate is carried forward and then changed by the
    repair pass at the end of the iteration, and the best rating of the
    population goes from 9/10 down to 1/2. *)
Lemma best_rating_can_decrease :
  ∃ s0 k0 s1 k1,
    run_genetic (H := cyclic_rated) 1 1 1 0 0 (tape_of [(0%Q, 0)]) 0
      = Done (s0, k0) ∧
    run_genetic (H := cyclic_rated) 1 1 1 0 1 (tape_of [(0%Q, 0)]) 0
      = Done (s1, k1) ∧
    current_schedules_ s0 = [[[0]; [1]]] ∧
    current_schedules_ s1 = [[[1]; [0]]] ∧
    (max_element (map (rate_schedule (Collaborators := cyclic_rated))
                      (current_schedules_ s1))
     < max_element (map (rate_schedule (Collaborators := cyclic_rated))
                        (current_schedules_ s0)))%Q.
Proof.
  eexists _, _, _, _. split_and!.
  - vm_compute. reflexivity.
  - vm_compute. reflexivity.
  - reflexivity.
  - reflexivity.
  - vm_compute. reflexivity.
Qed.

(** C6 (amended). When the ordering constraint is irreflexive and
    transitive on sessions and the priority is asymmetric and negatively
    transitive on sessions (the conditions under which the repair pass is
    idempotent), and there is at least one elite candidate, the best rating
    of the population is non-decreasing across the generations: whenever
    [run_genetic] returns for [g1] and for [g2 >= g1] generations, the best
    rating after [g2] generations is at least the one after [g1]. *)
Theorem best_rating_monotone_with_elite `{Collaborators}
    fuel popSize eliteSize mutationRate g1 g2 t k s1 k1 s2 k2 :
  (∀ a, a < mini_size → breaks_ordering a a = false) →
  (∀ a b c, a < mini_size → b < mini_size → c < mini_size →
            breaks_ordering a b = true → breaks_ordering b c = true →
            breaks_ordering a c = true) →
  (∀ a b, a < mini_size → b < mini_size →
          higher_priority a b = true → higher_priority b a = false) →
  (∀ a b c, a < mini_size → b < mini_size → c < mini_size →
            higher_priority a b = false → higher_priority b c = false →
            higher_priority a c = false) →
  0 < eliteSize → g1 ≤ g2 →
  run_genetic fuel popSize eliteSize mutationRate g1 t k = Done (s1, k1) →
  run_genetic fuel popSize eliteSize mutationRate g2 t k = Done (s2, k2) →
  (max_element (map rate_schedule (current_schedules_ s1))
   <= max_element (map rate_schedule (current_schedules_ s2)))%Q.
Proof.
  intros Hirr Htrans Hasym Hneg Helite Hle. unfold run_genetic.
  intros (s0 & k0 & Hinit & Hrun1)%bind_Done.
  intros (s0' & k0' & Hinit' & Hrun2)%bind_Done.
  assert (s0' = s0 ∧ k0' = k0) as [-> ->] by (split; congruence).
  destruct (initialize_schedules_Done popSize t k)
    as (s & k' & Hinit0 & _ & _ & Hnext & Hcur).
  assert (s = s0) as -> by congruence.
  apply initialize_schedules_sized in Hinit.
  pose proof (fix_schedules_repaired Hirr Htrans Hasym Hneg popSize s0
                Hinit Hcur Hnext) as Hrep.
  replace g2 with (g1 + (g2 - g1)) in Hrun2 by lia.
  apply (generations_loop_split Hirr Htrans Hasym Hneg _ _ _ popSize)
    in Hrun2 as (s1' & k1' & Hrun1' & Hmax); [|done..].
  assert (s1' = s1) as -> by congruence. done.
Qed.

(** C7, as stated, fails for the elite candidates after the first: with two
    elite candidates the mutator exchanges two cells of the second one. *)
Lemma elite_beyond_first_is_mutated :
  ∃ s1 k1 s2 k2,
    breed_population (H := two_slots) 1 2 two_slots_state two_slots_tape 0
      = Done (s1, k1) ∧
    mutate_population (H := two_slots) 1 (1 # 2) s1 two_slots_tape k1
      = Done (s2, k2) ∧
    best_indices_ two_slots_state !! 1 = Some 1 ∧
    current_schedules_ two_slots_state !! 1 = Some [[1]; [0]] ∧
    next_schedules_ s2 !! 1 = Some [[0]; [1]].
Proof. by eexists _, _, _, _. Qed.

(** C7 (amended). Right after [breed_population], for all [i < eliteSize]
    slot [i] of the next generation is the candidate [best_indices_[i]] of
    the current one, unchanged. After [mutate_population], at the generation
    boundary, this is still so for slot 0 (when [eliteSize > 0]), which then
    heads the new current generation with the same rating. *)
Theorem elitism_preserved `{Collaborators}
    fuel eliteSize mutationRate s t k s1 k1 s2 k2 :
  breed_population fuel eliteSize s t k = Done (s1, k1) →
  mutate_population fuel mutationRate s1 t k1 = Done (s2, k2) →
  (∀ i, i < eliteSize →
     ∃ idx g, best_indices_ s !! i = Some idx ∧
              current_schedules_ s !! idx = Some g ∧
              next_schedules_ s1 !! i = Some g) ∧
  (0 < eliteSize →
     ∃ idx g, best_indices_ s !! 0 = Some idx ∧
              current_schedules_ s !! idx = Some g ∧
              next_schedules_ s2 !! 0 = Some g ∧
              current_schedules_ (swap_generations s2) !! 0 = Some g ∧
              rate_schedule <$> current_schedules_ (swap_generations s2) !! 0
                = rate_schedule <$> current_schedules_ s !! idx).
Proof.
  intros Hbreed Hmut.
  apply breed_population_elite in Hbreed as [_ Hcopied].
  apply mutate_population_Done in Hmut as (_ & Hzero & _).
  split; [done|]. intros Helite.
  destruct (Hcopied 0 Helite) as (idx & g & Hidx & Hg & Hnext).
  exists idx, g. simpl. rewrite Hzero, Hnext, Hg. by split_and!.
Qed.

(** C8, as stated, fails: with contradictory ordering constraints the
    second repair pass undoes the exchange of the first one. *)
Lemma fix_schedule_not_idempotent :
  fix_schedule (H := cyclic) (fix_schedule (H := cyclic) [[0]; [1]])
  ≠ fix_schedule (H := cyclic) [[0]; [1]].
Proof. done. Qed.

(** C8 (amended). On a schedule that already satisfies the ordering
    constraint and the within-slot priority constraint the repair pass is a
    no-op, whatever the collaborators answer. When [breaks_ordering] is
    irreflexive and transitive on sessions and [higher_priority] is
    asymmetric and negatively transitive on sessions (a strict weak order),
    the repaired schedule satisfies both constraints, so that applying the
    repair pass twice yields the same schedule as applying it once. *)
Theorem fix_schedule_idempotent `{Collaborators} :
  (∀ g, ordering_ok g → priority_ok g → fix_schedule g = g) ∧
  ((∀ a, a < mini_size → breaks_ordering a a = false) →
   (∀ a b c, a < mini_size → b < mini_size → c < mini_size →
             breaks_ordering a b = true → breaks_ordering b c = true →
             breaks_ordering a c = true) →
   (∀ a b, a < mini_size → b < mini_size →
           higher_priority a b = true → higher_priority b a = false) →
   (∀ a b c, a < mini_size → b < mini_size → c < mini_size →
             higher_priority a b = false → higher_priority b c = false →
             higher_priority a c = false) →
   ∀ g, shape nslots nrooms g →
        ordering_ok (fix_schedule g) ∧ priority_ok (fix_schedule g) ∧
        fix_schedule (fix_schedule g) = fix_schedule g).
Proof.
  split; [apply fix_schedule_noop|].
  intros Hirr Htrans Hasym Hneg g Hsh.
  destruct (ordering_pass_ok Hirr Htrans g Hsh) as [Hsh1 Hord1].
  assert (Hord : ordering_ok (fix_schedule g)).
  { eapply ordering_ok_same_rows; [done|]. by apply same_rows_priority_pass. }
  assert (Hprio : priority_ok (fix_schedule g))
    by by apply priority_pass_ok.
  split_and!; [done..|]. by apply fix_schedule_noop.
Qed.

(** C9. The cut of [breed] is drawn from [[0, nrooms)] and runs along the
    rooms: with two timeslots and three rooms the draw 2 is a cut (it is not
    a timeslot), the rooms 0 and 1 of both timeslots come from parent A, and
    room 2 of timeslot 0 does not. *)
Theorem breed_cuts_along_rooms :
  breed (H := wide) 6 0 1 0 wide_state (tape_of [(0%Q, 2)]) 0
    = Done (set_next wide_state [[[0; 1; 5]; [3; 4; 2]]], 1) ∧
  ¬ (2 < nslots (H := wide)) ∧
  at2 [[0; 1; 5]; [3; 4; 2]] 0 2 ≠ at2 [[0; 1; 2]; [3; 4; 5]] 0 2 ∧
  at2 [[0; 1; 5]; [3; 4; 2]] 1 0 = at2 [[0; 1; 2]; [3; 4; 5]] 1 0 ∧
  at2 [[0; 1; 5]; [3; 4; 2]] 1 0 ≠ at2 [[1; 0; 5]; [4; 3; 2]] 1 0 ∧
  (∀ (H : Collaborators) fuel mom_index dad_index child_index s t k s' k',
     Forall (shape nslots nrooms) (next_schedules_ s) →
     breed fuel mom_index dad_index child_index s t k = Done (s', k') →
     ∃ mom child' end_index,
       current_schedules_ s !! N.to_nat mom_index = Some mom ∧
       next_schedules_ s' !! child_index = Some child' ∧
       end_index = as_uint (t k) `mod` nrooms ∧ end_index < nrooms ∧
       ∀ sl r, sl < nslots → r < end_index →
               at2 child' sl r = at2 mom sl r).
Proof.
  split_and!; [done|cbv; lia|done..|].
  intros H. apply breed_copies_rooms.
Qed.

(** C10. When every candidate of the current generation has the same
    rating (other than 1.0, on which the driver stops), [rate_schedules]
    returns, every weight [compute_weights] derives is zero, every call of
    [get_parent] returns [unsigned(-1)], the redraw loop
    [while (pid2 == pid1)] never exits, and neither [breed_population] nor
    the iteration of the driver loop returns, for any amount of fuel, as
    soon as one child is to be bred. *)
Theorem equal_ratings_breeding_diverges `{Collaborators}
    fuel eliteSize mutationRate s rho t k :
  valid_tape t →
  Forall (λ g, (rate_schedule g == rho)%Q) (current_schedules_ s) →
  ¬ (rho == 1)%Q →
  eliteSize < nschedules s →
  length (next_schedules_ s) = nschedules s →
  length (best_indices_ s) = nschedules s →
  ∃ worst s1,
    rate_schedules s = Done (worst, s1) ∧
    Forall (λ w, (w == 0)%Q) (weights_ (compute_weights s1)) ∧
    (∀ k1, get_parent (compute_weights s1) t k1 = Done (UINT_MAX, S k1)) ∧
    (∀ k1, redraw_parent fuel (compute_weights s1) UINT_MAX UINT_MAX t k1
           = OutOfFuel) ∧
    breed_population fuel eliteSize (compute_weights s1) t k = OutOfFuel ∧
    generation fuel eliteSize mutationRate s t k = OutOfFuel.
Proof.
  intros Htape Hsame Hrho Hn Hnext Hbi.
  set (s0 := {| current_schedules_ := current_schedules_ s;
                next_schedules_ := next_schedules_ s;
                ratings_ := map rate_schedule (current_schedules_ s);
                weights_ := weights_ s;
                best_indices_ := best_indices_ s |}).
  assert (Hlen0 : length (ratings_ s0) = length (best_indices_ s0))
    by (simpl; by rewrite length_map).
  destruct (sort_on_ratings_Done s0)
    as (bi & worst & champion & best & Hsort & Hperm & _ & _ & _ & _ & Hex & _);
    [simpl; lia|done|]. simpl in Hperm, Hex.
  set (s1 := {| current_schedules_ := current_schedules_ s;
                next_schedules_ := next_schedules_ s;
                ratings_ := sorted_ratings s0;
                weights_ := weights_ s;
                best_indices_ := bi |}).
  assert (Hrate : rate_schedules s = Done (worst, s1)).
  { unfold rate_schedules. fold s0. by rewrite Hsort. }
  assert (Hratings : Forall (λ x, (x == rho)%Q) (ratings_ s1)).
  { destruct (sorted_ratings_ranking s0 Hlen0) as (_ & _ & _ & Hsorted).
    simpl. eapply Permutation_Forall; [symmetry; exact Hsorted|].
    simpl. by apply Forall_fmap. }
  destruct (breed_population_stuck fuel eliteSize s1 rho t k)
    as (Hzero & Hget & Hredraw & Hbreed); [done..| |].
  { intros i Hi. rewrite length_map in Hperm.
    destruct (lookup_lt_is_Some_2 bi i) as [idx Hidx].
    { rewrite Hperm, length_seq. unfold nschedules in Hn. lia. }
    exists idx. split; [done|].
    apply list_elem_of_lookup_2 in Hidx. rewrite Hperm in Hidx.
    apply elem_of_seq in Hidx. unfold nschedules. simpl. lia. }
  exists worst, s1. split_and!; [done..|].
  assert (Hworst : (worst == rho)%Q).
  { destruct Hex as [i Hi]. unfold fmap in Hi.
    rewrite list_lookup_fmap in Hi.
    destruct (current_schedules_ s !! i) as [g|] eqn:Hg; [|done].
    injection Hi as <-. by apply (Forall_lookup_1 _ _ _ _ Hsame Hg). }
  unfold generation.
  rewrite (bind_step _ _ _ _ (worst, s1) k); [|by apply lift_Done].
  destruct (Qeq_bool worst 1) eqn:Hone.
  { apply Qeq_bool_iff in Hone. rewrite Hworst in Hone. done. }
  by apply bind_OutOfFuel.
Qed.

(** * Witnesses *)

Lemma permutation_invariant_witness :
  Forall (perm_grid (H := demo)) (current_schedules_ demo_state) ∧
  Forall (perm_grid (H := demo))
         (current_schedules_ (fix_schedules (H := demo) demo_state)) ∧
  breed_population (H := demo) 6 1 demo_state demo_tape 0
    = Done (demo_bred, 9) ∧
  Forall (perm_grid (H := demo)) (next_schedules_ demo_bred) ∧
  mutate_population (H := demo) 6 (1 # 10) demo_bred demo_tape 9
    = Done (demo_mutated, 44) ∧
  Forall (perm_grid (H := demo)) (next_schedules_ demo_mutated).
Proof.
  destruct (permutation_invariant (H := demo))
    as (_ & Hfix & Hbreed & Hmut & _).
  assert (Hcur : Forall (perm_grid (H := demo)) (current_schedules_ demo_state))
    by compute_done.
  assert (Hb : breed_population (H := demo) 6 1 demo_state demo_tape 0
               = Done (demo_bred, 9)) by (vm_compute; reflexivity).
  assert (Hm : mutate_population (H := demo) 6 (1 # 10) demo_bred demo_tape 9
               = Done (demo_mutated, 44)) by (vm_compute; reflexivity).
  assert (Hnext : Forall (perm_grid (H := demo)) (next_schedules_ demo_bred)).
  { apply (Hbreed 6 1 demo_state demo_tape 0 demo_bred 9);
      [exact Hcur|compute_done|reflexivity|exact Hb]. }
  split_and!; [exact Hcur|exact (Hfix demo_state Hcur)|exact Hb|exact Hnext
              |exact Hm|].
  exact (Hmut 6 (1 # 10)%Q demo_bred demo_tape 9 demo_mutated 44 Hnext Hm).
Defined.

Lemma crossover_closure_witness :
  (perm_grid (H := demo) [[1; 5; 3]; [0; 4; 2]] ∧
   perm_grid (H := demo) [[0; 1; 2]; [3; 4; 5]]) ∧
  ∃ child',
    breed_at (H := demo) 6 [[1; 5; 3]; [0; 4; 2]] [[0; 1; 2]; [3; 4; 5]] 2
             [[0; 0; 0]; [0; 0; 0]] = Done child' ∧
    perm_grid (H := demo) child'.
Proof.
  assert (Hmom : perm_grid (H := demo) [[1; 5; 3]; [0; 4; 2]])
    by compute_done.
  assert (Hdad : perm_grid (H := demo) [[0; 1; 2]; [3; 4; 5]])
    by compute_done.
  split; [by split|].
  apply (crossover_closure (H := demo) 6 [[1; 5; 3]; [0; 4; 2]]
           [[0; 1; 2]; [3; 4; 5]] 2 [[0; 0; 0]; [0; 0; 0]]).
  - exact Hmom.
  - exact Hdad.
  - compute_done.
  - vm_compute. lia.
  - vm_compute. lia.
Defined.

Lemma best_rating_monotone_with_elite_witness :
  run_genetic (H := three_slots) 3 4 1 0 0 three_slots_tape 0
    = Done (three_slots_initial, 8) ∧
  run_genetic (H := three_slots) 3 4 1 0 1 three_slots_tape 0
    = Done (three_slots_first, 26) ∧
  (max_element (map (rate_schedule (Collaborators := three_slots))
                    (current_schedules_ three_slots_initial))
   <= max_element (map (rate_schedule (Collaborators := three_slots))
                       (current_schedules_ three_slots_first)))%Q.
Proof.
  assert (Hrun0 : run_genetic (H := three_slots) 3 4 1 0 0 three_slots_tape 0
                  = Done (three_slots_initial, 8))
    by (vm_compute; reflexivity).
  assert (Hrun1 : run_genetic (H := three_slots) 3 4 1 0 1 three_slots_tape 0
                  = Done (three_slots_first, 26))
    by (vm_compute; reflexivity).
  split; [exact Hrun0|]. split; [exact Hrun1|].
  apply (best_rating_monotone_with_elite (H := three_slots) 3 4 1 0%Q 0 1
           three_slots_tape 0 three_slots_initial 8 three_slots_first 26).
  - reflexivity.
  - discriminate.
  - discriminate.
  - reflexivity.
  - lia.
  - lia.
  - exact Hrun0.
  - exact Hrun1.
Defined.

Lemma elitism_preserved_witness :
  breed_population (H := two_slots) 1 2 two_slots_state two_slots_tape 0
    = Done (two_slots_bred, 0) ∧
  mutate_population (H := two_slots) 1 (1 # 2) two_slots_bred
    two_slots_tape 0 = Done (two_slots_mutated, 3) ∧
  next_schedules_ two_slots_bred !! 1 = Some [[1]; [0]] ∧
  next_schedules_ two_slots_mutated !! 0 = Some [[0]; [1]].
Proof.
  assert (Hb : breed_population (H := two_slots) 1 2 two_slots_state
                 two_slots_tape 0 = Done (two_slots_bred, 0))
    by (vm_compute; reflexivity).
  assert (Hm : mutate_population (H := two_slots) 1 (1 # 2) two_slots_bred
                 two_slots_tape 0 = Done (two_slots_mutated, 3))
    by (vm_compute; reflexivity).
  destruct (elitism_preserved (H := two_slots) 1 2 (1 # 2)%Q two_slots_state
              two_slots_tape 0 two_slots_bred 0 two_slots_mutated 3 Hb Hm)
    as [Hcopied Hfirst].
  split_and!; [exact Hb|exact Hm| |].
  - destruct (Hcopied 1) as (idx & g & Hidx & Hg & Hnext); [lia|].
    injection Hidx as <-. injection Hg as <-. exact Hnext.
  - destruct Hfirst as (idx & g & Hidx & Hg & Hnext & _); [lia|].
    injection Hidx as <-. injection Hg as <-. exact Hnext.
Defined.

Lemma fix_schedule_idempotent_witness :
  shape (nslots (H := demo)) (nrooms (H := demo)) [[1; 5; 3]; [0; 4; 2]] ∧
  fix_schedule (H := demo) (fix_schedule (H := demo) [[1; 5; 3]; [0; 4; 2]])
  = fix_schedule (H := demo) [[1; 5; 3]; [0; 4; 2]].
Proof.
  assert (Hsh : shape (nslots (H := demo)) (nrooms (H := demo))
                      [[1; 5; 3]; [0; 4; 2]]) by compute_done.
  split; [exact Hsh|].
  destruct (fix_schedule_idempotent (H := demo)) as [_ Hidem].
  apply Hidem; [| | | |exact Hsh]; simpl.
  - intros a _. destruct (Nat.eqb_spec a 1), (Nat.eqb_spec a 0); simpl; lia.
  - intros a b c _ _ _.
    rewrite !andb_true_iff, !Nat.eqb_eq. lia.
  - intros a b _ _. rewrite Nat.ltb_lt, Nat.ltb_ge. lia.
  - intros a b c _ _ _. rewrite !Nat.ltb_ge. lia.
Defined.

Lemma equal_ratings_breeding_diverges_witness :
  generation (H := wide) 5 1 (1 # 10) wide_population demo_tape 0
  = OutOfFuel.
Proof.
  destruct (equal_ratings_breeding_diverges (H := wide) 5 1 (1 # 10)%Q
              wide_population 0%Q demo_tape 0)
    as (worst & s1 & _ & _ & _ & _ & _ & Hgen).
  - intros k. simpl. destruct (Nat.even k); split; done.
  - repeat (apply Forall_cons_2; [reflexivity|]). apply Forall_nil_2.
  - done.
  - vm_compute. lia.
  - reflexivity.
  - reflexivity.
  - exact Hgen.
Defined.

(** * Further properties of the code *)

(** ** Selection weights and parent selection *)

Section Selection.
Implicit Types (r sum x y : Q) (weights ratings : list Q).

Lemma min_element_fold (m : Q) (l : list Q) :
  let m' := foldl (λ m y, if Qltb y m then y else m) m l in
  (m' <= m)%Q ∧ (∀ y, y ∈ l → (m' <= y)%Q) ∧ (m' = m ∨ m' ∈ l).
Proof.
  revert m. induction l as [|x l IH]; intros m; simpl.
  - split_and!; [apply Qle_refl| |by left].
    intros y Hy. by apply elem_of_nil in Hy.
  - destruct (IH (if Qltb x m then x else m)) as (Hm & Hl & Hin).
    assert (Hmx : ((if Qltb x m then x else m) <= m)%Q ∧
                  ((if Qltb x m then x else m) <= x)%Q).
    { destruct (Qltb x m) eqn:Hlt.
      - apply Qltb_lt in Hlt. split; [by apply Qlt_le_weak|apply Qle_refl].
      - apply Qltb_ge in Hlt. split; [apply Qle_refl|done]. }
    destruct Hmx as [Hm1 Hx1]. split_and!.
    + by eapply Qle_trans.
    + intros y [->|Hy]%elem_of_cons; [by eapply Qle_trans|by apply Hl].
    + destruct Hin as [->|Hin].
      * destruct (Qltb x m); [right; left|by left].
      * right. by right.
Qed.


Lemma min_element_elem ratings : ratings ≠ [] → min_element ratings ∈ ratings.
Proof.
  destruct ratings as [|m l]; [done|]. intros _. simpl.
  destruct (min_element_fold m l) as (_ & _ & [->|Hin]); [left|by right].
Qed.

Lemma weights_of_lookup ratings i :
  weights_of ratings !! i = (λ x, (x - min_element ratings)%Q) <$> ratings !! i.
Proof. by rewrite weights_of_shift, list_lookup_fmap. Qed.


(** A candidate the walk selects has a positive weight. *)
Lemma get_parent_from_positive r sum sc weights i :
  (sum <= r)%Q → i < length weights →
  (N.of_nat (sc + length weights) <= UINT_MAX)%N →
  get_parent_from r sum sc weights = N.of_nat (sc + i) →
  ∃ w, weights !! i = Some w ∧ (0 < w)%Q.
Proof.
  revert sum sc i.
  induction weights as [|w weights IH]; intros sum sc i Hsum Hi Hlen;
    simpl in *; [lia|].
  destruct (Qltb r (sum + w)) eqn:Hlt.
    + intros Heq. assert (i = 0) as -> by lia. exists w. split; [done|].
      apply Qltb_lt in Hlt.
      apply (Qplus_lt_r _ _ sum). ring_simplify.
      eapply Qle_lt_trans; [done|]. by ring_simplify in Hlt.
    + apply Qltb_ge in Hlt. intros Heq.
      destruct (get_parent_from_range r (sum + w) (S sc) weights) as [Hmax|Hrange].
      { rewrite Hmax in Heq. unfold UINT_MAX in *. lia. }
      rewrite Heq in Hrange. destruct i as [|i]; [lia|].
      apply (IH (sum + w)%Q (S sc) i); [done|lia|lia|].
      rewrite Heq. f_equal. lia.
Qed.

Lemma get_parent_at_positive r weights i :
  (0 <= r)%Q → i < length weights →
  (N.of_nat (length weights) <= UINT_MAX)%N →
  get_parent_at r weights = N.of_nat i →
  ∃ w, weights !! i = Some w ∧ (0 < w)%Q.
Proof. intros Hr Hi Hlen. by apply (get_parent_from_positive r 0 0). Qed.

Lemma get_parent_at_not_worst ratings r i x :
  (N.of_nat (length ratings) <= UINT_MAX)%N → (0 <= r)%Q →
  ratings !! i = Some x → (x == min_element ratings)%Q →
  get_parent_at r (weights_of ratings) ≠ N.of_nat i.
Proof.
  intros Hlen Hr Hx Hmin Hsel.
  assert (Hlenw : length (weights_of ratings) = length ratings).
  { by rewrite weights_of_shift, length_map. }
  apply get_parent_at_positive in Hsel as (w & Hw & Hpos);
    [|done|rewrite Hlenw; by eapply lookup_lt_Some|by rewrite Hlenw].
  rewrite weights_of_lookup, Hx in Hw. injection Hw as <-.
  rewrite Hmin in Hpos. ring_simplify in Hpos. by apply Qlt_irrefl in Hpos.
Qed.

End Selection.

Section WeightFacts.
Implicit Types (r sum x y : Q) (weights ratings : list Q).



End WeightFacts.

Section TwoCandidates.
Implicit Types (s : Scheduler) (t : Tape) (k : nat).

Lemma redraw_parent_drawn fuel s pid1 pid2 t k pid k' :
  redraw_parent fuel s pid1 pid2 t k = Done (pid, k') →
  pid ≠ pid1 ∧
  (pid = pid2 ∨ ∃ k1, pid = get_parent_at (as_double (t k1)) (weights_ s)).
Proof.
  revert pid2 k. induction fuel as [|fuel IH]; intros pid2 k; simpl.
  - destruct (N.eqb_spec pid2 pid1) as [->|Hne]; [done|].
    intros [<- _]%ret_Done. split; [done|by left].
  - destruct (N.eqb_spec pid2 pid1) as [->|Hne].
    + intros (pid3 & k1 & [-> _]%get_parent_Done & Hrest)%bind_Done.
      apply IH in Hrest as [Hne [->|Hdrawn]]; (split; [done|right]);
        [by exists k|done].
    + intros [<- _]%ret_Done. split; [done|by left].
Qed.

(** X4. With a population of two, the two parents the breeding kernel
    selects for a child are never both candidates of the population: when
    the loop [while (pid2 == pid1)] exits, one of [pid1] and [pid2] is
    [unsigned(-1)]. *)
Theorem two_candidates_select_out_of_range fuel s t k pid1 k1 pid2 k2 :
  valid_tape t → length (ratings_ s) = 2 →
  get_parent (compute_weights s) t k = Done (pid1, k1) →
  redraw_parent fuel (compute_weights s) pid1 pid1 t k1 = Done (pid2, k2) →
  pid1 ≠ pid2 ∧ (pid1 = UINT_MAX ∨ pid2 = UINT_MAX).
Proof.
  intros Ht Hlen [Hpid1 _]%get_parent_Done Hredraw.
  apply redraw_parent_drawn in Hredraw as [Hne [->|[k3 Hpid2]]]; [done|].
  split; [done|]. simpl in Hpid1, Hpid2.
  assert (Hin : min_element (ratings_ s) ∈ ratings_ s).
  { apply min_element_elem. intros Hnil. by rewrite Hnil in Hlen. }
  apply list_elem_of_lookup in Hin as [i0 Hi0].
  pose proof (lookup_lt_Some _ _ _ Hi0) as Hi0lt. rewrite Hlen in Hi0lt.
  assert (Hsel : ∀ k0,
            let pid := get_parent_at (as_double (t k0))
                         (weights_of (ratings_ s)) in
            pid = UINT_MAX ∨ pid = N.of_nat (1 - i0)).
  { intros k0 pid. subst pid.
    pose proof (get_parent_at_not_worst (ratings_ s) (as_double (t k0)) i0
                  (min_element (ratings_ s))) as Hnot.
    destruct (get_parent_from_range (as_double (t k0)) 0 0
                (weights_of (ratings_ s))) as [Hmax|Hrange]; [by left|].
    right. fold (get_parent_at (as_double (t k0)) (weights_of (ratings_ s)))
      in Hrange.
    assert (Hlw : length (weights_of (ratings_ s)) = 2)
      by (by rewrite weights_of_shift, length_map).
    rewrite Hlw in Hrange.
    assert (get_parent_at (as_double (t k0)) (weights_of (ratings_ s))
            ≠ N.of_nat i0) as Hne0.
    { apply Hnot; [rewrite Hlen; done|apply Ht|done|reflexivity]. }
    lia. }
  destruct (Hsel k) as [H1|H1]; [left; congruence|].
  destruct (Hsel k3) as [H2|H2]; [right; congruence|].
  exfalso. apply Hne. congruence.
Qed.

End TwoCandidates.

(** ** The repair pass, whatever the collaborators answer *)

Section BubbleKeys.
Context {St K : Type}.
Context (key : St → nat → K) (sw : K → K → bool).
Context (cell : nat → St → St) (n : nat) (ok : St → Prop).
Hypothesis cell_ok : ∀ j s, j + 1 < n → ok s → ok (cell j s).
Hypothesis cell_swap :
  ∀ j s, j + 1 < n → ok s → sw (key s j) (key s (j + 1)) = true →
    key (cell j s) j = key s (j + 1) ∧
    key (cell j s) (j + 1) = key s j ∧
    ∀ i, i ≠ j → i ≠ j + 1 → key (cell j s) i = key s i.
Hypothesis cell_keys :
  ∀ j s, j + 1 < n → ok s → sw (key s j) (key s (j + 1)) = false →
    ∀ i, key (cell j s) i = key s i.
Hypothesis sw_asym : ∀ a b, sw a b = true → sw b a = false.
Hypothesis sw_trans :
  ∀ a b c, sw a b = false → sw b c = false → sw a c = false.

(** One pass carries the last key in order to position [m], also when a
    step may exchange two entries whose keys are in order. *)
Lemma bubble_keys_pass m s :
  m < n → ok s → sorted_from key sw n (S m) s →
  ok (for_loop 0 m cell s) ∧ sorted_from key sw n m (for_loop 0 m cell s).
Proof using All.
  intros Hm Hok Hsorted.
  pose (I := λ j s1,
          ok s1 ∧
          (∀ a, a ≤ m → ∃ a', a' ≤ m ∧ key s1 a = key s a') ∧
          (∀ b, m < b → key s1 b = key s b) ∧
          (∀ a, a < j → sw (key s1 a) (key s1 j) = false)).
  assert (Hloop : I m (for_loop 0 m cell s)).
  { apply (for_loop_inv I); [lia| |].
    - split_and!; [done|by eauto|done|]. intros a Ha. lia.
    - intros j s1 Hj (Hok1 & Hpre & Hpost & Hlast).
      replace (S j) with (j + 1) by lia.
      destruct (sw (key s1 j) (key s1 (j + 1))) eqn:Hsw.
      + destruct (cell_swap j s1) as (Hkj & Hkj1 & Hother); [lia|done..|].
        split_and!; [apply cell_ok; [lia|done]| | |].
        * intros a Ha. destruct (decide (a = j)) as [->|Hne1].
          { rewrite Hkj. apply Hpre. lia. }
          destruct (decide (a = j + 1)) as [->|Hne2].
          { rewrite Hkj1. apply Hpre. lia. }
          rewrite Hother by done. by apply Hpre.
        * intros b Hb. rewrite Hother by lia. by apply Hpost.
        * intros a Ha. rewrite Hkj1.
          destruct (decide (a = j)) as [->|Hne1].
          { rewrite Hkj. by apply sw_asym. }
          rewrite Hother by lia. apply Hlast. lia.
      + pose proof (cell_keys j s1 ltac:(lia) Hok1 Hsw) as Hkeys.
        split_and!; [apply cell_ok; [lia|done]| | |].
        * intros a Ha. rewrite Hkeys. by apply Hpre.
        * intros b Hb. rewrite Hkeys. by apply Hpost.
        * intros a Ha. rewrite !Hkeys.
          destruct (decide (a = j)) as [->|Hne1]; [done|].
          eapply sw_trans; [|done]. apply Hlast. lia. }
  destruct Hloop as (Hok' & Hpre & Hpost & Hlast). split; [done|].
  intros a b Hab Hb Hmb. destruct (decide (b = m)) as [->|Hne].
  - by apply Hlast.
  - rewrite (Hpost b) by lia.
    destruct (decide (a ≤ m)) as [Ha|Ha].
    + destruct (Hpre a Ha) as (a' & Ha' & ->). apply Hsorted; lia.
    + rewrite (Hpost a) by lia. apply Hsorted; lia.
Qed.

Lemma bubble_keys_rooms s :
  ok s →
  ok (for_loop 1 n (λ i, for_loop 0 (n - i) cell) s) ∧
  sorted_from key sw n 1 (for_loop 1 n (λ i, for_loop 0 (n - i) cell) s).
Proof using All.
  intros Hok. destruct (decide (1 ≤ n)) as [Hn|Hn].
  2:{ rewrite for_loop_empty by lia. split; [done|].
      intros a b Hab Hb. lia. }
  pose (I := λ i s1, ok s1 ∧ sorted_from key sw n (S (n - i)) s1).
  assert (Hloop : I n (for_loop 1 n (λ i, for_loop 0 (n - i) cell) s)).
  { apply (for_loop_inv I); [lia| |].
    - split; [done|]. intros a b Hab Hb Hle. lia.
    - intros i s1 Hi [Hok1 Hs1]. unfold I.
      replace (S (n - S i)) with (n - i) by lia.
      apply bubble_keys_pass; [lia|done..]. }
  destruct Hloop as [Hok' Hs']. split; [done|].
  by replace (S (n - n)) with 1 in Hs' by lia.
Qed.

End BubbleKeys.

Section FixInvariants.
Context `{Collaborators}.
Implicit Types (g : Grid).

Lemma same_sessions_swap g g1 sl1 r1 sl2 r2 :
  sl1 < nslots → r1 < nrooms → sl2 < nslots → r2 < nrooms →
  at2 g1 sl1 r1 < mini_size → at2 g1 sl2 r2 < mini_size →
  same_sessions g g1 → same_sessions g (swap_cells g1 sl1 r1 sl2 r2).
Proof.
  intros Hsl1 Hr1 Hsl2 Hr2 Hm1 Hm2 [Hsh Hcells].
  split; [by apply shape_swap_cells|]. intros sl r.
  destruct (decide ((sl, r) = (sl1, r1))) as [[= -> ->]|Hne1].
  { erewrite at2_swap_cells_2; [|done..]. destruct (Hcells sl1 r1) as [Hp Hs].
    split; [|done]. intros Hge. rewrite Hp in Hm1 by done. lia. }
  destruct (decide ((sl, r) = (sl2, r2))) as [[= -> ->]|Hne2].
  { erewrite at2_swap_cells_1; [|done..]. destruct (Hcells sl2 r2) as [Hp Hs].
    split; [|done]. intros Hge. rewrite Hp in Hm2 by done. lia. }
  rewrite at2_swap_cells_other by done. apply Hcells.
Qed.

Lemma same_sessions_ordering_pass g :
  shape nslots nrooms g → same_sessions g (ordering_pass g).
Proof.
  intros Hsh. unfold ordering_pass.
  apply (for_loop_ind (same_sessions g)); [by split|].
  intros sl1 g1 Hsl1 Hg1.
  apply (for_loop_ind (same_sessions g)); [done|]. intros r1 g2 Hr1 Hg2.
  unfold order_from.
  destruct (Nat.leb_spec mini_size (at2 g2 sl1 r1)) as [|Hm1]; [done|].
  pose (P := λ g3, same_sessions g g3 ∧ at2 g3 sl1 r1 < mini_size).
  assert (Hloop : P (for_loop (sl1 + 1) nslots
                       (λ sl2, for_loop 0 nrooms (λ r2, order_cell sl1 r1 sl2 r2))
                       g2)).
  { apply (for_loop_ind P); [by split|]. intros sl2 g3 Hsl2 Hg3.
    apply (for_loop_ind P); [done|]. intros r2 g4 Hr2 [Hg4 Hm4].
    unfold order_cell.
    destruct (Nat.leb_spec mini_size (at2 g4 sl2 r2)) as [|Hm2]; [by split|].
    destruct (breaks_ordering _ _); [|by split].
    split; [apply same_sessions_swap; (done || lia)|].
    destruct Hg4 as [Hsh4 _].
    erewrite at2_swap_cells_2; [done|done|lia..]. }
  by destruct Hloop.
Qed.

Lemma filter_length_ext (f f' : nat → nat) (P : nat → Prop)
    `{∀ x, Decision (P x)} (l : list nat) :
  (∀ i, i ∈ l → P (f' i) ↔ P (f i)) →
  length (filter P (map f' l)) = length (filter P (map f l)).
Proof.
  induction l as [|i l IH]; intros Hext; [done|]. simpl.
  assert (Hi : P (f' i) ↔ P (f i)) by (apply Hext; left).
  rewrite !filter_cons.
  destruct (decide (P (f' i))), (decide (P (f i))); simpl;
    try tauto; rewrite IH; try done; intros j Hj; apply Hext; by right.
Qed.

Lemma slot_load_same_sessions g g' sl :
  same_sessions g g' → slot_load g' sl = slot_load g sl.
Proof.
  intros [_ Hcells]. unfold slot_load, slot_of.
  apply filter_length_ext. intros r _. destruct (Hcells sl r) as [Hp Hs].
  split; [|done]. intros Hlt.
  destruct (decide (at2 g sl r < mini_size)) as [|Hge]; [done|].
  rewrite Hp in Hlt by lia. done.
Qed.

(** Exchanging two entries of a tabulated list rearranges it. *)
Lemma exchange_perm (f f' : nat → nat) n a b :
  a < n → b < n → f' a = f b → f' b = f a →
  (∀ i, i ≠ a → i ≠ b → f' i = f i) →
  map f' (seq 0 n) ≡ₚ map f (seq 0 n).
Proof.
  intros Ha Hb Hfa Hfb Hother.
  assert (map f' (seq 0 n) = swap_list (map f (seq 0 n)) a b) as ->;
    [|apply swap_list_perm].
  apply list_eq. intros i.
  rewrite swap_list_lookup by (by rewrite length_map, length_seq).
  rewrite !list_lookup_fmap.
  destruct (decide (i < n)) as [Hi|Hi].
  - rewrite !lookup_seq_lt by done. simpl.
    repeat case_decide; subst; simpl; f_equal; auto.
  - rewrite !lookup_seq_ge by lia.
    repeat case_decide; subst; simpl; done || lia.
Qed.

Lemma same_slots_priority_cell g g1 sl j :
  sl < nslots → j + 1 < nrooms →
  same_slots g g1 → same_slots g (priority_cell sl j g1).
Proof.
  intros Hsl Hj [Hsh Hslots]. rewrite priority_cell_swaps.
  destruct (priority_swaps _ _); [|done]. split; [by apply shape_swap_cells|].
  intros sl'. etrans; [|apply Hslots]. unfold slot_of.
  destruct (decide (sl' = sl)) as [->|Hne].
  - apply (exchange_perm _ _ _ j (j + 1)); [lia|lia| | |].
    + erewrite at2_swap_cells_2; [done|done|lia..].
    + erewrite at2_swap_cells_1; [done|done|lia..].
    + intros i Hi1 Hi2. apply at2_swap_cells_other; congruence.
  - erewrite map_ext; [done|]. intros r. simpl.
    apply at2_swap_cells_other; congruence.
Qed.

Lemma same_slots_priority_pass g :
  shape nslots nrooms g → same_slots g (priority_pass g).
Proof.
  intros Hsh. unfold priority_pass.
  apply (for_loop_ind (same_slots g)); [by split|].
  intros sl g1 Hsl Hg1.
  apply (for_loop_ind (same_slots g)); [done|]. intros i g2 Hi Hg2.
  apply (for_loop_ind (same_slots g)); [done|]. intros j g3 Hj Hg3.
  apply same_slots_priority_cell; [lia..|done].
Qed.

Lemma priority_slot_partition sl g :
  sl < nslots → shape nslots nrooms g →
  let g' := for_loop 1 nrooms
              (λ i, for_loop 0 (nrooms - i) (λ j, priority_cell sl j)) g in
  shape nslots nrooms g' ∧
  (∀ sl' j, sl' ≠ sl → at2 g' sl' j = at2 g sl' j) ∧
  (∀ a b, a < b → b < nrooms →
          at2 g' sl b < mini_size → at2 g' sl a < mini_size).
Proof.
  intros Hsl Hsh g'.
  pose (ok := λ g1 : Grid,
          shape nslots nrooms g1 ∧
          ∀ sl' j, sl' ≠ sl → at2 g1 sl' j = at2 g sl' j).
  destruct (bubble_keys_rooms (placeholder_key sl) placeholder_first
              (priority_cell sl) nrooms ok) with (s := g)
    as [[Hsh' Hother] Hsorted].
  - intros j g1 Hj [Hsh1 Hother1]. rewrite priority_cell_swaps.
    destruct (priority_swaps _ _); [|done].
    split; [by apply shape_swap_cells|].
    intros sl' j' Hne. rewrite at2_swap_cells_other; [by apply Hother1|..];
      intros [= -> ->]; done.
  - intros j g1 Hj [Hsh1 Hother1] Hsw.
    unfold placeholder_first, placeholder_key in Hsw.
    apply andb_true_iff in Hsw as [Hm1 Hm2%negb_true_iff].
    unfold priority_cell. rewrite Hm2, Hm1. simpl.
    unfold placeholder_key. split_and!.
    + erewrite at2_swap_cells_2; [done|done|lia..].
    + erewrite at2_swap_cells_1; [done|done|lia..].
    + intros i Hi1 Hi2. rewrite at2_swap_cells_other; congruence.
  - intros j g1 Hj [Hsh1 Hother1] Hsw i.
    unfold placeholder_first, placeholder_key in *.
    unfold priority_cell.
    destruct (mini_size <=? at2 g1 sl (j + 1)) eqn:Hm2; [done|].
    rewrite andb_true_r in Hsw. rewrite Hsw. simpl.
    destruct (higher_priority _ _); [|done].
    destruct (decide (i = j)) as [->|Hne1].
    { erewrite at2_swap_cells_2; [|done|lia..]. congruence. }
    destruct (decide (i = j + 1)) as [->|Hne2].
    { erewrite at2_swap_cells_1; [|done|lia..]. congruence. }
    rewrite at2_swap_cells_other; congruence.
  - intros [] []; done.
  - intros [] [] []; done.
  - by split.
  - split_and!; [done..|]. intros a b Hab Hb Hreal.
    specialize (Hsorted a b Hab Hb ltac:(lia)).
    unfold placeholder_first, placeholder_key in Hsorted.
    apply andb_false_iff in Hsorted as [Ha|Hb'].
    + apply Nat.leb_gt in Ha. exact Ha.
    + apply negb_false_iff, Nat.leb_le in Hb'. exfalso.
      apply (Nat.lt_irrefl (at2 g' sl b)).
      exact (Nat.lt_le_trans _ _ _ Hreal Hb').
Qed.

Lemma priority_pass_partition g :
  shape nslots nrooms g →
  ∀ sl a b, sl < nslots → a < b → b < nrooms →
    at2 (priority_pass g) sl b < mini_size →
    at2 (priority_pass g) sl a < mini_size.
Proof.
  intros Hsh. unfold priority_pass.
  pose (I := λ sl g1,
          shape nslots nrooms g1 ∧
          ∀ sl' a b, sl' < sl → a < b → b < nrooms →
                     at2 g1 sl' b < mini_size → at2 g1 sl' a < mini_size).
  match goal with
  | |- ∀ sl a b, _ → _ → _ →
         at2 (for_loop 0 nslots ?body0 g) _ _ < _ → _ =>
      assert (Hloop : I nslots (for_loop 0 nslots body0 g))
  end.
  { apply (for_loop_inv I); [lia| |].
    - split; [done|]. intros sl' a b Hsl'. lia.
    - intros sl g1 Hsl [Hsh1 Hdone].
      destruct (priority_slot_partition sl g1) as (Hsh' & Hother & Hsorted);
        [lia|done|].
      split; [done|]. intros sl' a b Hsl' Hab Hb.
      destruct (decide (sl' = sl)) as [->|Hne]; [by apply Hsorted|].
      rewrite !Hother by done. apply Hdone; [lia|done..]. }
  destruct Hloop as [_ Hdone]. intros sl a b Hsl. by apply Hdone.
Qed.

(** X5. After the repair pass, whatever the collaborators answer, every
    timeslot holds its sessions in the rooms before its placeholders: a room
    before one that holds a session holds a session. *)
Theorem fix_schedule_sessions_first g sl a b :
  shape nslots nrooms g → sl < nslots → a < b → b < nrooms →
  at2 (fix_schedule g) sl b < mini_size →
  at2 (fix_schedule g) sl a < mini_size.
Proof.
  intros Hsh. unfold fix_schedule. apply priority_pass_partition.
  by destruct (same_sessions_ordering_pass g Hsh).
Qed.

(** X6. The repair pass keeps the number of sessions of every timeslot:
    the ordering pass leaves every placeholder in its cell, and the priority
    pass rearranges the rooms of a timeslot among themselves. *)
Theorem fix_schedule_keeps_slot_load g sl :
  shape nslots nrooms g →
  (∀ r, mini_size ≤ at2 g sl r → at2 (ordering_pass g) sl r = at2 g sl r) ∧
  slot_of (fix_schedule g) sl ≡ₚ slot_of (ordering_pass g) sl ∧
  slot_load (fix_schedule g) sl = slot_load g sl.
Proof.
  intros Hsh. pose proof (same_sessions_ordering_pass g Hsh) as Hord.
  destruct (same_slots_priority_pass (ordering_pass g)) as [_ Hslots];
    [by destruct Hord|].
  split_and!.
  - intros r. by apply Hord.
  - apply Hslots.
  - rewrite <- (slot_load_same_sessions g (ordering_pass g) sl Hord).
    unfold slot_load, fix_schedule. by rewrite (Hslots sl).
Qed.

End FixInvariants.

(** ** The mutator *)

Section LoopsTapeMore.
Context {St : Type}.
Implicit Types (body : nat → St → M St) (x : St) (t : Tape) (k : nat).

Lemma bind_congr {A B} (m m' : M A) (f : A → M B) t k k' :
  m t k = m' t k' → (m ≫= f) t k = (m' ≫= f) t k'.
Proof. intros Hm. unfold mbind, M_bind. by rewrite Hm. Qed.

Lemma bind_Undefined {A B} (m : M A) (f : A → M B) t k :
  m t k = Undefined → (m ≫= f) t k = Undefined.
Proof. intros Hm. unfold mbind, M_bind. by rewrite Hm. Qed.

Lemma for_loopT_first t lo hi body x k x1 k1 :
  lo < hi → body lo x t k = Done (x1, k1) →
  for_loopM lo hi body x t k = for_loopM (S lo) hi body x1 t k1.
Proof.
  intros Hlt Hbody. induction hi as [|hi IH]; [lia|].
  destruct (decide (lo = hi)) as [->|Hne].
  - rewrite for_loopM_last by lia. rewrite !for_loopM_empty by lia.
    by rewrite (bind_step _ _ _ _ x k).
  - rewrite !for_loopM_last by lia. apply bind_congr, IH. lia.
Qed.

Lemma for_loopT_undefined t lo hi body x k :
  lo < hi → body lo x t k = Undefined →
  for_loopM lo hi body x t k = Undefined.
Proof.
  intros Hlt Hbody. induction hi as [|hi IH]; [lia|].
  rewrite for_loopM_last by lia.
  destruct (decide (lo = hi)) as [->|Hne].
  - rewrite for_loopM_empty by lia. by rewrite (bind_step _ _ _ _ x k).
  - apply bind_Undefined, IH. lia.
Qed.

End LoopsTapeMore.

Section MutationRooms.
Context `{Collaborators}.
Implicit Types (s : Scheduler) (t : Tape) (k : nat) (g : Grid).

Lemma same_rooms_refl g : shape nslots nrooms g → same_rooms g g.
Proof. by split. Qed.

Lemma same_rooms_swap g g1 sl sl2 r :
  sl < nslots → sl2 < nslots → r < nrooms →
  same_rooms g g1 → same_rooms g (swap_cells g1 sl r sl2 r).
Proof.
  intros Hsl Hsl2 Hr [Hsh Hrooms]. split; [by apply shape_swap_cells|].
  intros r'. etrans; [|apply Hrooms]. unfold room_of.
  destruct (decide (r' = r)) as [->|Hne].
  - apply (exchange_perm _ _ _ sl sl2); [done|done| | |].
    + by erewrite at2_swap_cells_2.
    + by erewrite at2_swap_cells_1.
    + intros i Hi1 Hi2. apply at2_swap_cells_other; congruence.
  - erewrite map_ext; [done|]. intros sl'. simpl.
    apply at2_swap_cells_other; congruence.
Qed.

Lemma mutate_cell_rooms fuel mutationRate sl r g g1 t k g' k' :
  sl < nslots → r < nrooms → same_rooms g g1 →
  mutate_cell fuel mutationRate sl r g1 t k = Done (g', k') →
  same_rooms g g'.
Proof.
  intros Hsl Hr Hg. unfold mutate_cell.
  intros (d & k1 & _ & Hrest)%bind_Done.
  destruct (Qltb d mutationRate).
  - apply bind_Done in Hrest as (sl2 & k2 & Hsl2 & [<- _]%ret_Done).
    apply redraw_slot_Done in Hsl2 as [Hne [->|Hlt]]; [done|].
    by apply same_rooms_swap.
  - by apply ret_Done in Hrest as [<- _].
Qed.

Lemma mutate_schedule_rooms fuel mutationRate g t k g' k' :
  shape nslots nrooms g →
  mutate_schedule fuel mutationRate g t k = Done (g', k') → same_rooms g g'.
Proof.
  intros Hg. unfold mutate_schedule.
  apply (for_loopT_inv (λ _ g1 _, same_rooms g g1)); [lia|by split|].
  intros sl g1 k1 g2 k2 Hsl Hg1.
  apply (for_loopT_inv (λ _ g1 _, same_rooms g g1)); [lia|done|].
  intros r g3 k3 g4 k4 Hr Hg3.
  apply mutate_cell_rooms; [lia..|done].
Qed.

(** X7. [mutate_population] moves identifiers between timeslots of one
    room only: in every schedule, every room holds the same identifiers
    before and after. *)
Theorem mutation_keeps_rooms fuel mutationRate s t k s' k' sc g :
  Forall (shape nslots nrooms) (next_schedules_ s) →
  mutate_population fuel mutationRate s t k = Done (s', k') →
  next_schedules_ s !! sc = Some g →
  ∃ g', next_schedules_ s' !! sc = Some g' ∧
        shape nslots nrooms g' ∧
        ∀ r, room_of g' r ≡ₚ room_of g r.
Proof.
  intros Hshape Hmut. unfold mutate_population in Hmut.
  pose (I := λ (_ : nat) s1 (_ : nat),
          ∀ sc g, next_schedules_ s !! sc = Some g →
            ∃ g', next_schedules_ s1 !! sc = Some g' ∧ same_rooms g g').
  assert (Hinv : I (nschedules s) s' k'); [|by apply Hinv].
  apply (for_loopT_inv I t 0 (nschedules s) (mutate_one fuel mutationRate) s k);
    [lia| | |done].
  - intros sc0 g0 Hg. exists g0. split; [done|]. apply same_rooms_refl.
    by eapply (Forall_lookup_1 _ _ _ _ Hshape).
  - clear Hmut. intros sc0 s1 k1 s2 k2 _ Hinv. unfold mutate_one.
    destruct (Nat.eqb_spec sc0 0) as [->|Hne].
    { by intros [<- _]%ret_Done. }
    intros (g1 & k3 & [Hg1 <-]%read_nat_Done & Hrest)%bind_Done.
    apply bind_Done in Hrest as (g2 & k4 & Hmut & [<- _]%ret_Done).
    intros sc' g0 Hg. destruct (Hinv sc' g0 Hg) as (g' & Hg' & Hsame).
    simpl. destruct (decide (sc' = sc0)) as [->|Hne'].
    + exists g2. rewrite list_lookup_insert_eq by by eapply lookup_lt_Some.
      split; [done|]. assert (g' = g1) as -> by congruence.
      destruct Hsame as [Hsh1 Hrooms1].
      apply mutate_schedule_rooms in Hmut as [Hsh2 Hrooms2]; [|done].
      split; [done|]. intros r. by rewrite Hrooms2.
    + exists g'. by rewrite list_lookup_insert_ne.
Qed.

(** *** A mutation rate that no draw is below *)

Lemma mutate_schedule_idle fuel mutationRate g t k :
  valid_tape t → (mutationRate <= 0)%Q →
  mutate_schedule fuel mutationRate g t k = Done (g, k + nslots * nrooms).
Proof.
  intros Ht Hrate. unfold mutate_schedule.
  destruct (for_loopT_total (λ sl g1 k1, g1 = g ∧ k1 = k + sl * nrooms) t
              0 nslots
              (λ sl, for_loopM 0 nrooms
                       (λ r, mutate_cell fuel mutationRate sl r)) g k)
    as (g' & k' & -> & -> & ->); [lia|split; [done|lia]| |done].
  intros sl g1 k1 Hsl [-> ->].
  destruct (for_loopT_total (λ r g1 k1, g1 = g ∧ k1 = k + sl * nrooms + r) t
              0 nrooms (λ r, mutate_cell fuel mutationRate sl r) g
              (k + sl * nrooms))
    as (g' & k' & -> & -> & ->); [lia|split; [done|lia]| |].
  - intros r g1 k1 Hr [-> ->]. eexists g, _. split; [|split; [done|]].
    + unfold mutate_cell, drand, mbind, M_bind.
      assert (Qltb (as_double (t (k + sl * nrooms + r))) mutationRate = false)
        as ->; [|done].
      apply Qltb_ge. eapply Qle_trans; [done|]. apply Ht.
    + lia.
  - eexists g, _. split; [done|]. split; [done|]. lia.
Qed.

(** X8. With a mutation rate of 0 or less, [mutate_population] returns the
    population unchanged, after one draw for every cell of every schedule but
    the first. *)
Theorem mutation_rate_zero_is_idle fuel mutationRate s t k :
  valid_tape t → (mutationRate <= 0)%Q →
  length (next_schedules_ s) = nschedules s →
  mutate_population fuel mutationRate s t k
    = Done (s, k + (nschedules s - 1) * (nslots * nrooms)).
Proof.
  intros Ht Hrate Hlen. unfold mutate_population.
  destruct (for_loopT_total
              (λ sc s1 k1, s1 = s ∧ k1 = k + (sc - 1) * (nslots * nrooms)) t
              0 (nschedules s) (mutate_one fuel mutationRate) s k)
    as (s' & k' & -> & -> & ->); [lia|split; [done|lia]| |done].
  intros sc s1 k1 Hsc [-> ->]. unfold mutate_one.
  destruct (Nat.eqb_spec sc 0) as [->|Hne].
  { eexists s, _. split; [done|]. split; [done|]. simpl. lia. }
  destruct (lookup_lt_is_Some_2 (next_schedules_ s) sc) as [g Hg]; [lia|].
  eexists s, _. split; [|split; [done|]].
  - rewrite (bind_step _ _ _ _ g (k + (sc - 1) * (nslots * nrooms)));
      [|by apply read_nat_Done].
    rewrite (bind_step _ _ _ _ _ _ (mutate_schedule_idle _ _ _ _ _ Ht Hrate)).
    rewrite list_insert_id by done. unfold mret, M_ret. by destruct s.
  - destruct sc; [done|]. simpl. lia.
Qed.

(** *** A single timeslot *)

Lemma redraw_slot_single fuel t k :
  nslots = 1 → redraw_slot fuel 0 0 t k = OutOfFuel.
Proof.
  intros Hone. revert k. induction fuel as [|fuel IH]; intros k; [done|].
  simpl. unfold mbind, M_bind, rand. rewrite Hone. simpl. apply IH.
Qed.

(** X9. With a single timeslot, a mutation that fires never finds another
    timeslot: when the first draw is below the mutation rate,
    [mutate_population] does not return, whatever the fuel. *)
Theorem single_timeslot_mutation_diverges fuel mutationRate s t k :
  nslots = 1 → 0 < nrooms → 2 ≤ nschedules s →
  length (next_schedules_ s) = nschedules s →
  (as_double (t k) < mutationRate)%Q →
  mutate_population fuel mutationRate s t k = OutOfFuel.
Proof.
  intros Hone Hrooms Hn Hlen Hdraw. unfold mutate_population.
  rewrite (for_loopT_first t 0 _ _ s k s k); [|lia|done].
  apply for_loopT_out_of_fuel; [lia|]. unfold mutate_one. simpl.
  destruct (lookup_lt_is_Some_2 (next_schedules_ s) 1) as [g Hg]; [lia|].
  rewrite (bind_step _ _ _ _ g k); [|by apply (read_nat_Done _ 1)].
  apply bind_OutOfFuel. unfold mutate_schedule.
  apply for_loopT_out_of_fuel; [lia|].
  apply for_loopT_out_of_fuel; [lia|].
  unfold mutate_cell, drand, mbind, M_bind.
  apply Qltb_lt in Hdraw. rewrite Hdraw.
  by rewrite redraw_slot_single.
Qed.

End MutationRooms.

(** ** Edges of the breeding phase and of the crossover *)

Section LoopsSplit.
Context {St : Type}.
Implicit Types (body : nat → St → M St) (x : St) (t : Tape) (k : nat).

Lemma for_loopT_split t lo m hi body x k x1 k1 :
  lo ≤ m → m ≤ hi → for_loopM lo m body x t k = Done (x1, k1) →
  for_loopM lo hi body x t k = for_loopM m hi body x1 t k1.
Proof.
  intros Hlo Hhi Hpre. induction hi as [|hi IH].
  - assert (m = 0) as -> by lia. assert (lo = 0) as -> by lia.
    by rewrite for_loopM_empty in * by lia.
  - destruct (decide (m = S hi)) as [->|Hne].
    + by rewrite Hpre, for_loopM_empty by lia.
    + rewrite !for_loopM_last by lia. apply bind_congr, IH. lia.
Qed.

End LoopsSplit.

Section BreedingEdges.
Context `{Collaborators}.
Implicit Types (s : Scheduler) (t : Tape) (k : nat) (g mom dad child : Grid).

(** X10. An elite size above the population size makes the elite copy
    loop of [breed_population] read [best_indices_] outside its extent. *)
Theorem elite_beyond_population_is_undefined fuel eliteSize s t k :
  nschedules s < eliteSize →
  length (best_indices_ s) = nschedules s →
  length (next_schedules_ s) = nschedules s →
  Forall (λ idx, idx < nschedules s) (best_indices_ s) →
  breed_population fuel eliteSize s t k = Undefined.
Proof.
  intros He Hbi Hnext Hidx. unfold breed_population.
  apply bind_Undefined.
  destruct (elite_loop_total (nschedules s) s t k) as (s1 & Hloop & Hfr);
    [lia| |].
  { intros i Hi. destruct (lookup_lt_is_Some_2 (best_indices_ s) i) as [idx Hi'];
      [lia|].
    exists idx. split; [done|]. by eapply (Forall_lookup_1 _ _ _ _ Hidx). }
  rewrite (for_loopT_split t 0 (nschedules s) eliteSize _ s k s1 k);
    [|lia|lia|done].
  apply for_loopT_undefined; [done|]. unfold copy_elite.
  apply bind_Undefined. unfold read.
  destruct Hfr as (_ & _ & _ & Hbi1 & _). rewrite Hbi1, Hbi.
  by rewrite N.ltb_irrefl.
Qed.

Lemma grid_ext ns nr g g' :
  shape ns nr g → shape ns nr g' →
  (∀ i j, i < ns → j < nr → at2 g i j = at2 g' i j) → g = g'.
Proof.
  intros Hg Hg' Hext.
  rewrite (grid_tabulate _ _ _ Hg), (grid_tabulate _ _ _ Hg').
  apply list_fmap_ext. intros i0 i [-> Hi]%lookup_seq.
  apply list_fmap_ext. intros j0 j [-> Hj]%lookup_seq. simpl.
  by apply Hext.
Qed.

(** Where the second parent's value does not occur in the copied region,
    the child takes it in the same cell. *)
Lemma breed_at_free fuel mom dad end_index child child' i j :
  shape nslots nrooms child → end_index ≤ nrooms →
  breed_at fuel mom dad end_index child = Done child' →
  i < nslots → end_index ≤ j < nrooms →
  find (mom_genes_of mom end_index) (at2 dad i j) = None →
  at2 child' i j = at2 dad i j.
Proof.
  intros Hsh He Hbreed Hi Hj Hfree.
  apply breed_at_cells in Hbreed as (_ & _ & Hdad); [|done..].
  destruct (Hdad i j Hi Hj) as (q & Hchase & ->).
  destruct fuel as [|fuel]; [done|]. simpl in Hchase.
  rewrite Hfree in Hchase. by injection Hchase as <-.
Qed.

Lemma breed_at_free_total fuel mom dad end_index child :
  0 < fuel → shape nslots nrooms child → end_index ≤ nrooms →
  (∀ i j, i < nslots → end_index ≤ j < nrooms →
          find (mom_genes_of mom end_index) (at2 dad i j) = None) →
  ∃ child',
    breed_at fuel mom dad end_index child = Done child' ∧
    shape nslots nrooms child' ∧
    (∀ i j, i < nslots → j < end_index → at2 child' i j = at2 mom i j) ∧
    (∀ i j, i < nslots → end_index ≤ j < nrooms →
            at2 child' i j = at2 dad i j).
Proof.
  intros Hfuel Hsh He Hfree.
  destruct (breed_at_total fuel mom dad end_index child Hsh He)
    as [child' Hbreed].
  { intros i j Hi Hj. exists (i, j). destruct fuel as [|fuel]; [lia|].
    simpl. by rewrite Hfree. }
  exists child'. split; [done|].
  pose proof Hbreed as (Hsh' & Hmom & _)%breed_at_cells; [|done..].
  split_and!; [done..|]. intros i j Hi Hj.
  eapply breed_at_free; [| |done|..]; done || auto.
Qed.

Lemma find_from_cut_zero mom value i :
  find_from (mom_genes_of mom 0) value i = None.
Proof.
  revert i. induction mom as [|row mom IH]; intros i; [done|].
  simpl. apply IH.
Qed.

(** X11. With the cut 0, [breed] copies nothing from the first parent and
    the child is the second parent. *)
Theorem crossover_cut_zero_clones_dad fuel mom dad child :
  0 < fuel → shape nslots nrooms dad → shape nslots nrooms child →
  breed_at fuel mom dad 0 child = Done dad.
Proof.
  intros Hfuel Hdad Hsh.
  destruct (breed_at_free_total fuel mom dad 0 child)
    as (child' & Hbreed & Hsh' & _ & Hcells); [done|done|lia| |].
  { intros i j _ _. apply find_from_cut_zero. }
  rewrite Hbreed. f_equal. apply (grid_ext nslots nrooms); [done..|].
  intros i j Hi Hj. apply Hcells; lia.
Qed.

(** X12. The child of a permutation schedule with itself is that schedule,
    for every cut. *)
Theorem crossover_of_identical_parents fuel mom end_index child :
  0 < fuel → perm_grid mom → shape nslots nrooms child →
  end_index ≤ nrooms →
  breed_at fuel mom mom end_index child = Done mom.
Proof.
  intros Hfuel Hmom Hsh He. pose proof Hmom as [Hshm _].
  destruct (breed_at_free_total fuel mom mom end_index child)
    as (child' & Hbreed & Hsh' & Hkept & Hcells); [done..| |].
  { intros i j Hi Hj.
    destruct (find (mom_genes_of mom end_index) (at2 mom i j)) as [p|] eqn:Hfind;
      [|done].
    apply (find_mom_genes_Some nslots nrooms) in Hfind as (Hp1 & Hp2 & Hp);
      [|done..].
    assert (p = (i, j)) as ->.
    { apply (perm_grid_inj mom); [done| | |done];
        apply elem_of_cells; simpl; lia. }
    simpl in Hp2. lia. }
  rewrite Hbreed. f_equal. apply (grid_ext nslots nrooms); [done..|].
  intros i j Hi Hj. destruct (decide (j < end_index)).
  - by apply Hkept.
  - apply Hcells; lia.
Qed.

End BreedingEdges.

(** ** The ranking and the driver loop *)

Section RankingTies.
Implicit Types (ratings h : list Q) (bi : list nat).

Lemma sort_cell_stable ratings n j st :
  j + 1 < n → ranking ratings n st → stable st → stable (sort_cell j st).
Proof.
  intros Hj Hst Hstable.
  destruct (Qltb (rating_key st j) (rating_key st (j + 1))) eqn:Hsw.
  2:{ by rewrite (sort_cell_keep ratings n). }
  destruct (sort_cell_keys ratings n j st Hj Hst Hsw) as (Hkj & Hkj1 & Hother).
  pose proof (sort_cell_swap ratings n j st Hj Hst Hsw) as Hcell.
  destruct Hst as (Hbi & Hh & _ & _).
  apply Qltb_lt in Hsw.
  intros a b ia ib Hab Ha Hb Heq.
  rewrite Hcell in Ha, Hb. simpl in Ha, Hb.
  rewrite swap_list_lookup in Ha, Hb by lia.
  destruct (decide (a = j)) as [->|Haj].
  - destruct (decide (b = j + 1)) as [->|Hbj1].
    + rewrite Hkj, Hkj1 in Heq. rewrite Heq in Hsw.
      by apply Qlt_irrefl in Hsw.
    + rewrite Hkj, Hother in Heq by lia.
      repeat case_decide; try lia.
      apply (Hstable (j + 1) b); done || lia.
  - destruct (decide (a = j + 1)) as [->|Haj1].
    + rewrite Hkj1, Hother in Heq by lia.
      repeat case_decide; try lia.
      apply (Hstable j b); done || lia.
    + rewrite (Hother a) in Heq by done.
      destruct (decide (b = j)) as [->|Hbj].
      * rewrite Hkj in Heq. repeat case_decide; try lia.
        apply (Hstable a (j + 1)); done || lia.
      * destruct (decide (b = j + 1)) as [->|Hbj1].
        { rewrite Hkj1 in Heq. repeat case_decide; try lia.
          apply (Hstable a j); done || lia. }
        rewrite (Hother b) in Heq by done.
        repeat case_decide; try lia.
        by apply (Hstable a b).
Qed.

Lemma sort_loops_stable ratings n :
  length ratings = n →
  ranking ratings n (sort_loops n (seq 0 n, ratings)) ∧
  stable (sort_loops n (seq 0 n, ratings)).
Proof.
  intros Hlen. unfold sort_loops.
  apply (for_loop_ind (λ st, ranking ratings n st ∧ stable st)).
  - split.
    + split_and!; simpl; [by rewrite length_seq|done|done|].
      intros j i [-> _]%lookup_seq. done.
    + intros a b ia ib Hab [-> _]%lookup_seq [-> _]%lookup_seq _. lia.
  - intros i st Hi Hst.
    apply (for_loop_ind (λ st, ranking ratings n st ∧ stable st)); [done|].
    intros j st1 Hj [Hrank Hstable]. split.
    + apply sort_cell_ranking; [lia|done].
    + eapply sort_cell_stable; [|done..]. lia.
Qed.

(** X13. [sort_on_ratings] is stable: of two candidates with equal
    ratings, the one of the smaller index is ranked first. *)
Theorem ranking_breaks_ties_by_index s bi worst a b ia ib ra rb :
  length (ratings_ s) = length (best_indices_ s) →
  sort_on_ratings s = Done (bi, worst) →
  a < b → bi !! a = Some ia → bi !! b = Some ib →
  ratings_ s !! ia = Some ra → ratings_ s !! ib = Some rb →
  (ra == rb)%Q → ia < ib.
Proof.
  intros Hlen. unfold sort_on_ratings.
  set (n := length (best_indices_ s)) in *.
  destruct (sort_loops_stable (ratings_ s) n Hlen) as [Hrank Hstable].
  destruct (sort_loops n (seq 0 n, ratings_ s)) as [bi' h].
  destruct (n =? 0); [done|].
  destruct (h !! (n - 1)); [|done]. intros [= <- <-].
  intros Hab Ha Hb Hra Hrb Heq.
  destruct Hrank as (_ & _ & _ & Hrel). simpl in *.
  apply (Hstable a b); [done..|]. unfold rating_key. simpl.
  by rewrite (Hrel a ia Ha), (Hrel b ib Hb), Hra, Hrb.
Qed.

End RankingTies.

Section DriverEdges.
Context `{Collaborators}.
Implicit Types (s : Scheduler) (t : Tape) (k : nat) (g : Grid).

(** X14. When [run_genetic] returns, the five views of the population
    have the extent [popSize] and every schedule has the extents
    [nslots × nrooms]. *)
Theorem run_genetic_keeps_extents fuel popSize eliteSize mutationRate
    generations t k s k' :
  run_genetic fuel popSize eliteSize mutationRate generations t k
    = Done (s, k') →
  nschedules s = popSize ∧ length (next_schedules_ s) = popSize ∧
  length (ratings_ s) = popSize ∧ length (weights_ s) = popSize ∧
  length (best_indices_ s) = popSize ∧
  Forall (shape nslots nrooms) (current_schedules_ s).
Proof.
  intros Hrun. pose proof (run_genetic_perm_grid _ _ _ _ _ _ _ _ _ Hrun) as Hperm.
  unfold run_genetic in Hrun.
  apply bind_Done in Hrun as (s0 & k0 & Hinit%initialize_schedules_sized & Hloop).
  apply (generations_loop_sized _ _ _ popSize) in Hloop.
  - destruct Hloop as (? & ? & ? & ? & ?). split_and!; [done..|].
    eapply Forall_impl; [done|]. by intros g [].
  - destruct Hinit as (? & ? & ? & ? & ?). unfold sized, nschedules in *.
    simpl. by rewrite length_map.
Qed.

(** X15. With a population size of 0, [run_genetic] returns the empty
    population when no generation is asked for, and otherwise reads
    [h_ratings[n-1]] outside the view in the first generation. *)
Theorem empty_population_is_undefined fuel eliteSize mutationRate generations
    t k :
  run_genetic fuel 0 eliteSize mutationRate 0 t k
    = Done (empty_state, k) ∧
  run_genetic fuel 0 eliteSize mutationRate (S generations) t k = Undefined.
Proof. by split. Qed.

(** X16. The driver loop breaks only when no schedule of the population is
    rated below 1 (and one is rated 1): the rating it compares with 1.0 is
    the lowest. It then leaves the schedules as they are and draws
    nothing. *)
Theorem early_exit_means_no_rating_below_one fuel eliteSize mutationRate
    s t k s' k' :
  length (best_indices_ s) = nschedules s →
  generation fuel eliteSize mutationRate s t k = Done ((false, s'), k') →
  k' = k ∧ current_schedules_ s' = current_schedules_ s ∧
  (∀ g, g ∈ current_schedules_ s → (1 <= rate_schedule g)%Q) ∧
  ∃ g, g ∈ current_schedules_ s ∧ (rate_schedule g == 1)%Q.
Proof.
  intros Hlen. unfold generation.
  intros ([best s1] & k1 & [Hrate <-]%lift_Done & Hrest)%bind_Done.
  apply rate_schedules_Done in Hrate as (Hc1 & _ & _ & Hsort).
  destruct (Qeq_bool best 1) eqn:Hbest.
  2:{ apply bind_Done in Hrest as (s2 & k2 & _ & Hrest).
      by apply bind_Done in Hrest as (s3 & k3 & _ & [[=] _]%ret_Done). }
  apply ret_Done in Hrest as [[= <-] <-]. apply Qeq_bool_iff in Hbest.
  assert (0 < length (best_indices_ s)) as Hpos.
  { unfold sort_on_ratings in Hsort. cbn [best_indices_ ratings_] in Hsort.
    destruct (sort_loops _ _) as [bi h].
    destruct (Nat.eqb_spec (length (best_indices_ s)) 0); [done|lia]. }
  match type of Hsort with
  | sort_on_ratings ?s0 = _ =>
      destruct (sort_on_ratings_Done s0 Hpos) as
        (bi & worst & _ & _ & Hsort' & _ & _ & _ & _ & Hmin & [i Hi] & _)
  end.
  { cbn [best_indices_ ratings_]. rewrite length_map.
    unfold nschedules in Hlen. lia. }
  cbn [best_indices_ ratings_] in *.
  rewrite Hsort in Hsort'. injection Hsort' as _ <-.
  split_and!; [done..| |].
  - intros g [j Hj]%list_elem_of_lookup. rewrite <- Hbest.
    apply (Hmin j). by rewrite list_lookup_fmap, Hj.
  - rewrite list_lookup_fmap in Hi.
    destruct (current_schedules_ s !! i) as [g|] eqn:Hg; [|done].
    injection Hi as Hi. exists g. split; [by eapply list_elem_of_lookup_2|].
    by rewrite Hi.
Qed.

End DriverEdges.

(** ** Across one generation *)

Section Generations.
Context `{Collaborators}.
Implicit Types (s : Scheduler) (t : Tape) (k : nat) (g : Grid).

(** X17. With the elite size equal to the population size,
    [breed_population] always returns, draws nothing, and the next generation
    lists the current one in ranking order. *)
Theorem all_elite_breeding_returns fuel s t k :
  length (best_indices_ s) = nschedules s →
  length (next_schedules_ s) = nschedules s →
  Forall (λ idx, idx < nschedules s) (best_indices_ s) →
  ∃ s', breed_population fuel (nschedules s) s t k = Done (s', k) ∧
        current_schedules_ s' = current_schedules_ s ∧
        ∀ i idx, best_indices_ s !! i = Some idx →
                 next_schedules_ s' !! i = current_schedules_ s !! idx.
Proof.
  intros Hbi Hnext Hidx.
  destruct (elite_loop_total (nschedules s) s t k) as (s1 & Hloop & Hfr);
    [lia| |].
  { intros i Hi. destruct (lookup_lt_is_Some_2 (best_indices_ s) i) as [idx Hi'];
      [lia|].
    exists idx. split; [done|]. by eapply (Forall_lookup_1 _ _ _ _ Hidx). }
  exists s1. pose proof Hfr as (Hcur & _).
  assert (Hn : nschedules s1 = nschedules s) by (unfold nschedules; by rewrite Hcur).
  split_and!; [|done|].
  - unfold breed_population. rewrite (bind_step _ _ _ _ _ _ Hloop).
    rewrite Hn. by rewrite for_loopM_empty.
  - apply elite_loop_Done in Hloop as (_ & _ & Hcopied & _).
    intros i idx Hi. destruct (Hcopied i) as (idx' & g & Hidx' & Hg & Hnew).
    { apply lookup_lt_Some in Hi. lia. }
    assert (idx' = idx) as -> by congruence. by rewrite Hnew, Hg.
Qed.

(** X18. After a completed iteration of the driver loop, [ratings_] holds
    the ratings of the previous generation, which is kept in
    [next_schedules_], in descending order: entry [a] is the rating of the
    candidate [best_indices_[a]], not of candidate [a]. [weights_] is derived
    from these sorted ratings, and the new generation is not rated. *)
Theorem ratings_lag_one_generation fuel eliteSize mutationRate s t k s' k' :
  length (best_indices_ s) = nschedules s →
  generation fuel eliteSize mutationRate s t k = Done ((true, s'), k') →
  next_schedules_ s' = current_schedules_ s ∧
  ratings_ s' ≡ₚ map rate_schedule (next_schedules_ s') ∧
  (∀ a b ra rb,
     a < b → ratings_ s' !! a = Some ra → ratings_ s' !! b = Some rb →
     (rb <= ra)%Q) ∧
  (∀ a idx, best_indices_ s' !! a = Some idx →
     ratings_ s' !! a = rate_schedule <$> next_schedules_ s' !! idx) ∧
  weights_ s' = weights_of (ratings_ s').
Proof.
  intros Hbi Hgen. apply generation_Done in Hgen
    as (best & s1 & s2 & k2 & s3 & Hrate & Hbreed & Hmut & ->).
  destruct (rate_schedules_ratings s best s1 Hbi Hrate)
    as (_ & _ & Hperm & Hdesc & Hrank).
  apply rate_schedules_Done in Hrate as (Hc1 & _ & _ & _).
  apply breed_population_elite in Hbreed as [(Hc2 & Hr2 & Hw2 & Hb2 & _) _].
  apply mutate_population_Done in Hmut as [(Hc3 & Hr3 & Hw3 & Hb3 & _) _].
  simpl in *.
  assert (Hcur : current_schedules_ s3 = current_schedules_ s) by congruence.
  assert (Hrat : ratings_ s3 = ratings_ s1) by congruence.
  assert (Hbest : best_indices_ s3 = best_indices_ s1) by congruence.
  rewrite Hcur, Hrat, Hbest. split_and!; [done..|congruence].
Qed.

End Generations.

(** ** Reporting the best schedule *)

Section ReportingFacts.
Context `{Collaborators}.
Implicit Types (s : Scheduler) (t : Tape) (k : nat) (g : Grid).

Lemma DBL_MAX_pos : (0 < DBL_MAX)%Q.
Proof. done. Qed.

(** The reduction returns a largest rating and where it stands. *)
Lemma find_best_schedule_Done s :
  length (ratings_ s) = nschedules s →
  ∃ m, find_best_schedule s = Done m ∧
       (∀ x, x ∈ ratings_ s → (x <= val m)%Q) ∧
       ((val m = (- DBL_MAX)%Q ∧ loc m = UINT_MAX ∧
         ∀ x, x ∈ ratings_ s → (x <= - DBL_MAX)%Q) ∨
        (∃ i, loc m = N.of_nat i ∧ ratings_ s !! i = Some (val m) ∧
              (- DBL_MAX < val m)%Q)).
Proof.
  intros Hlen. unfold find_best_schedule.
  pose (I := λ n (m : maxloc_type),
          (∀ i x, i < n → ratings_ s !! i = Some x → (x <= val m)%Q) ∧
          ((val m = (- DBL_MAX)%Q ∧ loc m = UINT_MAX) ∨
           (∃ i, loc m = N.of_nat i ∧ ratings_ s !! i = Some (val m) ∧
                 (- DBL_MAX < val m)%Q))).
  destruct (for_loopR_total I 0 (nschedules s) (maxloc_step s)
              {| val := - DBL_MAX; loc := UINT_MAX |})
    as (m & Hloop & Hall & Hcase); [lia| |..].
  - split; [|by left]. intros i x Hi. lia.
  - intros i m Hi [Hall Hcase]. unfold maxloc_step.
    destruct (lookup_lt_is_Some_2 (ratings_ s) i) as [x Hx]; [lia|].
    rewrite Hx. destruct (Qltb (val m) x) eqn:Hlt.
    + apply Qltb_lt in Hlt. eexists. split; [done|]. split; simpl.
      * intros j y Hj Hy. destruct (decide (j = i)) as [->|Hne].
        { assert (y = x) as -> by congruence. apply Qle_refl. }
        eapply Qle_trans; [apply (Hall j)|]; [lia|done|].
        by apply Qlt_le_weak.
      * right. exists i. split_and!; [done..|].
        destruct Hcase as [[Hv _]|(j & _ & _ & Hj)].
        { by rewrite <- Hv. }
        by eapply Qlt_trans.
    + apply Qltb_ge in Hlt. exists m. split; [done|]. split; [|done].
      intros j y Hj Hy. destruct (decide (j = i)) as [->|Hne].
      { assert (y = x) as -> by congruence. done. }
      apply (Hall j); [lia|done].
  - exists m. split; [done|].
    assert (Hmax : ∀ x, x ∈ ratings_ s → (x <= val m)%Q).
    { intros x [i Hi]%list_elem_of_lookup. apply (Hall i); [|done].
      apply lookup_lt_Some in Hi. lia. }
    split; [done|]. destruct Hcase as [[Hv Hl]|Hcase]; [left|by right].
    split_and!; [done..|]. intros x Hx. rewrite <- Hv. by apply Hmax.
Qed.

(** X19. When some rating is above [-DBL_MAX], [get_best_schedule]
    returns the schedule at an index whose entry in [ratings_] is the largest
    one, and [print_best_schedule] prints that rating. *)
Theorem get_best_schedule_is_best s t k x :
  length (ratings_ s) = nschedules s →
  x ∈ ratings_ s → (- DBL_MAX < x)%Q →
  ∃ i g best,
    get_best_schedule s t k = Done (g, k) ∧
    print_best_schedule s = Done best ∧
    current_schedules_ s !! i = Some g ∧
    ratings_ s !! i = Some best ∧
    ∀ y, y ∈ ratings_ s → (y <= best)%Q.
Proof.
  intros Hlen Hx Hfinite.
  destruct (find_best_schedule_Done s Hlen) as (m & Hm & Hmax & Hcase).
  destruct Hcase as [(_ & _ & Hlow)|(i & Hloc & Hi & _)].
  { exfalso. eapply Qlt_not_le; [done|]. by apply Hlow. }
  destruct (lookup_lt_is_Some_2 (current_schedules_ s) i) as [g Hg].
  { apply lookup_lt_Some in Hi. unfold nschedules in Hlen. lia. }
  exists i, g, (val m). split_and!; [| |done..].
  - unfold get_best_schedule. rewrite Hm.
    rewrite (bind_step _ _ _ _ m k) by done. rewrite Hloc.
    by apply read_nat_Done.
  - unfold print_best_schedule. by rewrite Hm.
Qed.

(** X20. For the empty population the reduction stays at its identity:
    [print_best_schedule] prints [-DBL_MAX], and [get_best_schedule] and
    [record] (when there is a cell to write) read [current_schedules_] at
    [unsigned(-1)]. *)
Theorem best_schedule_of_empty_population s t k :
  nschedules s = 0 →
  print_best_schedule s = Done (- DBL_MAX)%Q ∧
  get_best_schedule s t k = Undefined ∧
  (0 < nslots → 0 < nrooms → record s t k = Undefined).
Proof.
  intros Hn.
  assert (Hbest : find_best_schedule s
                  = Done {| val := - DBL_MAX; loc := UINT_MAX |}).
  { unfold find_best_schedule. by rewrite Hn. }
  assert (Hread : ∀ k1, read (current_schedules_ s) UINT_MAX t k1 = Undefined).
  { intros k1. unfold nschedules in Hn. apply length_zero_iff_nil in Hn.
    by rewrite Hn. }
  split_and!.
  - unfold print_best_schedule. by rewrite Hbest.
  - unfold get_best_schedule. rewrite Hbest.
    rewrite (bind_step _ _ _ _ _ k) by done. apply Hread.
  - intros Hslots Hrooms. unfold record. rewrite Hbest.
    rewrite (bind_step _ _ _ _ _ k) by done. cbv zeta.
    apply for_loopT_undefined; [done|]. apply bind_Undefined.
    apply for_loopT_undefined; [done|]. apply bind_Undefined.
    apply Hread.
Qed.

(** *** The text of a report *)

Lemma rooms_loop_Done (entry : nat → nat → Line) (l : list Grid) (sc : N) g
    slot (out : list Line) t k :
  (sc < N.of_nat (length l))%N → l !! N.to_nat sc = Some g →
  for_loopM 0 nrooms (λ room (out : list Line),
      h ← read l sc ;
      let mid := at2 h slot room in
      if mid <? mini_size then mret (out ++ [entry mid room]) else mret out)
    out t k
  = Done (out ++ slot_rows entry g slot, k).
Proof.
  intros Hsc Hg. unfold slot_rows.
  assert (Hread : ∀ k1, read l sc t k1 = Done (g, k1)).
  { intros k1. by apply read_Done. }
  induction nrooms as [|n IH].
  - rewrite for_loopM_empty by lia. simpl. by rewrite app_nil_r.
  - rewrite for_loopM_last by lia. rewrite (bind_step _ _ _ _ _ _ IH).
    rewrite (bind_step _ _ _ _ _ _ (Hread k)).
    replace (seq 0 (S n)) with (seq 0 n ++ [n]) by by rewrite seq_S.
    rewrite omap_app. cbn [omap list_omap]. cbn beta zeta.
    destruct (at2 g slot n <? mini_size).
    + by rewrite app_assoc.
    + by rewrite app_nil_r.
Qed.

Lemma sessions_app out1 out2 :
  sessions (out1 ++ out2) = sessions out1 ++ sessions out2.
Proof. apply omap_app. Qed.

Lemma slot_headers_app out1 out2 :
  slot_headers (out1 ++ out2) = slot_headers out1 ++ slot_headers out2.
Proof. apply omap_app. Qed.

Lemma sessions_slot_rows entry g slot :
  (∀ mid room, session_of (entry mid room) = Some mid) →
  sessions (slot_rows entry g slot)
  = filter (λ x, x < mini_size) (slot_of g slot).
Proof.
  intros Hentry. unfold slot_rows, slot_of, sessions, omap.
  induction (seq 0 nrooms) as [|room l IH]; [done|]. simpl.
  rewrite filter_cons.
  destruct (Nat.ltb_spec (at2 g slot room) mini_size) as [Hlt|Hge].
  - rewrite decide_True by done. simpl. by rewrite Hentry, IH.
  - rewrite decide_False by lia. done.
Qed.

Lemma slot_headers_slot_rows entry g slot :
  (∀ mid room, slot_of_header (entry mid room) = None) →
  slot_headers (slot_rows entry g slot) = [].
Proof.
  intros Hentry. unfold slot_rows, slot_headers, omap.
  induction (seq 0 nrooms) as [|room l IH]; [done|]. simpl.
  destruct (at2 g slot room <? mini_size); [|done].
  simpl. by rewrite Hentry.
Qed.

(** The sessions of a permutation schedule, timeslot by timeslot. *)
Lemma filter_all {A} (P : A → Prop) `{∀ x, Decision (P x)} (l : list A) :
  Forall P l → filter P l = l.
Proof.
  induction 1 as [|x l Hx Hl IH]; [done|].
  by rewrite filter_cons, decide_True, IH.
Qed.

Lemma filter_none {A} (P : A → Prop) `{∀ x, Decision (P x)} (l : list A) :
  Forall (λ x, ¬ P x) l → filter P l = [].
Proof.
  induction 1 as [|x l Hx Hl IH]; [done|].
  by rewrite filter_cons, decide_False, IH.
Qed.

Lemma filter_seq_lt m n :
  filter (λ x, x < m) (seq 0 n) = seq 0 (m `min` n).
Proof.
  replace n with (m `min` n + (n - m `min` n)) at 1 by lia.
  rewrite seq_app, filter_app. simpl.
  assert (Hin : filter (λ x, x < m) (seq 0 (m `min` n)) = seq 0 (m `min` n)).
  { apply filter_all, Forall_forall. intros x Hx%elem_of_seq. lia. }
  assert (Hout : filter (λ x, x < m) (seq (m `min` n) (n - m `min` n)) = []).
  { apply filter_none, Forall_forall. intros x Hx%elem_of_seq. lia. }
  by rewrite Hin, Hout, app_nil_r.
Qed.

Lemma filter_concat {A} (P : A → Prop) `{∀ x, Decision (P x)}
    (ls : list (list A)) :
  filter P (concat ls) = concat (map (filter P) ls).
Proof.
  induction ls as [|l ls IH]; [done|]. simpl. by rewrite filter_app, IH.
Qed.

Lemma concat_slots g :
  shape nslots nrooms g → concat (map (slot_of g) (seq 0 nslots)) = concat g.
Proof.
  intros Hsh. rewrite (grid_tabulate _ _ _ Hsh) at 2. done.
Qed.

(** Timeslot by timeslot, the sessions of a permutation schedule are the
    sessions of the conference, each once. *)
Lemma perm_grid_sessions g :
  perm_grid g →
  concat (map (λ slot, filter (λ x, x < mini_size) (slot_of g slot))
              (seq 0 nslots))
  ≡ₚ seq 0 (mini_size `min` (nslots * nrooms)).
Proof.
  intros [Hsh Hperm].
  rewrite <- (filter_seq_lt mini_size (nslots * nrooms)).
  rewrite <- Hperm, <- (concat_slots g Hsh), filter_concat.
  by rewrite <- list_fmap_compose.
Qed.

Lemma sessions_concat (outs : list (list Line)) :
  sessions (concat outs) = concat (map sessions outs).
Proof.
  induction outs as [|out outs IH]; [done|].
  simpl. by rewrite sessions_app, IH.
Qed.

Lemma slot_headers_concat (outs : list (list Line)) :
  slot_headers (concat outs) = concat (map slot_headers outs).
Proof.
  induction outs as [|out outs IH]; [done|].
  simpl. by rewrite slot_headers_app, IH.
Qed.



Lemma print_slots_Done (l : list Grid) (sc : N) g n (out0 : list Line) t k :
  (sc < N.of_nat (length l))%N → l !! N.to_nat sc = Some g →
  for_loopM 0 n (λ slot (cout : list Line),
      let cout := cout ++ [SlotLine slot] in
      for_loopM 0 nrooms (λ room (cout : list Line),
        h_current_schedules ← read l sc ;
        let mid := at2 h_current_schedules slot room in
        if mid <? mini_size
        then mret (cout ++ [SessionLine mid])
        else mret cout) cout) out0 t k
  = Done (out0 ++
          concat (map (λ slot, [SlotLine slot]
                               ++ slot_rows (λ mid _, SessionLine mid) g slot)
                      (seq 0 n)), k).
Proof.
  intros Hsc Hg. induction n as [|n IH].
  - rewrite for_loopM_empty by lia. simpl. by rewrite app_nil_r.
  - rewrite for_loopM_last by lia. rewrite (bind_step _ _ _ _ _ _ IH).
    refine (eq_trans
              (rooms_loop_Done (λ mid _, SessionLine mid) l sc g n _ t k Hsc Hg)
              _).
    replace (seq 0 (S n)) with (seq 0 n ++ [n]) by by rewrite seq_S.
    rewrite map_app, concat_app. simpl.
    by rewrite app_nil_r, <- !app_assoc.
Qed.

Lemma print_schedule_Done s i g t k :
  current_schedules_ s !! i = Some g →
  print_schedule (N.of_nat i) s t k
  = Done (concat (map (λ slot, [SlotLine slot]
                               ++ slot_rows (λ mid _, SessionLine mid) g slot)
                      (seq 0 nslots)), k).
Proof.
  intros Hg. unfold print_schedule.
  apply (print_slots_Done _ _ g _ []).
  - apply lookup_lt_Some in Hg. lia.
  - by rewrite Nat2N.id.
Qed.

Lemma slot_headers_blocks (head : nat → Line) (body : nat → list Line)
    (l : list nat) :
  (∀ slot, slot_of_header (head slot) = Some slot) →
  (∀ slot, slot_headers (body slot) = []) →
  slot_headers (concat (map (λ slot, [head slot] ++ body slot) l)) = l.
Proof.
  intros Hhead Hbody. induction l as [|slot l IH]; [done|].
  change (slot_headers
            (([head slot] ++ body slot) ++
             concat (map (λ slot, [head slot] ++ body slot) l)) = slot :: l).
  rewrite !slot_headers_app, Hbody, IH. unfold slot_headers. simpl.
  by rewrite Hhead.
Qed.

Lemma sessions_blocks (head : nat → Line) (body : nat → list Line)
    (l : list nat) :
  (∀ slot, session_of (head slot) = None) →
  sessions (concat (map (λ slot, [head slot] ++ body slot) l))
  = concat (map (λ slot, sessions (body slot)) l).
Proof.
  intros Hhead. induction l as [|slot l IH]; [done|].
  change (sessions
            (([head slot] ++ body slot) ++
             concat (map (λ slot, [head slot] ++ body slot) l))
          = sessions (body slot) ++
            concat (map (λ slot, sessions (body slot)) l)).
  rewrite !sessions_app, IH. unfold sessions at 1. simpl.
  by rewrite Hhead.
Qed.




(** X22. For a permutation schedule, [print_schedule] announces the
    timeslots in order and lists every session of the conference that fits
    the schedule exactly once. *)
Theorem print_schedule_lists_every_session_once s sc g t k :
  current_schedules_ s !! sc = Some g → perm_grid g →
  ∃ out,
    print_schedule (N.of_nat sc) s t k = Done (out, k) ∧
    slot_headers out = seq 0 nslots ∧
    sessions out ≡ₚ seq 0 (mini_size `min` (nslots * nrooms)).
Proof.
  intros Hg Hperm. eexists. split; [by apply print_schedule_Done|].
  split.
  - apply (slot_headers_blocks SlotLine); [done|].
    intros slot. by apply slot_headers_slot_rows.
  - rewrite (sessions_blocks SlotLine) by done.
    etrans; [|by apply perm_grid_sessions].
    erewrite map_ext; [done|]. intros slot. by apply sessions_slot_rows.
Qed.

End ReportingFacts.

(** ** The rating of [Mapper.hpp] *)

Module MapperFacts.
Import Mapper.

Section Blocks.
Context {St : Type}.
Implicit Types (body : nat → St → Res St) (s : St).

Lemma blocks_next ahead lo hi :
  lo + ahead < hi →
  (hi - (lo + ahead) + 4) / 5 = S ((hi - (lo + 5 + ahead) + 4) / 5).
Proof.
  intros Hlt.
  replace (hi - (lo + ahead) + 4) with (hi - (lo + ahead) - 1 + 1 * 5) by lia.
  rewrite Nat.div_add by lia.
  destruct (decide (hi - (lo + ahead) < 5)) as [Hsmall|Hbig].
  - replace (hi - (lo + 5 + ahead)) with 0 by lia.
    rewrite (Nat.div_small (hi - (lo + ahead) - 1)) by lia. done.
  - replace (hi - (lo + 5 + ahead) + 4) with (hi - (lo + ahead) - 1) by lia.
    lia.
Qed.

Lemma blocks_none ahead lo hi :
  ¬ lo + ahead < hi → (hi - (lo + ahead) + 4) / 5 = 0.
Proof. intros Hge. replace (hi - (lo + ahead)) with 0 by lia. done. Qed.

(** Invariant rule for the strided loop, with the number of the block. *)
Lemma for_blocks_total (I : nat → St → Prop) fuel ahead lo hi body s :
  hi ≤ lo + ahead + 5 * fuel → I 0 s →
  (∀ b s, lo + 5 * b + ahead < hi → I b s →
          ∃ s', body (lo + 5 * b) s = Done s' ∧ I (S b) s') →
  ∃ s', for_blocks fuel ahead lo hi body s = Done s' ∧
        I ((hi - (lo + ahead) + 4) / 5) s'.
Proof.
  revert I lo s. induction fuel as [|fuel IH]; intros I lo s Hfuel Hs Hstep.
  - rewrite blocks_none by lia. simpl.
    destruct (Nat.ltb_spec (lo + ahead) hi) as [Hlt|Hge]; [lia|].
    by exists s.
  - destruct (decide (lo + ahead < hi)) as [Hlt|Hge].
    + rewrite blocks_next by done. simpl.
      destruct (Nat.ltb_spec (lo + ahead) hi) as [_|?]; [|lia].
      destruct (Hstep 0 s) as (s1 & Hbody & Hs1); [lia|done|].
      replace (lo + 5 * 0) with lo in Hbody by lia. rewrite Hbody. simpl.
      apply (IH (λ b, I (S b))); [lia|done|].
      intros b s2 Hb Hs2. destruct (Hstep (S b) s2) as (s3 & Hbody3 & Hs3);
        [lia|done|].
      exists s3. split; [|done]. rewrite <- Hbody3. f_equal. lia.
    + rewrite blocks_none by lia. simpl.
      destruct (Nat.ltb_spec (lo + ahead) hi) as [?|_]; [lia|].
      by exists s.
Qed.

Lemma for_blocks_ext (P : nat → Prop) fuel ahead lo hi body body' s :
  P lo → (∀ i, P i → P (i + 5)) →
  (∀ i s, P i → i + ahead < hi → body i s = body' i s) →
  for_blocks fuel ahead lo hi body s = for_blocks fuel ahead lo hi body' s.
Proof.
  intros Hlo Hnext Hext. revert lo s Hlo.
  induction fuel as [|fuel IH]; intros lo s Hlo; [done|]. simpl.
  destruct (Nat.ltb_spec (lo + ahead) hi) as [Hlt|Hge]; [|done].
  rewrite (Hext lo s) by done.
  destruct (body' lo s) as [s1| |]; simpl; [|done..].
  apply IH. by apply Hnext.
Qed.

End Blocks.

Section LoopsResMore.
Context {St : Type}.
Implicit Types (body : nat → St → Res St) (s : St).

Lemma Res_bind_Done {A B} (a : A) (f : A → Res B) : (Done a ≫= f) = f a.
Proof. done. Qed.

Lemma Res_bind_Undefined {A B} (m : Res A) (f : A → Res B) :
  m = Undefined → (m ≫= f) = Undefined.
Proof. by intros ->. Qed.

Lemma for_loopR_ext lo hi body body' s :
  (∀ i s, lo ≤ i < hi → body i s = body' i s) →
  for_loopM lo hi body s = for_loopM lo hi body' s.
Proof.
  intros Hext. induction hi as [|hi IH].
  - by rewrite !for_loopM_empty by lia.
  - destruct (decide (lo ≤ hi)) as [Hle|Hgt].
    + rewrite !for_loopM_last by done. rewrite IH.
      * destruct (for_loopM lo hi body' s) as [s1| |]; simpl; [|done..].
        apply Hext. lia.
      * intros i s1 Hi. apply Hext. lia.
    + by rewrite !for_loopM_empty by lia.
Qed.

Lemma for_loopR_undefined lo m hi body s s1 :
  lo ≤ m → m < hi → for_loopM lo m body s = Done s1 →
  body m s1 = Undefined → for_loopM lo hi body s = Undefined.
Proof.
  intros Hlo Hhi Hpre Hbody. induction hi as [|hi IH]; [lia|].
  rewrite for_loopM_last by lia.
  destruct (decide (m = hi)) as [->|Hne].
  - by rewrite Hpre.
  - by rewrite IH by lia.
Qed.

End LoopsResMore.

Section Fullness.
Context `{Conference}.
Implicit Types (mapping : list nat).

Lemma gene_Done mapping i :
  i < length mapping →
  ∃ lid, gene mapping i = Done lid ∧ mapping !! i = Some lid.
Proof.
  intros Hi. destruct (lookup_lt_is_Some_2 mapping i Hi) as [lid Hlid].
  exists lid. unfold gene. by rewrite Hlid.
Qed.

Lemma blocks_count mapping :
  (length mapping - (minisymposia_size + 4) + 4) / 5 = nblocks mapping.
Proof.
  unfold nblocks.
  destruct (decide (minisymposia_size + 4 ≤ length mapping)) as [Hle|Hgt].
  - f_equal. lia.
  - replace (length mapping - (minisymposia_size + 4)) with 0 by lia.
    rewrite (Nat.div_small (length mapping - minisymposia_size)) by lia.
    done.
Qed.

Lemma block_in_range mapping b :
  minisymposia_size + 5 * b + 4 < length mapping → b < nblocks mapping.
Proof.
  intros Hb. unfold nblocks. apply Nat.div_le_lower_bound; lia.
Qed.

Lemma sum_list_snoc (f : nat → nat) (l : list nat) x :
  sum_list_with f (l ++ [x]) = sum_list_with f l + f x.
Proof. rewrite sum_list_with_app. simpl. lia. Qed.

Lemma seq_snoc n : seq 0 (S n) = seq 0 n ++ [n].
Proof. by rewrite seq_S. Qed.

Lemma block_count_le mapping b : block_count mapping b ≤ 5.
Proof.
  unfold block_count. etrans; [apply length_filter|]. by rewrite length_seq.
Qed.

(** The lectures of a block, as the loop over its five genes counts
    them. *)
Lemma count_block_Done mapping b :
  minisymposia_size + 5 * b + 4 < length mapping →
  for_loopM 0 5 (λ j nlectures_in_mini,
      lid ← gene mapping (minisymposia_size + 5 * b + j) ;
      if lid <? lectures_size then mret (nlectures_in_mini + 1)
      else mret nlectures_in_mini) 0
  = Done (block_count mapping b).
Proof.
  intros Hb.
  destruct (for_loopR_total
              (λ j n, n = length
                 (filter (λ j, filled mapping (minisymposia_size + 5 * b + j)
                               = true) (seq 0 j)))
              0 5
              (λ j nlectures_in_mini,
                 lid ← gene mapping (minisymposia_size + 5 * b + j) ;
                 if lid <? lectures_size then mret (nlectures_in_mini + 1)
                 else mret nlectures_in_mini) 0)
    as (n & Hloop & ->); [lia|done| |done].
  intros j n Hj ->.
  destruct (gene_Done mapping (minisymposia_size + 5 * b + j)) as (lid & Hg & Hl);
    [lia|].
  assert (Hf : filled mapping (minisymposia_size + 5 * b + j)
               = (lid <? lectures_size)).
  { unfold filled. by rewrite Hl. }
  rewrite seq_snoc, filter_app, length_app.
  rewrite filter_cons, filter_nil, Hf, Hg.
  cbv beta iota delta [mbind Res_bind].
  destruct (lid <? lectures_size) eqn:Hlid.
  - eexists. split; [done|]. by rewrite decide_True.
  - eexists. split; [done|]. rewrite decide_False by done. simpl. lia.
Qed.

Lemma fullness_first_le mapping n :
  16 * n ≤ sum_list_with (λ i, if filled mapping i then 25 else 16) (seq 0 n)
  ∧ sum_list_with (λ i, if filled mapping i then 25 else 16) (seq 0 n)
    ≤ 25 * n.
Proof.
  induction n as [|n IH]; [simpl; lia|].
  rewrite seq_snoc, sum_list_snoc.
  destruct (filled mapping n); lia.
Qed.

Lemma fullness_blocks_le mapping n :
  sum_list_with (λ b, block_count mapping b ^ 2) (seq 0 n) ≤ 25 * n.
Proof.
  induction n as [|n IH]; [simpl; lia|].
  rewrite seq_snoc, sum_list_snoc.
  pose proof (block_count_le mapping n) as Hle.
  assert (block_count mapping n ^ 2 ≤ 25); [|lia].
  change 25 with (5 ^ 2). apply Nat.pow_le_mono_l. done.
Qed.

Lemma count_full_minisymposia_Done mapping :
  minisymposia_size ≤ length mapping →
  (25 * N.of_nat (minisymposia_size + nblocks mapping) < 2 ^ 32)%N →
  count_full_minisymposia mapping = Done (N.of_nat (fullness mapping)).
Proof.
  intros Hlen Hfit. unfold count_full_minisymposia, fullness.
  set (first := λ n, sum_list_with (λ i, if filled mapping i then 25 else 16)
                                   (seq 0 n)).
  set (blocks := λ n, sum_list_with (λ b, block_count mapping b ^ 2)
                                    (seq 0 n)).
  destruct (for_loopR_total
              (λ i score, score = N.of_nat (first i))
              0 minisymposia_size
              (λ i score,
                 lid ← gene mapping i ;
                 if lid <? lectures_size then mret (uadd score 25)
                 else mret (uadd score 16)) 0%N)
    as (score & Hloop & ->); [lia|done| |].
  { intros i score Hi ->.
    destruct (gene_Done mapping i) as (lid & Hg & Hl); [lia|].
    assert (Hf : filled mapping i = (lid <? lectures_size)).
    { unfold filled. by rewrite Hl. }
    unfold first. rewrite seq_snoc, sum_list_snoc.
    fold (first i). rewrite Hf, Hg.
    cbv beta iota delta [mbind Res_bind].
    pose proof (fullness_first_le mapping i) as [_ Hle]. fold (first i) in Hle.
    assert (Hmod : ∀ x, x ≤ 25 →
              uadd (N.of_nat (first i)) (N.of_nat x) = N.of_nat (first i + x)).
    { intros x Hx. unfold uadd. rewrite <- Nat2N.inj_add.
      apply N.mod_small. lia. }
    destruct (lid <? lectures_size); eexists; (split; [done|]).
    - by rewrite <- (Hmod 25).
    - by rewrite <- (Hmod 16) by lia. }
  rewrite Hloop.
  destruct (for_blocks_total
              (λ b score, score = N.of_nat (first minisymposia_size + blocks b))
              (length mapping) 4 minisymposia_size (length mapping)
              (λ i score,
                 nlectures_in_mini ← for_loopM 0 5 (λ j nlectures_in_mini,
                     lid ← gene mapping (i + j) ;
                     if lid <? lectures_size then mret (nlectures_in_mini + 1)
                     else mret nlectures_in_mini) 0 ;
                 add_double score (N.of_nat (nlectures_in_mini ^ 2)))
              (N.of_nat (first minisymposia_size)))
    as (score & Hblocks & ->); [lia|f_equal; unfold blocks; simpl; lia| |].
  { intros b score Hb ->. rewrite count_block_Done by done.
    cbv beta iota delta [mbind Res_bind].
    pose proof (block_in_range mapping b Hb) as Hrange.
    pose proof (fullness_first_le mapping minisymposia_size) as [_ Hle1].
    pose proof (fullness_blocks_le mapping (S b)) as Hle2.
    fold (first minisymposia_size) in Hle1. fold (blocks (S b)) in Hle2.
    assert (Hsnoc : blocks (S b) = blocks b + block_count mapping b ^ 2).
    { unfold blocks. by rewrite seq_snoc, sum_list_snoc. }
    exists (N.of_nat (first minisymposia_size + blocks (S b))).
    split; [|done]. unfold add_double.
    rewrite Hsnoc in Hle2 |- *.
    generalize dependent (block_count mapping b ^ 2). intros sq Hle2 _.
    destruct (N.ltb_spec (N.of_nat (first minisymposia_size + blocks b) +
                          N.of_nat sq) (2 ^ 32)) as [_|Hge].
    - f_equal. lia.
    - change (2 ^ 32)%N with 4294967296%N in *. lia. }
  refine (eq_trans Hblocks _). by rewrite blocks_count.
Qed.

Lemma fullness_first_full mapping n :
  sum_list_with (λ i, if filled mapping i then 25 else 16) (seq 0 n) = 25 * n
  ↔ ∀ i, i < n → filled mapping i = true.
Proof.
  induction n as [|n IH]; [split; [intros _ i ?; lia|done]|].
  rewrite seq_snoc, sum_list_snoc.
  pose proof (fullness_first_le mapping n) as [_ Hle].
  split.
  - intros Hsum i Hi. destruct (filled mapping n) eqn:Hn; [|lia].
    destruct (decide (i = n)) as [->|Hne]; [done|].
    apply IH; lia.
  - intros Hall. rewrite (Hall n) by lia.
    rewrite (proj2 IH); [lia|]. intros i Hi. apply Hall. lia.
Qed.

Lemma filter_length_all {A} (P : A → Prop) `{∀ x, Decision (P x)}
    (l : list A) :
  length (filter P l) = length l ↔ Forall P l.
Proof.
  induction l as [|x l IH]; [done|]. rewrite filter_cons.
  pose proof (length_filter P l) as Hle.
  destruct (decide (P x)) as [Hx|Hx]; simpl.
  - rewrite Forall_cons. split.
    + intros Hlen. split; [done|]. apply IH. lia.
    + intros [_ Hall]. f_equal. by apply IH.
  - split; [lia|]. by intros [? _]%Forall_cons.
Qed.

Lemma block_count_full mapping b :
  block_count mapping b ^ 2 = 25
  ↔ ∀ j, j < 5 → filled mapping (minisymposia_size + 5 * b + j) = true.
Proof.
  pose proof (block_count_le mapping b) as Hle.
  assert (Hfive : block_count mapping b = 5 ↔
            ∀ j, j < 5 → filled mapping (minisymposia_size + 5 * b + j) = true).
  { unfold block_count.
    pose proof (filter_length_all
                  (λ j, filled mapping (minisymposia_size + 5 * b + j) = true)
                  (seq 0 5)) as Hall.
    rewrite length_seq, Forall_forall in Hall. rewrite Hall. split.
    - intros Hin j Hj. apply Hin, elem_of_seq. lia.
    - intros Hin j Hj%elem_of_seq. apply Hin. lia. }
  rewrite <- Hfive. split; [|by intros ->].
  intros Hsq. destruct (decide (block_count mapping b = 5)) as [|Hne]; [done|].
  assert (Hfour : block_count mapping b ^ 2 ≤ 4 ^ 2)
    by (apply Nat.pow_le_mono_l; lia).
  change (4 ^ 2) with 16 in Hfour. rewrite Hsq in Hfour. lia.
Qed.

Lemma fullness_blocks_full mapping n :
  sum_list_with (λ b, block_count mapping b ^ 2) (seq 0 n) = 25 * n
  ↔ ∀ b j, b < n → j < 5 →
           filled mapping (minisymposia_size + 5 * b + j) = true.
Proof.
  induction n as [|n IH]; [split; [intros _ b j ?; lia|done]|].
  rewrite seq_snoc, sum_list_snoc.
  pose proof (fullness_blocks_le mapping n) as Hle.
  pose proof (block_count_le mapping n) as Hc.
  assert (Hsq : block_count mapping n ^ 2 ≤ 5 ^ 2)
    by by apply Nat.pow_le_mono_l.
  change (5 ^ 2) with 25 in Hsq.
  split.
  - intros Hsum b j Hb Hj. destruct (decide (b = n)) as [->|Hne].
    + apply block_count_full; lia.
    + apply IH; lia.
  - intros Hall.
    rewrite (proj2 (block_count_full mapping n))
      by (intros j Hj; apply Hall; lia).
    rewrite (proj2 IH); [lia|]. intros b j Hb Hj. apply Hall; lia.
Qed.

(** X23. For a mapping that covers the sessions (and a score that fits an
    [unsigned]), [count_full_minisymposia] returns a score between 16 per
    session and 25 per session and whole block, and the upper bound is met
    exactly when every rated gene holds a lecture. *)
Theorem fullness_score_bounds mapping :
  minisymposia_size ≤ length mapping →
  (25 * N.of_nat (minisymposia_size + nblocks mapping) < 2 ^ 32)%N →
  ∃ score,
    count_full_minisymposia mapping = Done score ∧
    (16 * N.of_nat minisymposia_size <= score)%N ∧
    (score <= 25 * N.of_nat (minisymposia_size + nblocks mapping))%N ∧
    (score = (25 * N.of_nat (minisymposia_size + nblocks mapping))%N
     ↔ ∀ i, i < rated_genes mapping → filled mapping i = true).
Proof.
  intros Hlen Hfit. exists (N.of_nat (fullness mapping)).
  split; [by apply count_full_minisymposia_Done|]. unfold fullness.
  pose proof (fullness_first_le mapping minisymposia_size) as [Hlo Hhi].
  pose proof (fullness_blocks_le mapping (nblocks mapping)) as Hb.
  pose proof (fullness_first_full mapping minisymposia_size) as Hfirst.
  pose proof (fullness_blocks_full mapping (nblocks mapping)) as Hblocks.
  split_and!; [lia..|]. unfold rated_genes. split.
  - intros Hmax i Hi.
    destruct (decide (i < minisymposia_size)) as [Hlt|Hge].
    + apply Hfirst; [lia|done].
    + pose proof (Nat.div_mod_eq (i - minisymposia_size) 5) as Hdiv.
      pose proof (Nat.mod_upper_bound (i - minisymposia_size) 5) as Hmod.
      replace i with (minisymposia_size + 5 * ((i - minisymposia_size) / 5)
                      + (i - minisymposia_size) mod 5) by lia.
      apply Hblocks; [lia| |lia].
      apply Nat.Div0.div_lt_upper_bound; lia.
  - intros Hall.
    rewrite (proj2 Hfirst), (proj2 Hblocks); [lia| |].
    + intros b j Hb' Hj. apply Hall. lia.
    + intros i Hi. apply Hall. lia.
Qed.

End Fullness.

Section Rating.
Context `{Conference}.
Implicit Types (mapping : list nat).

Lemma gene_ext mapping mapping' i :
  mapping !! i = mapping' !! i → gene mapping i = gene mapping' i.
Proof. unfold gene. by intros ->. Qed.

(** X24. The genes of an incomplete last block do not enter the rating:
    two mappings of the same extent that agree on the sessions and the whole
    blocks have the same scores. *)
Theorem rate_ignores_incomplete_block mapping mapping' :
  length mapping = length mapping' →
  (∀ i, i < rated_genes mapping → mapping !! i = mapping' !! i) →
  count_full_minisymposia mapping = count_full_minisymposia mapping' ∧
  topic_cohesion_score mapping = topic_cohesion_score mapping' ∧
  rate mapping = rate mapping'.
Proof.
  intros Hlen Hagree.
  assert (Hfirst : ∀ i, i < minisymposia_size →
                        gene mapping i = gene mapping' i).
  { intros i Hi. apply gene_ext, Hagree. unfold rated_genes. lia. }
  assert (Hblock : ∀ i j, (∃ b, i = minisymposia_size + 5 * b) →
                          i + 4 < length mapping → j < 5 →
                          gene mapping (i + j) = gene mapping' (i + j)).
  { intros i j [b ->] Hi Hj. apply gene_ext, Hagree.
    pose proof (block_in_range mapping b Hi). unfold rated_genes. lia. }
  assert (Hnext : ∀ i, (∃ b, i = minisymposia_size + 5 * b) →
                       ∃ b, i + 5 = minisymposia_size + 5 * b).
  { intros i [b ->]. exists (S b). lia. }
  assert (Hstart : ∃ b, minisymposia_size = minisymposia_size + 5 * b)
    by (exists 0; lia).
  assert (Hcount : count_full_minisymposia mapping
                   = count_full_minisymposia mapping').
  { unfold count_full_minisymposia. rewrite <- Hlen.
    erewrite for_loopR_ext; [|intros i score Hi; by rewrite Hfirst by lia].
    destruct (for_loopM _ _ _ _) as [score| |]; [|done..]. simpl.
    apply (for_blocks_ext (λ i, ∃ b, i = minisymposia_size + 5 * b));
      [done|done|].
    intros i score0 Hi Hlt.
    erewrite for_loopR_ext; [done|].
    intros j n Hj. simpl. by rewrite Hblock by (done || lia). }
  assert (Htopic : topic_cohesion_score mapping
                   = topic_cohesion_score mapping').
  { unfold topic_cohesion_score. rewrite <- Hlen.
    erewrite for_loopR_ext; [|intros i score Hi; by rewrite Hfirst by lia].
    destruct (for_loopM _ _ _ _) as [score| |]; [|done..]. simpl.
    apply (for_blocks_ext (λ i, ∃ b, i = minisymposia_size + 5 * b));
      [done|done|].
    intros i score0 Hi Hlt.
    apply for_loopR_ext. intros j score1 Hj.
    rewrite Hblock by (done || lia).
    destruct (gene mapping' (i + j)) as [lid_j| |]; [|done..]. simpl.
    destruct (lectures_size <=? lid_j); [done|].
    apply for_loopR_ext. intros k score2 Hk.
    by rewrite Hblock by (done || lia). }
  split_and!; [done..|]. unfold rate. by rewrite Hcount, Htopic.
Qed.

(** X25. A mapping with fewer genes than sessions is read outside its
    extent by both scores. *)
Theorem rate_of_short_mapping_is_undefined mapping :
  length mapping < minisymposia_size →
  count_full_minisymposia mapping = Undefined ∧
  topic_cohesion_score mapping = Undefined ∧
  rate mapping = Undefined.
Proof.
  intros Hshort.
  assert (Hnone : gene mapping (length mapping) = Undefined).
  { unfold gene. by rewrite lookup_ge_None_2. }
  assert (Hcount : count_full_minisymposia mapping = Undefined).
  { unfold count_full_minisymposia.
    destruct (for_loopR_total (λ _ _, True) 0 (length mapping)
                (λ i score,
                   lid ← gene mapping i ;
                   if lid <? lectures_size then mret (uadd score 25)
                   else mret (uadd score 16)) 0%N)
      as (score & Hpre & _); [lia|done| |].
    { intros i score Hi _.
      destruct (gene_Done mapping i) as (lid & -> & _); [lia|]. simpl.
      destruct (lid <? lectures_size); by eexists. }
    erewrite (for_loopR_undefined 0 (length mapping)); [done|lia|done|done|].
    by rewrite Hnone. }
  assert (Htopic : topic_cohesion_score mapping = Undefined).
  { unfold topic_cohesion_score.
    destruct (for_loopR_total (λ _ _, True) 0 (length mapping)
                (λ i score,
                   lid ← gene mapping i ;
                   if lid <? lectures_size
                   then mret (score + mini_cohesion i lid)%Q
                   else mret score) 0%Q)
      as (score & Hpre & _); [lia|done| |].
    { intros i score Hi _.
      destruct (gene_Done mapping i) as (lid & -> & _); [lia|]. simpl.
      destruct (lid <? lectures_size); by eexists. }
    erewrite (for_loopR_undefined 0 (length mapping)); [done|lia|done|done|].
    by rewrite Hnone. }
  split_and!; [done..|]. unfold rate. by rewrite Hcount.
Qed.

Lemma rate_returns mapping :
  minisymposia_size ≤ length mapping →
  (25 * N.of_nat (minisymposia_size + nblocks mapping) < 2 ^ 32)%N →
  ∃ cohesion,
    topic_cohesion_score mapping = Done cohesion ∧
    rate mapping
    = Done (1 * inject_Z (Z.of_N (N.of_nat (fullness mapping)))
            + 5 * cohesion)%Q.
Proof.
  intros Hlen Hfit.
  assert (Htopic : ∃ cohesion, topic_cohesion_score mapping = Done cohesion).
  { unfold topic_cohesion_score. cbv zeta.
    destruct (for_loopR_total (λ _ _, True) 0 minisymposia_size
                (λ i score,
                   lid ← gene mapping i ;
                   if lid <? lectures_size
                   then mret (score + mini_cohesion i lid)%Q
                   else mret score) 0%Q)
      as (score & Hfirst & _); [lia|done| |].
    { intros i score Hi _.
      destruct (gene_Done mapping i) as (lid & -> & _); [lia|]. simpl.
      destruct (lid <? lectures_size); by eexists. }
    rewrite Hfirst, Res_bind_Done.
    destruct (for_blocks_total (λ _ _, True) (length mapping) 4
                minisymposia_size (length mapping)
                (λ i score,
                   for_loopM 0 5 (λ j score,
                     lid_j ← gene mapping (i + j) ;
                     if lectures_size <=? lid_j then mret score
                     else for_loopM (j + 1) 5 (λ k score,
                            lid_k ← gene mapping (i + k) ;
                            if lid_k <? lectures_size
                            then mret (score + pair_cohesion lid_j lid_k / 12)%Q
                            else mret score) score) score) score)
      as (cohesion & Hblocks & _); [lia|done| |by exists cohesion].
    intros b score0 Hb _.
    destruct (for_loopR_total (λ _ _, True) 0 5
                (λ j score,
                   lid_j ← gene mapping (minisymposia_size + 5 * b + j) ;
                   if lectures_size <=? lid_j then mret score
                   else for_loopM (j + 1) 5 (λ k score,
                          lid_k ← gene mapping (minisymposia_size + 5 * b + k) ;
                          if lid_k <? lectures_size
                          then mret (score + pair_cohesion lid_j lid_k / 12)%Q
                          else mret score) score) score0)
      as (score1 & Hloop & _); [lia|done| |by exists score1].
    intros j score1 Hj _.
    destruct (gene_Done mapping (minisymposia_size + 5 * b + j))
      as (lid_j & -> & _); [lia|]. rewrite Res_bind_Done.
    destruct (lectures_size <=? lid_j); [by eexists|].
    destruct (for_loopR_total (λ _ _, True) (j + 1) 5
                (λ k score,
                   lid_k ← gene mapping (minisymposia_size + 5 * b + k) ;
                   if lid_k <? lectures_size
                   then mret (score + pair_cohesion lid_j lid_k / 12)%Q
                   else mret score) score1)
      as (score2 & Hinner & _); [lia|done| |by exists score2].
    intros k score2 Hk _.
    destruct (gene_Done mapping (minisymposia_size + 5 * b + k))
      as (lid_k & -> & _); [lia|]. rewrite Res_bind_Done.
    destruct (lid_k <? lectures_size); by eexists. }
  destruct Htopic as [cohesion Htopic]. exists cohesion. split; [done|].
  unfold rate. rewrite count_full_minisymposia_Done by done.
  cbv zeta. by rewrite Res_bind_Done, Htopic.
Qed.

End Rating.

Section BlocksMore.
Context {St : Type}.
Implicit Types (body : nat → St → Res St) (s : St).

Lemma for_blocks_undefined (I : nat → St → Prop) fuel ahead lo hi body s nb :
  lo + 5 * nb + ahead < hi → nb < fuel → I 0 s →
  (∀ b s, b < nb → I b s →
          ∃ s', body (lo + 5 * b) s = Done s' ∧ I (S b) s') →
  (∀ s, I nb s → body (lo + 5 * nb) s = Undefined) →
  for_blocks fuel ahead lo hi body s = Undefined.
Proof.
  revert I fuel lo s.
  induction nb as [|nb IH]; intros I fuel lo s Hnb Hfuel Hs Hstep Hlast;
    (destruct fuel as [|fuel]; [lia|]); simpl;
    (destruct (Nat.ltb_spec (lo + ahead) hi) as [_|?]; [|lia]).
  - pose proof (Hlast s Hs) as Hbody.
    replace (lo + 5 * 0) with lo in Hbody by lia. by rewrite Hbody.
  - destruct (Hstep 0 s) as (s1 & Hbody & Hs1); [lia|done|].
    replace (lo + 5 * 0) with lo in Hbody by lia. rewrite Hbody. simpl.
    apply (IH (λ b, I (S b))); [lia|lia|done| |].
    + intros b s2 Hb Hs2. destruct (Hstep (S b) s2) as (s3 & Hbody3 & Hs3);
        [lia|done|].
      exists s3. split; [|done]. rewrite <- Hbody3. f_equal. lia.
    + intros s2 Hs2. rewrite <- (Hlast s2 Hs2). f_equal. lia.
Qed.

End BlocksMore.

Section Record.
Context `{Conference}.
Implicit Types (mapping : list nat).

Lemma record_sessions_Done mapping (fout0 : list Cell) :
  minisymposia_size ≤ length mapping →
  ∃ fout,
    for_loopM 0 minisymposia_size (λ m (fout : list Cell),
      let fout := fout ++ [SessionTitle m] in
      let fout := for_loop 0 (talks_size m)
                    (λ i fout, fout ++ [TalkCell m i]) fout in
      let i := talks_size m in
      lid ← gene mapping m ;
      let '(fout, i) :=
        if lid <? lectures_size then (fout ++ [LectureCell lid], i + 1)
        else (fout, i) in
      let fout := for_loop i 5 (λ _ fout, fout ++ [EmptyCell]) fout in
      mret (fout ++ [EndRow])) fout0 = Done fout.
Proof.
  intros Hlen.
  destruct (for_loopR_total (λ _ _, True) 0 minisymposia_size
              (λ m (fout : list Cell),
                 let fout := fout ++ [SessionTitle m] in
                 let fout := for_loop 0 (talks_size m)
                               (λ i fout, fout ++ [TalkCell m i]) fout in
                 let i := talks_size m in
                 lid ← gene mapping m ;
                 let '(fout, i) :=
                   if lid <? lectures_size
                   then (fout ++ [LectureCell lid], i + 1)
                   else (fout, i) in
                 let fout := for_loop i 5 (λ _ fout, fout ++ [EmptyCell]) fout in
                 mret (fout ++ [EndRow])) fout0)
    as (fout & Hloop & _); [lia|done| |by exists fout].
  intros m fout Hm _.
  destruct (gene_Done mapping m) as (lid & Hg & _); [lia|].
  cbv zeta. rewrite Hg. simpl.
  destruct (lid <? lectures_size); by eexists.
Qed.

(** X26. [record] reads five genes for every started block: a mapping
    whose genes after the sessions are not a multiple of five is rated, but
    recording it reads outside the mapping. *)
Theorem record_needs_whole_blocks mapping :
  minisymposia_size ≤ length mapping →
  (25 * N.of_nat (minisymposia_size + nblocks mapping) < 2 ^ 32)%N →
  (length mapping - minisymposia_size) mod 5 ≠ 0 →
  record mapping = Undefined ∧ ∃ rating, rate mapping = Done rating.
Proof.
  intros Hlen Hfit Hmod.
  split; [|destruct (rate_returns mapping Hlen Hfit) as (? & _ & ?); by eexists].
  unfold record.
  destruct (record_sessions_Done mapping [TableHeader] Hlen) as [fout Hfirst].
  cbv zeta in Hfirst |- *. rewrite Hfirst, Res_bind_Done.
  apply Res_bind_Undefined.
  pose proof (Nat.div_mod_eq (length mapping - minisymposia_size) 5) as Hdiv.
  pose proof (Nat.mod_upper_bound (length mapping - minisymposia_size) 5) as Hr.
  fold (nblocks mapping) in Hdiv.
  set (r := (length mapping - minisymposia_size) mod 5) in *.
  apply (for_blocks_undefined (λ _ _, True) _ 0 _ _ _ _ (nblocks mapping));
    [lia|lia|done| |].
  - intros b [fout1 i] Hb _.
    destruct (for_loopR_total (λ _ _, True) 0 5
                (λ j (fout : list Cell),
                   lid ← gene mapping (minisymposia_size + 5 * b + j) ;
                   if lid <? lectures_size
                   then mret (fout ++ [LectureCell lid])
                   else mret (fout ++ [EmptyCell]))
                (fout1 ++ [ContributedTitle (i + 1)]))
      as (fout2 & Hloop & _); [lia|done| |].
    { intros j fout2 Hj _.
      destruct (gene_Done mapping (minisymposia_size + 5 * b + j))
        as (lid & -> & _); [nia|]. simpl.
      destruct (lid <? lectures_size); by eexists. }
    cbv zeta. rewrite Hloop. by eexists.
  - intros [fout1 i] _. cbv zeta.
    destruct (for_loopR_total (λ _ _, True) 0 r
                (λ j (fout : list Cell),
                   lid ← gene mapping
                           (minisymposia_size + 5 * nblocks mapping + j) ;
                   if lid <? lectures_size
                   then mret (fout ++ [LectureCell lid])
                   else mret (fout ++ [EmptyCell]))
                (fout1 ++ [ContributedTitle (i + 1)]))
      as (fout2 & Hloop & _); [lia|done| |].
    { intros j fout2 Hj _.
      destruct (gene_Done mapping (minisymposia_size + 5 * nblocks mapping + j))
        as (lid & -> & _); [lia|]. simpl.
      destruct (lid <? lectures_size); by eexists. }
    erewrite (for_loopR_undefined 0 r); [done|lia|lia|done|].
    unfold gene. rewrite lookup_ge_None_2 by lia. done.
Qed.

End Record.

End MapperFacts.

(** ** Instances of the properties *)


Lemma two_candidates_select_out_of_range_witness :
  get_parent (compute_weights low_weights_state) low_weights_tape 0
    = Done (UINT_MAX, 1) ∧
  redraw_parent 1 (compute_weights low_weights_state) UINT_MAX UINT_MAX
    low_weights_tape 1 = Done (1%N, 2) ∧
  (UINT_MAX ≠ 1%N ∧ (UINT_MAX = UINT_MAX ∨ 1%N = UINT_MAX)).
Proof.
  assert (Hg : get_parent (compute_weights low_weights_state)
                 low_weights_tape 0 = Done (UINT_MAX, 1))
    by (vm_compute; reflexivity).
  assert (Hr : redraw_parent 1 (compute_weights low_weights_state) UINT_MAX
                 UINT_MAX low_weights_tape 1 = Done (1%N, 2))
    by (vm_compute; reflexivity).
  split; [exact Hg|]. split; [exact Hr|].
  apply (two_candidates_select_out_of_range 1 low_weights_state
           low_weights_tape 0 UINT_MAX 1 1%N 2).
  - intros k. unfold low_weights_tape, tape_of.
    do 3 (destruct k as [|k]; [split; done|]). split; done.
  - reflexivity.
  - exact Hg.
  - exact Hr.
Defined.

Lemma fix_schedule_sessions_first_witness :
  at2 (fix_schedule (H := demo) [[5; 1; 0]; [4; 2; 3]]) 0 1
    < mini_size (Collaborators := demo) ∧
  at2 (fix_schedule (H := demo) [[5; 1; 0]; [4; 2; 3]]) 0 0
    < mini_size (Collaborators := demo).
Proof.
  assert (Hb : at2 (fix_schedule (H := demo) [[5; 1; 0]; [4; 2; 3]]) 0 1
               < mini_size (Collaborators := demo)) by (vm_compute; lia).
  split; [exact Hb|].
  apply (fix_schedule_sessions_first (H := demo) [[5; 1; 0]; [4; 2; 3]] 0 0 1).
  - compute_done.
  - vm_compute. lia.
  - lia.
  - vm_compute. lia.
  - exact Hb.
Defined.

Lemma fix_schedule_keeps_slot_load_witness :
  slot_load (H := demo) (fix_schedule (H := demo) [[5; 1; 0]; [4; 2; 3]]) 0
  = slot_load (H := demo) [[5; 1; 0]; [4; 2; 3]] 0.
Proof.
  destruct (fix_schedule_keeps_slot_load (H := demo)
              [[5; 1; 0]; [4; 2; 3]] 0) as (_ & _ & Hload).
  - compute_done.
  - exact Hload.
Defined.

Lemma mutation_keeps_rooms_witness :
  ∃ g', next_schedules_ demo_mutated !! 1 = Some g' ∧
        shape (nslots (H := demo)) (nrooms (H := demo)) g' ∧
        ∀ r, room_of (H := demo) g' r
             ≡ₚ room_of (H := demo) [[2; 5; 4]; [0; 1; 3]] r.
Proof.
  apply (mutation_keeps_rooms (H := demo) 6 (1 # 10)%Q demo_bred demo_tape 9
           demo_mutated 44 1 [[2; 5; 4]; [0; 1; 3]]).
  - compute_done.
  - vm_compute. reflexivity.
  - reflexivity.
Defined.

Lemma mutation_rate_zero_is_idle_witness :
  mutate_population (H := demo) 0 0 demo_bred demo_tape 0
  = Done (demo_bred,
          0 + (nschedules demo_bred - 1)
              * (nslots (H := demo) * nrooms (H := demo))).
Proof.
  apply (mutation_rate_zero_is_idle (H := demo) 0 0%Q demo_bred demo_tape 0).
  - intros k. simpl. destruct (Nat.even k); split; done.
  - vm_compute. discriminate.
  - reflexivity.
Defined.

Lemma single_timeslot_mutation_diverges_witness :
  mutate_population (H := one_slot) 5 (1 # 2) one_slot_state demo_tape 0
  = OutOfFuel.
Proof.
  apply (single_timeslot_mutation_diverges (H := one_slot) 5 (1 # 2)%Q
           one_slot_state demo_tape 0).
  - reflexivity.
  - vm_compute. lia.
  - vm_compute. lia.
  - reflexivity.
  - reflexivity.
Defined.

Lemma elite_beyond_population_is_undefined_witness :
  breed_population (H := two_slots) 1 3 two_slots_state two_slots_tape 0
  = Undefined.
Proof.
  apply (elite_beyond_population_is_undefined (H := two_slots) 1 3
           two_slots_state two_slots_tape 0).
  - vm_compute. lia.
  - reflexivity.
  - reflexivity.
  - repeat (apply Forall_cons_2; [vm_compute; lia|]). apply Forall_nil_2.
Defined.

Lemma crossover_cut_zero_clones_dad_witness :
  breed_at (H := demo) 1 [[1; 5; 3]; [0; 4; 2]] [[0; 1; 2]; [3; 4; 5]] 0
           [[0; 0; 0]; [0; 0; 0]]
  = Done [[0; 1; 2]; [3; 4; 5]].
Proof.
  apply (crossover_cut_zero_clones_dad (H := demo) 1 [[1; 5; 3]; [0; 4; 2]]
           [[0; 1; 2]; [3; 4; 5]] [[0; 0; 0]; [0; 0; 0]]).
  - lia.
  - compute_done.
  - compute_done.
Defined.

Lemma crossover_of_identical_parents_witness :
  breed_at (H := demo) 1 [[1; 5; 3]; [0; 4; 2]] [[1; 5; 3]; [0; 4; 2]] 2
           [[0; 0; 0]; [0; 0; 0]]
  = Done [[1; 5; 3]; [0; 4; 2]].
Proof.
  apply (crossover_of_identical_parents (H := demo) 1 [[1; 5; 3]; [0; 4; 2]] 2
           [[0; 0; 0]; [0; 0; 0]]).
  - lia.
  - compute_done.
  - compute_done.
  - vm_compute. lia.
Defined.

Lemma ranking_breaks_ties_by_index_witness :
  sort_on_ratings tied_state = Done ([1; 0; 2], 1%Q) ∧ 0 < 2.
Proof.
  assert (Hsort : sort_on_ratings tied_state = Done ([1; 0; 2], 1%Q))
    by (vm_compute; reflexivity).
  split; [exact Hsort|].
  apply (ranking_breaks_ties_by_index tied_state [1; 0; 2] 1%Q 1 2 0 2 1%Q 1%Q).
  - reflexivity.
  - exact Hsort.
  - lia.
  - reflexivity.
  - reflexivity.
  - reflexivity.
  - reflexivity.
  - reflexivity.
Defined.

Lemma run_genetic_keeps_extents_witness :
  run_genetic (H := three_slots) 3 4 1 0 1 three_slots_tape 0
    = Done (three_slots_next, 26) ∧
  nschedules three_slots_next = 4 ∧
  length (next_schedules_ three_slots_next) = 4 ∧
  length (ratings_ three_slots_next) = 4 ∧
  length (weights_ three_slots_next) = 4 ∧
  length (best_indices_ three_slots_next) = 4 ∧
  Forall (shape (nslots (H := three_slots)) (nrooms (H := three_slots)))
         (current_schedules_ three_slots_next).
Proof.
  assert (Hrun : run_genetic (H := three_slots) 3 4 1 0 1 three_slots_tape 0
                 = Done (three_slots_next, 26)) by (vm_compute; reflexivity).
  split; [exact Hrun|].
  exact (run_genetic_keeps_extents (H := three_slots) 3 4 1 0%Q 1
           three_slots_tape 0 three_slots_next 26 Hrun).
Defined.

Lemma early_exit_means_no_rating_below_one_witness :
  generation (H := optimal) 1 1 0 two_slots_state demo_tape 0
    = Done ((false, optimal_rated), 0) ∧
  ∃ g, g ∈ current_schedules_ two_slots_state ∧
       (rate_schedule (Collaborators := optimal) g == 1)%Q.
Proof.
  assert (Hgen : generation (H := optimal) 1 1 0 two_slots_state demo_tape 0
                 = Done ((false, optimal_rated), 0)) by (vm_compute; reflexivity).
  split; [exact Hgen|].
  destruct (early_exit_means_no_rating_below_one (H := optimal) 1 1 0%Q
              two_slots_state demo_tape 0 optimal_rated 0) as (_ & _ & _ & Hex).
  - reflexivity.
  - exact Hgen.
  - exact Hex.
Defined.

Lemma get_best_schedule_is_best_witness :
  ∃ i g best,
    get_best_schedule two_slots_state demo_tape 0 = Done (g, 0) ∧
    print_best_schedule two_slots_state = Done best ∧
    current_schedules_ two_slots_state !! i = Some g ∧
    ratings_ two_slots_state !! i = Some best ∧
    ∀ y, y ∈ ratings_ two_slots_state → (y <= best)%Q.
Proof.
  apply (get_best_schedule_is_best two_slots_state demo_tape 0 (9 # 10)%Q).
  - reflexivity.
  - left.
  - vm_compute. reflexivity.
Defined.

Lemma best_schedule_of_empty_population_witness :
  print_best_schedule empty_state = Done (- DBL_MAX)%Q ∧
  get_best_schedule empty_state demo_tape 0 = Undefined ∧
  (0 < nslots (H := demo) → 0 < nrooms (H := demo) →
   record (H := demo) empty_state demo_tape 0 = Undefined).
Proof.
  apply (best_schedule_of_empty_population (H := demo) empty_state demo_tape 0).
  reflexivity.
Defined.


Lemma print_schedule_lists_every_session_once_witness :
  ∃ out,
    print_schedule (H := demo) (N.of_nat 0) demo_state demo_tape 0
      = Done (out, 0) ∧
    slot_headers out = seq 0 (nslots (H := demo)) ∧
    sessions out
    ≡ₚ seq 0 (mini_size (Collaborators := demo)
              `min` (nslots (H := demo) * nrooms (H := demo))).
Proof.
  apply (print_schedule_lists_every_session_once (H := demo) demo_state 0
           [[2; 5; 4]; [0; 1; 3]] demo_tape 0).
  - reflexivity.
  - compute_done.
Defined.

Lemma all_elite_breeding_returns_witness :
  ∃ s', breed_population (H := two_slots) 0 (nschedules two_slots_state)
          two_slots_state demo_tape 0 = Done (s', 0) ∧
        current_schedules_ s' = current_schedules_ two_slots_state ∧
        ∀ i idx, best_indices_ two_slots_state !! i = Some idx →
                 next_schedules_ s' !! i
                 = current_schedules_ two_slots_state !! idx.
Proof.
  apply (all_elite_breeding_returns (H := two_slots) 0 two_slots_state
           demo_tape 0).
  - reflexivity.
  - reflexivity.
  - repeat (apply Forall_cons_2; [vm_compute; lia|]). apply Forall_nil_2.
Defined.

Lemma ratings_lag_one_generation_witness :
  generation (H := three_slots) 3 1 0 three_slots_unranked three_slots_tape 8
    = Done ((true, three_slots_unranked_next), 26) ∧
  best_indices_ three_slots_unranked_next = [1; 0; 2; 3] ∧
  ratings_ three_slots_unranked_next !! 0 = Some (9 # 10)%Q ∧
  rate_schedule (Collaborators := three_slots)
    <$> next_schedules_ three_slots_unranked_next !! 0 = Some (1 # 2)%Q ∧
  next_schedules_ three_slots_unranked_next
  = current_schedules_ three_slots_unranked ∧
  ratings_ three_slots_unranked_next
  ≡ₚ map (rate_schedule (Collaborators := three_slots))
         (next_schedules_ three_slots_unranked_next) ∧
  (∀ a b ra rb,
     a < b → ratings_ three_slots_unranked_next !! a = Some ra →
     ratings_ three_slots_unranked_next !! b = Some rb → (rb <= ra)%Q) ∧
  (∀ a idx, best_indices_ three_slots_unranked_next !! a = Some idx →
     ratings_ three_slots_unranked_next !! a
     = rate_schedule (Collaborators := three_slots)
         <$> next_schedules_ three_slots_unranked_next !! idx) ∧
  weights_ three_slots_unranked_next
  = weights_of (ratings_ three_slots_unranked_next).
Proof.
  assert (Hgen : generation (H := three_slots) 3 1 0 three_slots_unranked
                   three_slots_tape 8
                 = Done ((true, three_slots_unranked_next), 26))
    by (vm_compute; reflexivity).
  split; [exact Hgen|]. do 3 (split; [reflexivity|]).
  apply (ratings_lag_one_generation (H := three_slots) 3 1 0%Q
           three_slots_unranked three_slots_tape 8
           three_slots_unranked_next 26).
  - reflexivity.
  - exact Hgen.
Defined.

Lemma fullness_score_bounds_witness :
  ∃ score,
    Mapper.count_full_minisymposia (H := small_conference) small_mapping
      = Done score ∧
    (16 * N.of_nat (Mapper.minisymposia_size (Conference := small_conference))
     <= score)%N ∧
    (score <= 25 * N.of_nat
                (Mapper.minisymposia_size (Conference := small_conference)
                 + Mapper.nblocks (H := small_conference) small_mapping))%N ∧
    (score = (25 * N.of_nat
                (Mapper.minisymposia_size (Conference := small_conference)
                 + Mapper.nblocks (H := small_conference) small_mapping))%N
     ↔ ∀ i, i < Mapper.rated_genes (H := small_conference) small_mapping →
            Mapper.filled (H := small_conference) small_mapping i = true).
Proof.
  apply (MapperFacts.fullness_score_bounds (H := small_conference) small_mapping).
  - vm_compute. lia.
  - vm_compute. reflexivity.
Defined.

Lemma rate_ignores_incomplete_block_witness :
  Mapper.count_full_minisymposia (H := small_conference) small_mapping
  = Mapper.count_full_minisymposia (H := small_conference) [0; 1; 2; 3; 4; 5; 7] ∧
  Mapper.topic_cohesion_score (H := small_conference) small_mapping
  = Mapper.topic_cohesion_score (H := small_conference) [0; 1; 2; 3; 4; 5; 7] ∧
  Mapper.rate (H := small_conference) small_mapping
  = Mapper.rate (H := small_conference) [0; 1; 2; 3; 4; 5; 7].
Proof.
  apply (MapperFacts.rate_ignores_incomplete_block (H := small_conference)
           small_mapping [0; 1; 2; 3; 4; 5; 7]).
  - reflexivity.
  - intros i Hi. do 6 (destruct i as [|i]; [reflexivity|]).
    vm_compute in Hi. lia.
Defined.

Lemma rate_of_short_mapping_is_undefined_witness :
  Mapper.count_full_minisymposia (H := small_conference) [] = Undefined ∧
  Mapper.topic_cohesion_score (H := small_conference) [] = Undefined ∧
  Mapper.rate (H := small_conference) [] = Undefined.
Proof.
  apply (MapperFacts.rate_of_short_mapping_is_undefined (H := small_conference) []).
  vm_compute. lia.
Defined.

Lemma record_needs_whole_blocks_witness :
  Mapper.record (H := small_conference) small_mapping = Undefined ∧
  ∃ rating, Mapper.rate (H := small_conference) small_mapping = Done rating.
Proof.
  apply (MapperFacts.record_needs_whole_blocks (H := small_conference)
           small_mapping).
  - vm_compute. lia.
  - vm_compute. reflexivity.
  - vm_compute. lia.
Defined.
